(** * jax._src.util: the memoization layer and its equality wrappers

    A shallow embedding of the caching part of [jax/_src/util.py]:
    the [cache] decorator (built on [functools.lru_cache]), the weak
    registry [_caches] with [register_cache] and [clear_all_caches],
    [memoize], and the classes [HashableFunction] and [HashableWrapper].

    Python values are kept abstract: a type [V] with decidable equality
    standing for Python's [==] on hashable arguments (an unhashable
    argument never gets as far as a key).  The wrapped function is a
    function from its positional and keyword arguments to an outcome (a
    returned value or a raised exception): it is pure, and does not call
    back into the cache that wraps it.  Every invocation of it is recorded
    in a log that is threaded next to the cache, so that "the wrapped
    function is (not) invoked" is a statement about that log.

    The module [Objects] models the same cache on Python objects, whose
    [==] relates objects of different types and whose [hash] can raise:
    there [1], [1.0] and [True] compare equal, and a call with a list
    among its arguments fails with a [TypeError] before the cache is
    looked at.  On objects that are hashable and equal only to themselves
    it is the cache of [Functools] and [Util] ([identity_wrapper]). *)

From stdpp Require Import base decidable option list strings gmap sorting.
From Stdlib Require Import ZArith Lia.

Set Warnings "-clear-no-such-hyp".


(** ** Python-level data *)

Module Py.

(** Exceptions: the [TypeError]s raised by the interpreter and by
    [functools], and whatever the wrapped function raises. *)
Inductive exception (X : Type) : Type :=
  | TypeError (msg : string)
  | Raised (payload : X).
Arguments TypeError {X} msg.
Arguments Raised {X} payload.

(** What a call produces. *)
Inductive outcome (V X : Type) : Type :=
  | Return (v : V)
  | Raise (e : exception X).
Arguments Return {V X} v.
Arguments Raise {V X} e.

(** [**kwargs]: a dict, which keeps the order in which the keywords were
    passed at the call site. *)
Definition kwargs (V : Type) : Type := list (string * V).

(** A callable taking [*args, **kwargs]. *)
Definition pyfun (V X : Type) : Type := list V → kwargs V → outcome V X.

(** The log of the invocations of the wrapped function. *)
Definition log (V : Type) : Type := list (list V * kwargs V).

(** A callable as the caches run it: it may extend the invocation log. *)
Definition ufun (V X : Type) : Type :=
  list V → kwargs V → log V → outcome V X * log V.

(** Calling the wrapped function [f] on [args] and [kwargs]. *)
Definition invoke {V X} (f : pyfun V X) : ufun V X :=
  λ args kw w, (f args kw, w ++ [(args, kw)]).

(** A [dict] as the list of its items in insertion order; the keys of
    the items are pairwise different. *)
Section Dict.
Context {K A : Type} `{EqDecision K}.

(** [d.get(key)] *)
Fixpoint dict_get (key : K) (d : list (K * A)) : option A :=
  match d with
  | [] => None
  | (k, v) :: d => if decide (key = k) then Some v else dict_get key d
  end.

(** [del d[key]] *)
Fixpoint dict_del (key : K) (d : list (K * A)) : list (K * A) :=
  match d with
  | [] => []
  | (k, v) :: d =>
      if decide (key = k) then dict_del key d else (k, v) :: dict_del key d
  end.

(** [d[key] = value]: an existing key keeps its place. *)
Fixpoint dict_set (key : K) (value : A) (d : list (K * A)) : list (K * A) :=
  match d with
  | [] => [(key, value)]
  | (k, v) :: d =>
      if decide (key = k) then (k, value) :: d
      else (k, v) :: dict_set key value d
  end.
End Dict.

End Py.
Export Py.

(** ** functools.lru_cache

    [cache] delegates all storage to [functools.lru_cache] of the Python
    standard library.  The definitions of this module follow CPython's
    [Lib/functools.py]: [_make_key], the three wrappers of
    [_lru_cache_wrapper] (no caching for [maxsize == 0], unbounded for
    [maxsize is None], bounded otherwise), [cache_clear] and the argument
    check of [lru_cache]. *)

Module Functools.
Section LruCache.
Context {V X : Type} `{EqDecision V}.
(** [type(v) in {int, str}], the [fasttypes] of [_make_key]. *)
Variable is_fasttype : V → bool.

(** The elements of a key tuple: an argument value, the [kwd_mark]
    separator (a fresh [object()], equal to nothing but itself) or the
    name of a keyword.  Names come after the separator and values before
    it or at even places after it, so a name is never compared with a
    value. *)
Inductive key_item : Type :=
  | KVal (v : V)
  | KMark
  | KName (name : string).

(** A key: a single [int] or [str] argument itself, or a [_HashedSeq]. *)
Inductive cache_key : Type :=
  | KFast (v : V)
  | KHashedSeq (items : list key_item).

#[global] Instance key_item_eq_dec : EqDecision key_item.
Proof. solve_decision. Defined.
#[global] Instance cache_key_eq_dec : EqDecision cache_key.
Proof. solve_decision. Defined.

(** [for item in kwds.items(): key += item] *)
Fixpoint kwd_items (kwds : kwargs V) : list key_item :=
  match kwds with
  | [] => []
  | (name, v) :: kwds => KName name :: KVal v :: kwd_items kwds
  end.

(** [_make_key(args, kwds, typed=False)] *)
Definition _make_key (args : list V) (kwds : kwargs V) : cache_key :=
  let key := KVal <$> args in
  let key := match kwds with
             | [] => key
             | _ :: _ => key ++ KMark :: kwd_items kwds
             end in
  match key with
  | [KVal v] => if is_fasttype v then KFast v else KHashedSeq key
  | _ => KHashedSeq key
  end.

(** The tuple that [_make_key] builds before it chooses between the two
    representations. *)
Definition key_tuple (args : list V) (kwds : kwargs V) : list key_item :=
  (KVal <$> args) ++ match kwds with
                     | [] => []
                     | _ :: _ => KMark :: kwd_items kwds
                     end.

(** The state of one [lru_cache] wrapper: the entries from the least to
    the most recently used (the circular list read from [root[NEXT]]),
    the two counters and the [full] flag. *)
Record lru_state : Type := LruState {
  entries : list (cache_key * V);
  hits : nat;
  misses : nat;
  full : bool
}.

(** A fresh wrapper. *)
Definition lru_new : lru_state :=
  {| entries := []; hits := 0; misses := 0; full := false |}.

(** [maxsize == 0]: statistics only. *)
Definition uncached_wrapper (user_function : ufun V X)
    (args : list V) (kwds : kwargs V) (st : lru_state) (w : log V)
  : outcome V X * lru_state * log V :=
  let st := {| entries := entries st; hits := hits st;
               misses := S (misses st); full := full st |} in
  let '(result, w) := user_function args kwds w in
  (result, st, w).

(** [maxsize is None]: no ordering, no limit. *)
Definition unbounded_wrapper (user_function : ufun V X)
    (args : list V) (kwds : kwargs V) (st : lru_state) (w : log V)
  : outcome V X * lru_state * log V :=
  let key := _make_key args kwds in
  match dict_get key (entries st) with
  | Some result =>
      (Return result,
       {| entries := entries st; hits := S (hits st);
          misses := misses st; full := full st |}, w)
  | None =>
      let st := {| entries := entries st; hits := hits st;
                   misses := S (misses st); full := full st |} in
      match user_function args kwds w with
      | (Raise e, w) => (Raise e, st, w)
      | (Return result, w) =>
          (Return result,
           {| entries := dict_set key result (entries st);
              hits := hits st; misses := misses st; full := full st |}, w)
      end
  end.

(** The size-limited wrapper.  On a hit the link moves to the front of
    the queue; on a miss the counter is bumped, then the function runs,
    then its result is stored: in the oldest link when the cache is
    full, in a new link otherwise. *)
Definition bounded_wrapper (maxsize : nat) (user_function : ufun V X)
    (args : list V) (kwds : kwargs V) (st : lru_state) (w : log V)
  : outcome V X * lru_state * log V :=
  let key := _make_key args kwds in
  match dict_get key (entries st) with
  | Some result =>
      (Return result,
       {| entries := dict_del key (entries st) ++ [(key, result)];
          hits := S (hits st); misses := misses st; full := full st |}, w)
  | None =>
      let st := {| entries := entries st; hits := hits st;
                   misses := S (misses st); full := full st |} in
      match user_function args kwds w with
      | (Raise e, w) => (Raise e, st, w)
      | (Return result, w) =>
          match dict_get key (entries st) with
          | Some _ => (Return result, st, w)
          | None =>
              if full st then
                (Return result,
                 {| entries := tail (entries st) ++ [(key, result)];
                    hits := hits st; misses := misses st; full := true |}, w)
              else
                let es := entries st ++ [(key, result)] in
                (Return result,
                 {| entries := es; hits := hits st; misses := misses st;
                    full := bool_decide (maxsize ≤ length es) |}, w)
          end
      end
  end.

(** [_lru_cache_wrapper(user_function, maxsize, typed, _CacheInfo)];
    [maxsize] is [None] or a non-negative integer here. *)
Definition _lru_cache_wrapper (maxsize : option nat)
  : ufun V X → list V → kwargs V → lru_state → log V
    → outcome V X * lru_state * log V :=
  match maxsize with
  | Some 0 => uncached_wrapper
  | None => unbounded_wrapper
  | Some n => bounded_wrapper n
  end.

(** [cache_clear()] *)
Definition cache_clear (st : lru_state) : lru_state := lru_new.

(** [cache_info()]: hits, misses, maxsize, currsize. *)
Definition cache_info (maxsize : option nat) (st : lru_state)
  : nat * nat * option nat * nat :=
  (hits st, misses st, maxsize, length (entries st)).

End LruCache.
Arguments key_item V : clear implicits.
Arguments cache_key V : clear implicits.
Arguments lru_state V : clear implicits.

(** The first argument of [lru_cache]: an [int], [None], or an object that
    is neither of these nor callable.  (A callable there is the
    [@lru_cache] form without parentheses, which [cache] never produces
    from a capacity.) *)
Inductive maxsize_arg : Type :=
  | MaxInt (n : Z)
  | MaxNone
  | MaxOther.

(** [lru_cache(maxsize)]: a negative [maxsize] is treated as 0; anything
    that is not an integer or [None] is a [TypeError]. *)
Definition lru_cache {X : Type} (maxsize : maxsize_arg)
  : exception X + option nat :=
  match maxsize with
  | MaxInt n => inr (Some (if decide (n < 0)%Z then 0 else Z.to_nat n))
  | MaxNone => inr None
  | MaxOther =>
      inl (TypeError
             "Expected first argument to be an integer, a callable, or None")
  end.

End Functools.
Export Functools.

(** ** jax._src.util: cache, register_cache, clear_all_caches, memoize *)

Module Util.
Section Cache.
Context {V X : Type} `{EqDecision V}.
Variable is_fasttype : V → bool.

(** What [cache] reads from [jax._src.config] at each call:
    [config.check_tracer_leaks.value] and [config.trace_context()]. *)
Record config : Type := Config {
  check_tracer_leaks : bool;
  trace_context : V
}.

(** The inner function of [wrap],
    [def cached(_, *args, **kwargs): return f( *args, **kwargs)]:
    the first positional argument is bound to [_] and dropped.  Binding
    fails with a [TypeError] when there is no positional argument, or
    when a keyword is itself named [_]. *)
Definition cached (f : pyfun V X) : ufun V X :=
  λ args kw w,
    match args with
    | [] =>
        (Raise (TypeError
                  "cached() missing 1 required positional argument: '_'"), w)
    | _ :: args =>
        if decide ("_" ∈ kw.*1) then
          (Raise (TypeError "cached() got multiple values for argument '_'"),
           w)
        else invoke f args kw w
    end.

(** The function object that [wrap] returns. *)
Record cache_fn : Type := CacheFn {
  maxsize : option nat;
  trace_context_in_key : bool;
  wrapped : pyfun V X
}.

(** A call of that object, in the ambient configuration [cfg].  With
    [trace_context_in_key] it is [wrapper]; without, it is the bare
    [functools.lru_cache(max_size)(f)]. *)
Definition wrapper (c : cache_fn) (cfg : config)
    (args : list V) (kw : kwargs V) (st : lru_state V) (w : log V)
  : outcome V X * lru_state V * log V :=
  if trace_context_in_key c then
    if check_tracer_leaks cfg then
      let '(result, w) := invoke (wrapped c) args kw w in (result, st, w)
    else
      _lru_cache_wrapper is_fasttype (maxsize c) (cached (wrapped c))
        (trace_context cfg :: args) kw st w
  else
    _lru_cache_wrapper is_fasttype (maxsize c) (invoke (wrapped c))
      args kw st w.

(** [cache(max_size, trace_context_in_key)(f)]: the decorator applied to
    [f].  The only thing that can fail is [functools.lru_cache(max_size)],
    which both branches of [wrap] call before anything else. *)
Definition cache (max_size : maxsize_arg) (trace_context_in_key : bool)
    (f : pyfun V X) : exception X + cache_fn :=
  match lru_cache max_size with
  | inl e => inl e
  | inr m => inr (CacheFn m trace_context_in_key f)
  end.

(** [memoize = cache(max_size=None)] *)
Definition memoize (f : pyfun V X) : exception X + cache_fn :=
  cache MaxNone true f.

(** The key a call looks up, when it looks one up. *)
Definition key_of (c : cache_fn) (cfg : config)
    (args : list V) (kw : kwargs V) : cache_key V :=
  if trace_context_in_key c
  then _make_key is_fasttype (trace_context cfg :: args) kw
  else _make_key is_fasttype args kw.

(** Whether the call skips the cache. *)
Definition bypassed (c : cache_fn) (cfg : config) : bool :=
  trace_context_in_key c && check_tracer_leaks cfg.

(** Whether [cached] can bind the keywords of the call. *)
Definition binds (c : cache_fn) (kw : kwargs V) : Prop :=
  trace_context_in_key c = true → "_" ∉ kw.*1.

(** When the call is not bypassed: the positional arguments that reach
    [lru_cache]'s wrapper, and the function that wrapper runs on a miss. *)
Definition lookup_args (c : cache_fn) (cfg : config) (args : list V)
  : list V :=
  if trace_context_in_key c then trace_context cfg :: args else args.

Definition body (c : cache_fn) : ufun V X :=
  if trace_context_in_key c then cached (wrapped c) else invoke (wrapped c).

(** Every stored value is what the wrapped function returns for the
    arguments of its key. *)
Definition consistent (c : cache_fn) (st : lru_state V) : Prop :=
  ∀ cfg args kw v,
    (key_of c cfg args kw, v) ∈ entries st →
    wrapped c args kw = Return v.

(** The states a cache goes through: it starts empty, and changes by
    calls and by [cache_clear()]. *)
Inductive reachable (c : cache_fn) : lru_state V → Prop :=
  | reachable_new : reachable c lru_new
  | reachable_call cfg args kw st w :
      reachable c st → reachable c (wrapper c cfg args kw st w).1.2
  | reachable_clear st :
      reachable c st → reachable c (cache_clear st).

(** One call site: the configuration in force and the arguments. *)
Record call : Type := Call {
  call_cfg : config;
  call_args : list V;
  call_kwargs : kwargs V
}.

(** A sequence of calls of the same cached function; the outcomes come
    back in call order. *)
Fixpoint run (c : cache_fn) (cs : list call) (st : lru_state V) (w : log V)
  : list (outcome V X) * lru_state V * log V :=
  match cs with
  | [] => ([], st, w)
  | x :: cs =>
      let '(r, st, w) :=
        wrapper c (call_cfg x) (call_args x) (call_kwargs x) st w in
      let '(rs, st, w) := run c cs st w in
      (r :: rs, st, w)
  end.

(** *** The registry

    Objects live in a heap indexed by their identity.  [_caches] is a
    [weakref.WeakKeyDictionary]: it maps the identity of a cache to its
    label, and does not keep the cache alive.

    Two kinds of objects are registered: the functions made by [cache],
    and the objects that [weakref_lru_cache] gets from jaxlib's
    [_weakref_lru_cache.weakref_lru_cache].  The latter are opaque here:
    a state in [W], on which [cache_clear()] acts as [weak_cache_clear]. *)
Context {W : Type}.
Variable weak_cache_clear : W → W.

Inductive cache_object : Type :=
  | LruCached (fn : cache_fn) (st : lru_state V)
  | WeakrefLruCached (s : W).

Record memory : Type := Memory {
  heap : gmap nat cache_object;
  _caches : gmap nat string
}.

(** [register_cache(cache, for_what)]: [_caches[cache] = for_what]. *)
Definition register_cache (cache : nat) (for_what : string) (m : memory)
  : memory :=
  {| heap := heap m; _caches := <[cache := for_what]> (_caches m) |}.

(** A new object in the heap. *)
Definition allocate (o : cache_object) (m : memory) : nat * memory :=
  let h := fresh (dom (heap m)) in
  (h, {| heap := <[h := o]> (heap m); _caches := _caches m |}).

(** The decorator [cache(max_size, trace_context_in_key)] applied to [f]
    in memory [m]: the new function object is allocated and registered
    under [str(f)]. *)
Definition decorate (max_size : maxsize_arg) (trace_context_in_key : bool)
    (f : pyfun V X) (str_f : string) (m : memory)
  : exception X + (nat * memory) :=
  match cache max_size trace_context_in_key f with
  | inl e => inl e
  | inr c =>
      let '(h, m) := allocate (LruCached c lru_new) m in
      inr (h, register_cache h str_f m)
  end.

(** [weakref_lru_cache(call, maxsize, trace_context_in_key)]:
    [cached_call] is the object that jaxlib returns. *)
Definition weakref_lru_cache (cached_call : W) (str_call : string)
    (m : memory) : nat * memory :=
  let '(h, m) := allocate (WeakrefLruCached cached_call) m in
  (h, register_cache h str_call m).

(** The cache [h] becomes unreachable and is collected; the callback of
    its weak reference drops its item from [_caches]. *)
Definition collect (h : nat) (m : memory) : memory :=
  {| heap := delete h (heap m); _caches := delete h (_caches m) |}.

(** [_caches.keys()]: the keys whose referent is still alive. *)
Definition keys (m : memory) : list nat :=
  filter (λ h, is_Some (heap m !! h)) (map_to_list (_caches m)).*1.

(** [cache_clear()] on a cache object. *)
Definition cleared (o : cache_object) : cache_object :=
  match o with
  | LruCached fn st => LruCached fn (cache_clear st)
  | WeakrefLruCached s => WeakrefLruCached (weak_cache_clear s)
  end.

(** [cache.cache_clear()] on the object [h]; [None] stands for the error
    of calling a method on an object that is gone. *)
Definition clear_object (h : nat) (hp : gmap nat cache_object)
  : option (gmap nat cache_object) :=
  match hp !! h with
  | Some o => Some (<[h := cleared o]> hp)
  | None => None
  end.

(** [for cache in _caches.keys(): cache.cache_clear()] *)
Fixpoint clear_each (hs : list nat) (hp : gmap nat cache_object)
  : option (gmap nat cache_object) :=
  match hs with
  | [] => Some hp
  | h :: hs =>
      match clear_object h hp with
      | Some hp => clear_each hs hp
      | None => None
      end
  end.

Definition clear_all_caches (m : memory) : option memory :=
  match clear_each (keys m) (heap m) with
  | Some hp => Some {| heap := hp; _caches := _caches m |}
  | None => None
  end.

(** The key, the arguments and the wrapped function's outcome of a call
    site. *)
Definition call_key (c : cache_fn) (x : call) : cache_key V :=
  key_of c (call_cfg x) (call_args x) (call_kwargs x).







(** The state after a counted miss that stores nothing. *)
Definition missed (st : lru_state V) : lru_state V :=
  {| entries := entries st; hits := hits st;
     misses := S (misses st); full := full st |}.

(** The ways a call can go, with what it returns and leaves behind:
    bypassed; served from the cache; failing to bind its keywords;
    failing in the wrapped function; computed with nothing stored
    (capacity zero); computed and stored. *)
Inductive step (c : cache_fn) (cfg : config) (args : list V) (kw : kwargs V)
    (st : lru_state V) (w : log V)
  : outcome V X * lru_state V * log V → Prop :=
  | step_bypass :
      bypassed c cfg = true →
      step c cfg args kw st w (wrapped c args kw, st, w ++ [(args, kw)])
  | step_hit v :
      bypassed c cfg = false →
      maxsize c ≠ Some 0 →
      dict_get (key_of c cfg args kw) (entries st) = Some v →
      step c cfg args kw st w
        (Return v,
         {| entries :=
              match maxsize c with
              | None => entries st
              | Some _ =>
                  dict_del (key_of c cfg args kw) (entries st)
                  ++ [(key_of c cfg args kw, v)]
              end;
            hits := S (hits st); misses := misses st; full := full st |},
         w)
  | step_unbound :
      bypassed c cfg = false →
      maxsize c = Some 0
      ∨ dict_get (key_of c cfg args kw) (entries st) = None →
      ¬ binds c kw →
      step c cfg args kw st w
        (Raise (TypeError "cached() got multiple values for argument '_'"),
         missed st, w)
  | step_raise e :
      bypassed c cfg = false →
      maxsize c = Some 0
      ∨ dict_get (key_of c cfg args kw) (entries st) = None →
      binds c kw →
      wrapped c args kw = Raise e →
      step c cfg args kw st w (Raise e, missed st, w ++ [(args, kw)])
  | step_uncached v :
      bypassed c cfg = false →
      maxsize c = Some 0 →
      binds c kw →
      wrapped c args kw = Return v →
      step c cfg args kw st w (Return v, missed st, w ++ [(args, kw)])
  | step_store v :
      bypassed c cfg = false →
      maxsize c ≠ Some 0 →
      dict_get (key_of c cfg args kw) (entries st) = None →
      binds c kw →
      wrapped c args kw = Return v →
      step c cfg args kw st w
        (Return v,
         {| entries :=
              match maxsize c with
              | Some _ => if full st then tail (entries st) else entries st
              | None => entries st
              end ++ [(key_of c cfg args kw, v)];
            hits := hits st; misses := S (misses st);
            full :=
              match maxsize c with
              | Some n => full st || bool_decide (n ≤ S (length (entries st)))
              | None => full st
              end |},
         w ++ [(args, kw)]).

End Cache.
End Util.
Export Util.

(** ** HashableFunction and HashableWrapper

    Python's [==] and [hash] on the wrapped values are parameters:
    [py_eq] is [==], [py_hash] is [hash] ([None] when it raises, the value
    being unhashable).  Code objects have their own equality and hash.
    An object also has an identity, which [is] and [id] look at. *)

Module Wrappers.
Section Hashable.
Context {V Code : Type}.
Variable py_eq : V → V → bool.
Variable py_hash : V → option Z.
Variable code_eq : Code → Code → bool.
Variable code_hash : Code → Z.
(** The hash of a tuple, computed from the hashes of its items. *)
Variable tuple_hash : list Z → Z.

(** A function object. *)
Record function : Type := Function {
  __code__ : Code;
  __name__ : string
}.

(** A reference to a value: [is] compares [id]s, [==] compares
    [content]s. *)
Record reference : Type := Reference {
  id : nat;
  content : V
}.

(** [HashableFunction.__init__(self, f, closure)] *)
Record HashableFunction : Type := HashableFunction__init__ {
  f : function;
  closure : V
}.

(** An instance of [HashableWrapper]: [x] and [hash]. *)
Record HashableWrapper : Type := MkHashableWrapper {
  x : reference;
  hash : option Z
}.

(** What the [other] of an [__eq__] can be.  Neither class has a subclass
    in the module, so [type(other) is HashableFunction] and
    [isinstance(other, HashableWrapper)] are tests on the constructor. *)
Inductive object : Type :=
  | OfHashableFunction (o : HashableFunction)
  | OfHashableWrapper (o : HashableWrapper)
  | OfOther (v : reference).

(** [HashableFunction.__eq__] *)
Definition HashableFunction__eq__ (self : HashableFunction) (other : object)
  : bool :=
  match other with
  | OfHashableFunction other =>
      code_eq (__code__ (f self)) (__code__ (f other))
      && py_eq (closure self) (closure other)
  | _ => false
  end.

(** [HashableFunction.__hash__]: [hash((self.f.__code__, self.closure))],
    [None] when the closure is unhashable. *)
Definition HashableFunction__hash__ (self : HashableFunction) : option Z :=
  match py_hash (closure self) with
  | Some h => Some (tuple_hash [code_hash (__code__ (f self)); h])
  | None => None
  end.

(** [HashableWrapper.__init__]:
    [try: self.hash = hash(x)] / [except: self.hash = None]. *)
Definition HashableWrapper__init__ (x : reference) : HashableWrapper :=
  {| x := x; hash := py_hash (content x) |}.

(** [HashableWrapper.__hash__] *)
Definition HashableWrapper__hash__ (self : HashableWrapper) : Z :=
  match hash self with
  | Some h => h
  | None => Z.of_nat (id (x self))
  end.

(** [HashableWrapper.__eq__] *)
Definition HashableWrapper__eq__ (self : HashableWrapper) (other : object)
  : bool :=
  match other with
  | OfHashableWrapper other =>
      match hash self with
      | Some _ => py_eq (content (x self)) (content (x other))
      | None => bool_decide (id (x self) = id (x other))
      end
  | _ => false
  end.

End Hashable.
End Wrappers.

(** ** Sample data

    A concrete instance used to run the definitions: values are integers
    (all of a fast type), exceptions carry a message. *)

Module Sample.
Open Scope Z_scope.

Definition is_int (_ : Z) : bool := true.

(** [def total( *args, **kwargs): return sum(args) + sum(kwargs.values())],
    which does not depend on the order of the keywords. *)
Definition total : pyfun Z string :=
  λ args kw, Return (foldr Z.add 0 args + foldr Z.add 0 kw.*2).


Definition leaks_on : config (V:=Z) := Config true 0.
Definition leaks_off : config (V:=Z) := Config false 0.
Definition in_context (ctx : Z) : config (V:=Z) := Config false ctx.

(** Values for the equality wrappers: integers, which hash to
    themselves, and lists, which are unhashable. *)
Inductive value : Type :=
  | Int (n : Z)
  | List (items : list Z).

Definition value_eq (a b : value) : bool :=
  match a, b with
  | Int n, Int m => bool_decide (n = m)
  | List l, List k => bool_decide (l = k)
  | _, _ => false
  end.

Definition value_hash (a : value) : option Z :=
  match a with
  | Int n => Some n
  | List _ => None
  end.

(** Code objects, told apart by their source text. *)
Definition source_eq (a b : string) : bool := bool_decide (a = b).
Definition source_hash (a : string) : Z := Z.of_nat (String.length a).
Definition sum_hash (hs : list Z) : Z := foldr Z.add 0 hs.

Definition succ_fn : Wrappers.function (Code:=string) :=
  Wrappers.Function "lambda x: x + k" "<lambda>".
Definition pred_fn : Wrappers.function (Code:=string) :=
  Wrappers.Function "lambda x: x - k" "<lambda>".
End Sample.

(** ** jax._src.util: the sequence, axis and tuple helpers

    Python integers are [Z]; a sequence is a list; a failing call returns
    the class of the exception it raises. *)

Module Lst.

(** The exceptions these helpers raise.  A [ValueError] keeps the numbers
    that its message is formatted from. *)
Inductive error : Type :=
  | AssertionError
  | IndexError
  | KeyError
  | StopIteration
  | ZeroDivisionError
  | ValueError (what : string) (data : list Z).

Inductive result (A : Type) : Type :=
  | Ok (a : A)
  | Err (e : error).
Arguments Ok {A} a.
Arguments Err {A} e.

#[global] Instance result_ret : MRet result := λ A, Ok.
#[global] Instance result_bind : MBind result :=
  λ A B f m, match m with Ok a => f a | Err e => Err e end.
#[global] Instance result_fmap : FMap result :=
  λ A B f m, match m with Ok a => Ok (f a) | Err e => Err e end.

Section Sequences.
Context {A : Type}.

(** The position that the index [i] denotes in a sequence of length [len]:
    a negative index counts from the end. *)
Definition position (len : nat) (i : Z) : option nat :=
  let j := if decide (i < 0)%Z then (i + Z.of_nat len)%Z else i in
  if decide (0 ≤ j < Z.of_nat len)%Z then Some (Z.to_nat j) else None.

(** [l[i]] *)
Definition getitem (l : list A) (i : Z) : result A :=
  match position (length l) i with
  | Some k => match l !! k with Some x => Ok x | None => Err IndexError end
  | None => Err IndexError
  end.

(** [l[i] = v] *)
Definition setitem (l : list A) (i : Z) (v : A) : result (list A) :=
  match position (length l) i with
  | Some k => Ok (<[k := v]> l)
  | None => Err IndexError
  end.

(** The bound [n] of a slice, clamped into a sequence of length [len]. *)
Definition slice_bound (len : nat) (n : Z) : nat :=
  Z.to_nat (if decide (n < 0)%Z then Z.max 0 (n + Z.of_nat len)
            else Z.min n (Z.of_nat len)).

(** [l[:n]] and [l[n:]] *)
Definition upto (l : list A) (n : Z) : list A :=
  take (slice_bound (length l) n) l.
Definition from (l : list A) (n : Z) : list A :=
  drop (slice_bound (length l) n) l.

(** [sum(ns)] *)
Definition sum (ns : list Z) : Z := foldl Z.add 0%Z ns.

(** [sum(bs)] for booleans: the number of [True]s. *)
Definition count_true (bs : list bool) : nat :=
  foldl (λ n (b : bool), if b then S n else n) 0 bs.

(** [subvals(lst, replace)] *)
Fixpoint subvals (lst : list A) (replace : list (Z * A)) : result (list A) :=
  match replace with
  | [] => Ok lst
  | (i, v) :: replace => lst ← setitem lst i v; subvals lst replace
  end.

(** [split_list(args, ns)] *)
Fixpoint split_list (args : list A) (ns : list Z) : list (list A) :=
  match ns with
  | [] => [args]
  | n :: ns => upto args n :: split_list (from args n) ns
  end.

(** The loop of [split_list_checked]. *)
Fixpoint split_list_checked_loop (args : list A) (ns : list Z)
  : list (list A) :=
  match ns with
  | [] => []
  | n :: ns => upto args n :: split_list_checked_loop (from args n) ns
  end.

(** [split_list_checked(args, ns)] *)
Definition split_list_checked (args : list A) (ns : list Z)
  : result (list (list A)) :=
  if bool_decide (sum ns = Z.of_nat (length args))
     && forallb (λ n, bool_decide (0 ≤ n)%Z) ns
  then Ok (split_list_checked_loop args ns)
  else Err AssertionError.

(** [partition_list(bs, l)]: [lists[b].append(x)], [False] being 0. *)
Definition partition_list (bs : list bool) (l : list A)
  : result (list A * list A) :=
  if bool_decide (length bs = length l) then
    Ok (foldl (λ lists bx,
                 if bx.1 : bool then (lists.1, lists.2 ++ [bx.2])
                 else (lists.1 ++ [bx.2], lists.2))
          ([], []) (zip bs l))
  else Err AssertionError.

(** [next(it)] *)
Definition next (it : list A) : result (A * list A) :=
  match it with
  | [] => Err StopIteration
  | x :: it => Ok (x, it)
  end.

(** [[next(i1) if b else next(i0) for b in bs]], with the iterators as
    they are left. *)
Fixpoint merge_lists_loop (bs : list bool) (i0 i1 : list A)
  : result (list A * list A * list A) :=
  match bs with
  | [] => Ok ([], i0, i1)
  | b :: bs =>
      if b then
        '(x, i1) ← next i1;
        '(out, i0, i1) ← merge_lists_loop bs i0 i1;
        Ok (x :: out, i0, i1)
      else
        '(x, i0) ← next i0;
        '(out, i0, i1) ← merge_lists_loop bs i0 i1;
        Ok (x :: out, i0, i1)
  end.

(** [merge_lists(bs, l0, l1)] *)
Definition merge_lists (bs : list bool) (l0 l1 : list A) : result (list A) :=
  if bool_decide (count_true bs = length l1)
     && bool_decide (length bs - count_true bs = length l0)
  then
    '(out, i0, i1) ← merge_lists_loop bs l0 l1;
    match i0, i1 with
    | [], [] => Ok out
    | _, _ => Err AssertionError
    end
  else Err AssertionError.

(** [[src[i] if i is not None else next(base_) for i in subs]] *)
Fixpoint subs_list_loop (subs : list (option Z)) (src base_ : list A)
  : result (list A * list A) :=
  match subs with
  | [] => Ok ([], base_)
  | Some i :: subs =>
      x ← getitem src i;
      '(out, base_) ← subs_list_loop subs src base_;
      Ok (x :: out, base_)
  | None :: subs =>
      '(x, base_) ← next base_;
      '(out, base_) ← subs_list_loop subs src base_;
      Ok (x :: out, base_)
  end.

(** [subs_list(subs, src, base)] *)
Definition subs_list (subs : list (option Z)) (src base : list A)
  : result (list A) :=
  '(out, base_) ← subs_list_loop subs src base;
  match base_ with
  | [] => Ok out
  | _ :: _ => Err AssertionError
  end.

(** The comprehension of [subs_list2] over [zip(subs1, subs2)]. *)
Fixpoint subs_list2_loop (subs : list (option Z * option Z))
    (src1 src2 base_ : list A) : result (list A * list A) :=
  match subs with
  | [] => Ok ([], base_)
  | (Some f1, _) :: subs =>
      x ← getitem src1 f1;
      '(out, base_) ← subs_list2_loop subs src1 src2 base_;
      Ok (x :: out, base_)
  | (None, Some f2) :: subs =>
      x ← getitem src2 f2;
      '(out, base_) ← subs_list2_loop subs src1 src2 base_;
      Ok (x :: out, base_)
  | (None, None) :: subs =>
      '(x, base_) ← next base_;
      '(out, base_) ← subs_list2_loop subs src1 src2 base_;
      Ok (x :: out, base_)
  end.

(** [subs_list2(subs1, subs2, src1, src2, base)] *)
Definition subs_list2 (subs1 subs2 : list (option Z))
    (src1 src2 base : list A) : result (list A) :=
  if bool_decide (length subs1 = length subs2) then
    '(out, base_) ← subs_list2_loop (zip subs1 subs2) src1 src2 base;
    match base_ with
    | [] => Ok out
    | _ :: _ => Err AssertionError
    end
  else Err AssertionError.

(** [concatenate(xs)], also named [flatten]. *)
Definition concatenate (xs : list (list A)) : list A := concat xs.
Definition flatten : list (list A) → list A := concatenate.

(** [[next(xs_iter) for _ in range(n)]] *)
Fixpoint take_next (n : nat) (xs_iter : list A) : result (list A * list A) :=
  match n with
  | 0 => Ok ([], xs_iter)
  | S n =>
      '(x, xs_iter) ← next xs_iter;
      '(l, xs_iter) ← take_next n xs_iter;
      Ok (x :: l, xs_iter)
  end.

(** The outer comprehension of [unflatten]; [range(n)] is empty for a
    negative [n]. *)
Fixpoint unflatten_loop (xs_iter : list A) (ns : list Z)
  : result (list (list A) * list A) :=
  match ns with
  | [] => Ok ([], xs_iter)
  | n :: ns =>
      '(l, xs_iter) ← take_next (Z.to_nat n) xs_iter;
      '(ls, xs_iter) ← unflatten_loop xs_iter ns;
      Ok (l :: ls, xs_iter)
  end.

(** [unflatten(xs, ns)]; the elements are values other than the
    module's private end marker [_unflatten_done]. *)
Definition unflatten (xs : list A) (ns : list Z) : result (list (list A)) :=
  '(unflattened, xs_iter) ← unflatten_loop xs ns;
  match xs_iter with
  | [] => Ok unflattened
  | _ :: _ => Err AssertionError
  end.

(** The function [merge] that [split_merge] returns, for the [sides] it
    has computed: [new_lhs[0]] raises [IndexError] on an empty list. *)
Fixpoint merge (sides : list bool) (new_lhs new_rhs : list A)
  : result (list A) :=
  match sides with
  | [] =>
      match new_rhs, new_lhs with
      | [], [] => Ok []
      | _, _ => Err AssertionError
      end
  | s :: sides =>
      if s then
        x ← getitem new_lhs 0;
        out ← merge sides (from new_lhs 1) new_rhs;
        Ok (x :: out)
      else
        x ← getitem new_rhs 0;
        out ← merge sides new_lhs (from new_rhs 1);
        Ok (x :: out)
  end.

(** [split_merge(predicate, xs)] *)
Definition split_merge (predicate : A → bool) (xs : list A)
  : list A * list A * (list A → list A → result (list A)) :=
  let sides := predicate <$> xs in
  (fst <$> filter (λ xs, snd xs = true) (zip xs sides),
   fst <$> filter (λ xs, snd xs ≠ true) (zip xs sides),
   merge sides).

(** [tuple_insert(t, idx, val)] *)
Definition tuple_insert (t : list A) (idx : Z) (val : A) : result (list A) :=
  if bool_decide (0 ≤ idx ≤ Z.of_nat (length t))%Z
  then Ok (upto t idx ++ [val] ++ from t idx)
  else Err AssertionError.

(** [tuple_delete(t, idx)] *)
Definition tuple_delete (t : list A) (idx : Z) : result (list A) :=
  if bool_decide (0 ≤ idx < Z.of_nat (length t))%Z
  then Ok (upto t idx ++ from t (idx + 1))
  else Err AssertionError.

(** [tuple_update(t, idx, val)] *)
Definition tuple_update (t : list A) (idx : Z) (val : A) : result (list A) :=
  if bool_decide (0 ≤ idx < Z.of_nat (length t))%Z
  then Ok (upto t idx ++ [val] ++ from t (idx + 1))
  else Err AssertionError.

End Sequences.

(** [unzip2(xys)]: the loop appends to [xs] and [ys]. *)
Definition unzip2 {A B} (xys : list (A * B)) : list A * list B :=
  foldl (λ acc xy, (acc.1 ++ [xy.1], acc.2 ++ [xy.2])) ([], []) xys.

(** [unzip3(xyzs)] *)
Definition unzip3 {A B C} (xyzs : list (A * B * C))
  : list A * list B * list C :=
  foldl (λ acc xyz,
           (acc.1.1 ++ [xyz.1.1], acc.1.2 ++ [xyz.1.2], acc.2 ++ [xyz.2]))
    ([], [], []) xyzs.

(** [split_dict(dct, names)]: [dct.pop(name)] raises [KeyError] for a
    missing name. *)
Section SplitDict.
Context {K B : Type} `{EqDecision K}.

Fixpoint split_dict_loop (dct : list (K * B)) (names : list K)
  : result (list B * list (K * B)) :=
  match names with
  | [] => Ok ([], dct)
  | name :: names =>
      match dict_get name dct with
      | None => Err KeyError
      | Some v =>
          '(lst, dct) ← split_dict_loop (dict_del name dct) names;
          Ok (v :: lst, dct)
      end
  end.

Definition split_dict (dct : list (K * B)) (names : list K)
  : result (list B) :=
  '(lst, dct) ← split_dict_loop dct names;
  match dct with
  | [] => Ok lst
  | _ :: _ => Err AssertionError
  end.

(** [stable_unique(it)]: [dict.fromkeys(it).keys()]. *)
Definition fromkeys (it : list K) : list (K * unit) :=
  foldl (λ d k, dict_set k () d) [] it.
Definition stable_unique (it : list K) : list K := (fromkeys it).*1.
End SplitDict.

(** [canonicalize_axis(axis, num_dims)] *)
Definition canonicalize_axis (axis num_dims : Z) : result Z :=
  if negb (bool_decide (- num_dims ≤ axis < num_dims)%Z) then
    Err (ValueError "axis is out of bounds for array of dimension"
           [axis; num_dims])
  else if bool_decide (axis < 0)%Z then Ok (axis + num_dims)%Z
  else Ok axis.

(** The [axis] argument of [canonicalize_axis_tuple]. *)
Inductive axis_arg : Type :=
  | AxisNone
  | AxisSeq (axes : list Z)
  | AxisInt (axis : Z).

(** [tuple(canonicalize_axis(i, ndim) for i in axis)] *)
Fixpoint canonicalize_each (axes : list Z) (ndim : Z) : result (list Z) :=
  match axes with
  | [] => Ok []
  | i :: axes =>
      a ← canonicalize_axis i ndim;
      rest ← canonicalize_each axes ndim;
      Ok (a :: rest)
  end.

(** [tuple(range(ndim))] *)
Definition range (n : Z) : list Z := Z.of_nat <$> seq 0 (Z.to_nat n).

(** [canonicalize_axis_tuple(axis, ndim, allow_duplicate)];
    [len(set(axis)) != len(axis)] says that some axis is repeated. *)
Definition canonicalize_axis_tuple (axis : axis_arg) (ndim : Z)
    (allow_duplicate : bool) : result (list Z) :=
  match axis with
  | AxisNone => Ok (range ndim)
  | AxisSeq axes =>
      axes ← canonicalize_each axes ndim;
      if negb allow_duplicate
         && negb (bool_decide (length (remove_dups axes) = length axes))
      then Err (ValueError "repeated axis" axes)
      else Ok axes
  | AxisInt axis => a ← canonicalize_axis axis ndim; Ok [a]
  end.

(** [ceil_of_ratio(x, y)]: [-(-x // y)], [//] being floor division. *)
Definition ceil_of_ratio (x y : Z) : result Z :=
  if bool_decide (y = 0)%Z then Err ZeroDivisionError
  else Ok (- (- x / y))%Z.

(** *** OrderedSet *)
Section OrderedSet.
Context {T : Type} `{Countable T}.

Record OrderedSet : Type := MkOrderedSet {
  elts_set : gset T;
  elts_list : list T
}.

(** [OrderedSet()] *)
Definition OrderedSet__init__ : OrderedSet :=
  {| elts_set := ∅; elts_list := [] |}.

(** [self.add(elt)] *)
Definition add (self : OrderedSet) (elt : T) : OrderedSet :=
  if decide (elt ∉ elts_set self) then
    {| elts_set := elts_set self ∪ {[elt]};
       elts_list := elts_list self ++ [elt] |}
  else self.

(** [self.update(elts)] *)
Definition update (self : OrderedSet) (elts : list T) : OrderedSet :=
  foldl add self elts.

(** [iter(self)], [len(self)], [elt in self] *)
Definition OrderedSet__iter__ (self : OrderedSet) : list T := elts_list self.
Definition OrderedSet__len__ (self : OrderedSet) : nat :=
  length (elts_list self).
Definition OrderedSet__contains__ (self : OrderedSet) (elt : T) : bool :=
  bool_decide (elt ∈ elts_set self).
End OrderedSet.

End Lst.

(** ** HashablePartial and WrapKwArgs

    The values here are objects.  [item_eq a b] is the comparison that a
    tuple and a dict apply to their items when they are compared with
    [==]: [a is b or a == b].  [py_hash] is [hash], [None] when it raises.
    Keyword names are strings, ordered as Python orders [str]. *)

Module Partial.
Section HashablePartial.
Context {V Code : Type}.
Variable item_eq : V → V → bool.
Variable py_hash : V → option Z.
Variable code_eq : Code → Code → bool.
Variable code_hash : Code → Z.
Variable str_hash : string → Z.
(** The hash of a tuple, computed from the hashes of its items. *)
Variable tuple_hash : list Z → Z.

(** [a == b] for two tuples: the items are compared in order up to the
    first difference, the lengths if there is none. *)
Definition tuple_eq (a b : list V) : bool :=
  forallb (λ ab, item_eq ab.1 ab.2) (zip a b)
  && bool_decide (length a = length b).

(** [a == b] for two dicts: the same number of items, and every key of
    [a] is a key of [b] with an equal value. *)
Definition dict_eq (a b : list (string * V)) : bool :=
  bool_decide (length a = length b)
  && forallb (λ kv, match dict_get kv.1 b with
                    | Some bval => item_eq kv.2 bval
                    | None => false
                    end) a.

(** [hash(t)] for a tuple of objects. *)
Definition hash_items (t : list V) : option Z :=
  hs ← mapM py_hash t; Some (tuple_hash hs).

(** [hash(t)] for a tuple of pairs [(k, v)]. *)
Definition hash_pair (kv : string * V) : option Z :=
  h ← py_hash kv.2; Some (tuple_hash [str_hash kv.1; h]).
Definition hash_pairs (t : list (string * V)) : option Z :=
  hs ← mapM hash_pair t; Some (tuple_hash hs).

(** [sorted(items, key=lambda kv: kv[0])]: a stable sort by name.  The
    items of a dict have distinct names, so [sorted(items)], which orders
    the pairs themselves, never looks at a value and gives the same
    list. *)
Fixpoint insert_by_name (kv : string * V) (l : list (string * V))
  : list (string * V) :=
  match l with
  | [] => [kv]
  | kv' :: l' =>
      if String.leb kv.1 kv'.1 then kv :: l else kv' :: insert_by_name kv l'
  end.
Definition sorted_by_name (items : list (string * V)) : list (string * V) :=
  foldr insert_by_name [] items.

(** [HashablePartial.__init__(self, f, *args, **kwargs)] *)
Record HashablePartial : Type := HashablePartial__init__ {
  f : Wrappers.function (Code:=Code);
  args : list V;
  kwargs : list (string * V)
}.

(** [WrapKwArgs.__init__(self, val)], [val] being a dict of keyword
    arguments. *)
Record WrapKwArgs : Type := WrapKwArgs__init__ {
  val : list (string * V)
}.

(** What the [other] of [HashablePartial.__eq__] can be. *)
Inductive object : Type :=
  | OfHashablePartial (o : HashablePartial)
  | OfOther.

(** [HashablePartial.__eq__] *)
Definition HashablePartial__eq__ (self : HashablePartial) (other : object)
  : bool :=
  match other with
  | OfHashablePartial other =>
      code_eq (Wrappers.__code__ (f self)) (Wrappers.__code__ (f other))
      && tuple_eq (args self) (args other)
      && dict_eq (kwargs self) (kwargs other)
  | OfOther => false
  end.

(** [HashablePartial.__hash__]:
    [hash((self.f.__code__, self.args, kwargs))], [None] when an argument
    is unhashable. *)
Definition HashablePartial__hash__ (self : HashablePartial) : option Z :=
  let kwargs := sorted_by_name (kwargs self) in
  hargs ← hash_items (args self);
  hkwargs ← hash_pairs kwargs;
  Some (tuple_hash [code_hash (Wrappers.__code__ (f self)); hargs; hkwargs]).

(** [WrapKwArgs.__hash__] and [WrapKwArgs.__eq__], the latter between two
    instances. *)
Definition WrapKwArgs__hash__ (self : WrapKwArgs) : option Z :=
  hash_pairs (sorted_by_name (val self)).
Definition WrapKwArgs__eq__ (self other : WrapKwArgs) : bool :=
  dict_eq (val self) (val other).

End HashablePartial.

(** Sample hashes that depend on the order of the items, to run the
    definitions on. *)
Definition name_hash (s : string) : Z :=
  foldl (λ h c, (31 * h + Z.of_N (Ascii.N_of_ascii c))%Z) 7%Z
    (String.list_ascii_of_string s).
Definition ordered_hash (hs : list Z) : Z :=
  foldl (λ acc h, (31 * acc + h)%Z) 7%Z hs.
End Partial.

(** ** The cache on Python objects

    The definitions of [Functools] and [Util] above take the arguments of
    a call from a type of values that are all hashable and equal only to
    themselves.  This module drops both assumptions.  A value is an object
    with its type: [item_eq a b] is [a is b or a == b], the comparison
    that tuples, lists and dicts apply to their items, so that [1], [1.0]
    and [True] are three objects that compare equal; [py_hash] is [hash],
    which raises for an unhashable object; [is_fasttype a] is
    [type(a) in {int, str}], a test on the exact type.

    The key of a call is built as before ([_make_key]).  What changes is
    how keys are hashed and compared: a key is hashed before it is looked
    up, which fails with a [TypeError] for an unhashable argument, and the
    dict of the cache finds an entry when the hashes are equal and the
    stored key compares equal to the key looked up.  The separator
    [kwd_mark] is a private object of [functools]: it equals only itself.
    Python expects [==] to be an equivalence on the objects used as keys,
    with equal objects having equal hashes; then at most one stored key
    compares equal to the key looked up.  (For other objects the model
    takes the oldest such entry.)  The facts that need this contract state
    it as a hypothesis. *)

Module Objects.
Section LruCache.
Context {V X : Type}.
Variable item_eq : V → V → bool.
Variable py_hash : V → option Z.
Variable is_fasttype : V → bool.
(** [type(a).__name__], for the message of the [TypeError]. *)
Variable type_name : V → string.
(** The hash of a [str], of [kwd_mark]'s object, and of a tuple from the
    hashes of its items. *)
Variable str_hash : string → Z.
Variable mark_hash : Z.
Variable tuple_hash : list Z → Z.

(** [a == b] on the items of two keys. *)
Definition key_item_eq (a b : key_item V) : bool :=
  match a, b with
  | KVal v, KVal v' => item_eq v v'
  | KMark, KMark => true
  | KName name, KName name' => bool_decide (name = name')
  | _, _ => false
  end.

(** [a == b] on two keys.  A key of a fast type is an [int] or a [str],
    which equals no sequence; two sequences are equal when they have the
    same length and equal items. *)
Definition key_eq (a b : cache_key V) : bool :=
  match a, b with
  | KFast v, KFast v' => item_eq v v'
  | KHashedSeq items, KHashedSeq items' =>
      bool_decide (length items = length items')
      && forallb (λ ab, key_item_eq ab.1 ab.2) (zip items items')
  | _, _ => false
  end.

(** The hash of an item of a key, or the object whose hash raises. *)
Definition key_item_hash (a : key_item V) : V + Z :=
  match a with
  | KVal v => match py_hash v with Some h => inr h | None => inl v end
  | KMark => inr mark_hash
  | KName name => inr (str_hash name)
  end.

(** The hashes of the items of a tuple, in order, up to the first that
    raises. *)
Fixpoint items_hash (items : list (key_item V)) : V + list Z :=
  match items with
  | [] => inr []
  | a :: items =>
      match key_item_hash a with
      | inl v => inl v
      | inr h =>
          match items_hash items with
          | inl v => inl v
          | inr hs => inr (h :: hs)
          end
      end
  end.

(** [hash(key)]: [_HashedSeq] computes the hash of its tuple when the key
    is made. *)
Definition key_hash (key : cache_key V) : V + Z :=
  match key with
  | KFast v => key_item_hash (KVal v)
  | KHashedSeq items =>
      match items_hash items with
      | inl v => inl v
      | inr hs => inr (tuple_hash hs)
      end
  end.

(** The [TypeError] of hashing the object [v]. *)
Definition unhashable (v : V) : exception X :=
  TypeError ("unhashable type: '" +:+ type_name v +:+ "'").

(** Whether the dict takes the stored key for the key looked up. *)
Definition matches (stored key : cache_key V) : bool :=
  match key_hash stored, key_hash key with
  | inr h, inr h' => bool_decide (h = h') && key_eq stored key
  | _, _ => false
  end.

(** [cache.get(key)] *)
Fixpoint cache_get (key : cache_key V) (d : list (cache_key V * V))
  : option V :=
  match d with
  | [] => None
  | (k, v) :: d => if matches k key then Some v else cache_get key d
  end.

(** The item that [cache.get(key)] finds, with the key it was stored
    under. *)
Fixpoint cache_find (key : cache_key V) (d : list (cache_key V * V))
  : option (cache_key V * V) :=
  match d with
  | [] => None
  | (k, v) :: d => if matches k key then Some (k, v) else cache_find key d
  end.

(** The dict without the item of [key]. *)
Fixpoint cache_del (key : cache_key V) (d : list (cache_key V * V))
  : list (cache_key V * V) :=
  match d with
  | [] => []
  | (k, v) :: d =>
      if matches k key then cache_del key d else (k, v) :: cache_del key d
  end.

(** [cache[key] = value]: an item that is there keeps its key and its
    place. *)
Fixpoint cache_set (key : cache_key V) (value : V)
    (d : list (cache_key V * V)) : list (cache_key V * V) :=
  match d with
  | [] => [(key, value)]
  | (k, v) :: d =>
      if matches k key then (k, value) :: d
      else (k, v) :: cache_set key value d
  end.

(** [maxsize == 0]: no key is made. *)
Definition uncached_wrapper (user_function : ufun V X)
    (args : list V) (kwds : kwargs V) (st : lru_state V) (w : log V)
  : outcome V X * lru_state V * log V :=
  let st := {| entries := entries st; hits := hits st;
               misses := S (misses st); full := full st |} in
  let '(result, w) := user_function args kwds w in
  (result, st, w).

(** [maxsize is None] *)
Definition unbounded_wrapper (user_function : ufun V X)
    (args : list V) (kwds : kwargs V) (st : lru_state V) (w : log V)
  : outcome V X * lru_state V * log V :=
  let key := _make_key is_fasttype args kwds in
  match key_hash key with
  | inl v => (Raise (unhashable v), st, w)
  | inr _ =>
      match cache_get key (entries st) with
      | Some result =>
          (Return result,
           {| entries := entries st; hits := S (hits st);
              misses := misses st; full := full st |}, w)
      | None =>
          let st := {| entries := entries st; hits := hits st;
                       misses := S (misses st); full := full st |} in
          match user_function args kwds w with
          | (Raise e, w) => (Raise e, st, w)
          | (Return result, w) =>
              (Return result,
               {| entries := cache_set key result (entries st);
                  hits := hits st; misses := misses st; full := full st |},
               w)
          end
      end
  end.

(** The size-limited wrapper.  On a hit the link that was found, with the
    key it holds, moves to the front of the queue. *)
Definition bounded_wrapper (maxsize : nat) (user_function : ufun V X)
    (args : list V) (kwds : kwargs V) (st : lru_state V) (w : log V)
  : outcome V X * lru_state V * log V :=
  let key := _make_key is_fasttype args kwds in
  match key_hash key with
  | inl v => (Raise (unhashable v), st, w)
  | inr _ =>
      match cache_find key (entries st) with
      | Some link =>
          (Return link.2,
           {| entries := cache_del key (entries st) ++ [link];
              hits := S (hits st); misses := misses st; full := full st |},
           w)
      | None =>
          let st := {| entries := entries st; hits := hits st;
                       misses := S (misses st); full := full st |} in
          match user_function args kwds w with
          | (Raise e, w) => (Raise e, st, w)
          | (Return result, w) =>
              match cache_get key (entries st) with
              | Some _ => (Return result, st, w)
              | None =>
                  if full st then
                    (Return result,
                     {| entries := tail (entries st) ++ [(key, result)];
                        hits := hits st; misses := misses st;
                        full := true |}, w)
                  else
                    let es := entries st ++ [(key, result)] in
                    (Return result,
                     {| entries := es; hits := hits st; misses := misses st;
                        full := bool_decide (maxsize ≤ length es) |}, w)
              end
          end
      end
  end.

(** [_lru_cache_wrapper(user_function, maxsize, typed, _CacheInfo)] *)
Definition _lru_cache_wrapper (maxsize : option nat)
  : ufun V X → list V → kwargs V → lru_state V → log V
    → outcome V X * lru_state V * log V :=
  match maxsize with
  | Some 0 => uncached_wrapper
  | None => unbounded_wrapper
  | Some n => bounded_wrapper n
  end.

(** A call of the function object that [cache] returns, in the ambient
    configuration [cfg]. *)
Definition wrapper (c : cache_fn) (cfg : config)
    (args : list V) (kw : kwargs V) (st : lru_state V) (w : log V)
  : outcome V X * lru_state V * log V :=
  if trace_context_in_key c then
    if check_tracer_leaks cfg then
      let '(result, w) := invoke (wrapped c) args kw w in (result, st, w)
    else
      _lru_cache_wrapper (maxsize c) (cached (wrapped c))
        (trace_context cfg :: args) kw st w
  else
    _lru_cache_wrapper (maxsize c) (invoke (wrapped c)) args kw st w.

(** A sequence of calls, and the states a cache goes through. *)
Fixpoint run (c : cache_fn) (cs : list call) (st : lru_state V) (w : log V)
  : list (outcome V X) * lru_state V * log V :=
  match cs with
  | [] => ([], st, w)
  | x :: cs =>
      let '(r, st, w) :=
        wrapper c (call_cfg x) (call_args x) (call_kwargs x) st w in
      let '(rs, st, w) := run c cs st w in
      (r :: rs, st, w)
  end.

Inductive reachable (c : cache_fn) : lru_state V → Prop :=
  | reachable_new : reachable c lru_new
  | reachable_call cfg args kw st w :
      reachable c st → reachable c (wrapper c cfg args kw st w).1.2
  | reachable_clear st :
      reachable c st → reachable c (cache_clear st).

(** The ways a call can go, with what it returns and leaves behind:
    bypassed; failing to hash its key; served from the cache; failing to
    bind its keywords; failing in the wrapped function; computed with
    nothing stored (capacity zero); computed and stored. *)
Inductive step (c : cache_fn) (cfg : config) (args : list V) (kw : kwargs V)
    (st : lru_state V) (w : log V)
  : outcome V X * lru_state V * log V → Prop :=
  | step_bypass :
      bypassed c cfg = true →
      step c cfg args kw st w (wrapped c args kw, st, w ++ [(args, kw)])
  | step_unhashable v :
      bypassed c cfg = false →
      maxsize c ≠ Some 0 →
      key_hash (key_of is_fasttype c cfg args kw) = inl v →
      step c cfg args kw st w (Raise (unhashable v), st, w)
  | step_hit h k v :
      bypassed c cfg = false →
      maxsize c ≠ Some 0 →
      key_hash (key_of is_fasttype c cfg args kw) = inr h →
      cache_find (key_of is_fasttype c cfg args kw) (entries st)
      = Some (k, v) →
      step c cfg args kw st w
        (Return v,
         {| entries :=
              match maxsize c with
              | None => entries st
              | Some _ =>
                  cache_del (key_of is_fasttype c cfg args kw) (entries st)
                  ++ [(k, v)]
              end;
            hits := S (hits st); misses := misses st; full := full st |},
         w)
  | step_unbound :
      bypassed c cfg = false →
      maxsize c = Some 0
      ∨ (∃ h, key_hash (key_of is_fasttype c cfg args kw) = inr h)
        ∧ cache_get (key_of is_fasttype c cfg args kw) (entries st) = None →
      ¬ binds c kw →
      step c cfg args kw st w
        (Raise (TypeError "cached() got multiple values for argument '_'"),
         missed st, w)
  | step_raise e :
      bypassed c cfg = false →
      maxsize c = Some 0
      ∨ (∃ h, key_hash (key_of is_fasttype c cfg args kw) = inr h)
        ∧ cache_get (key_of is_fasttype c cfg args kw) (entries st) = None →
      binds c kw →
      wrapped c args kw = Raise e →
      step c cfg args kw st w (Raise e, missed st, w ++ [(args, kw)])
  | step_uncached v :
      bypassed c cfg = false →
      maxsize c = Some 0 →
      binds c kw →
      wrapped c args kw = Return v →
      step c cfg args kw st w (Return v, missed st, w ++ [(args, kw)])
  | step_store h v :
      bypassed c cfg = false →
      maxsize c ≠ Some 0 →
      key_hash (key_of is_fasttype c cfg args kw) = inr h →
      cache_get (key_of is_fasttype c cfg args kw) (entries st) = None →
      binds c kw →
      wrapped c args kw = Return v →
      step c cfg args kw st w
        (Return v,
         {| entries :=
              match maxsize c with
              | Some _ => if full st then tail (entries st) else entries st
              | None => entries st
              end ++ [(key_of is_fasttype c cfg args kw, v)];
            hits := hits st; misses := S (misses st);
            full :=
              match maxsize c with
              | Some n => full st || bool_decide (n ≤ S (length (entries st)))
              | None => full st
              end |},
         w ++ [(args, kw)]).

(** Whether a key is a single object of a fast type. *)
Definition fast_key (key : cache_key V) : bool :=
  match key with KFast _ => true | KHashedSeq _ => false end.

(** Whether a call moves one of the two counters: it is not bypassed, and
    its key can be hashed or, the capacity being zero, is not made. *)
Definition counted (c : cache_fn (V:=V) (X:=X)) (x : call) : bool :=
  negb (bypassed c (call_cfg x))
  && (bool_decide (maxsize c = Some 0)
      || match key_hash (call_key is_fasttype c x) with
         | inl _ => false
         | inr _ => true
         end).

(** The wrapped function cannot tell apart two calls whose keys are
    equal. *)
Definition respects (c : cache_fn (V:=V) (X:=X)) : Prop :=
  ∀ cfg args kw cfg' args' kw',
    key_eq (key_of is_fasttype c cfg args kw)
           (key_of is_fasttype c cfg' args' kw') = true →
    wrapped c args kw = wrapped c args' kw'.
End LruCache.

(** *** Sample objects *)

Inductive obj : Type :=
  | Int (n : Z)
  | Float (n : Z)
  | Bool (b : bool)
  | Str (s : string)
  | List (items : list Z).

(** The number that an [int], a [float] with an integral value or a
    [bool] stands for. *)
Definition number (a : obj) : option Z :=
  match a with
  | Int n | Float n => Some n
  | Bool b => Some (if b then 1 else 0)%Z
  | Str _ | List _ => None
  end.

Definition obj_eq (a b : obj) : bool :=
  match a, b with
  | Str s, Str t => bool_decide (s = t)
  | List l, List k => bool_decide (l = k)
  | _, _ =>
      match number a, number b with
      | Some n, Some m => bool_decide (n = m)
      | _, _ => false
      end
  end.

Definition obj_str_hash (s : string) : Z :=
  foldl (λ h c, (31 * h + Z.of_N (Ascii.N_of_ascii c))%Z) 7%Z
    (String.list_ascii_of_string s).

Definition obj_hash (a : obj) : option Z :=
  match a with
  | Str s => Some (obj_str_hash s)
  | List _ => None
  | _ => number a
  end.

Definition obj_is_fasttype (a : obj) : bool :=
  match a with Int _ | Str _ => true | _ => false end.

Definition obj_type_name (a : obj) : string :=
  match a with
  | Int _ => "int"
  | Float _ => "float"
  | Bool _ => "bool"
  | Str _ => "str"
  | List _ => "list"
  end.

Definition obj_tuple_hash (hs : list Z) : Z :=
  foldl (λ acc h, (31 * acc + h)%Z) 7%Z hs.

(** [def total( *args, **kwargs):
       return int(sum(args) + sum(kwargs.values()))],
    which fails on an argument that is not a number. *)
Definition total : pyfun obj string :=
  λ args kw,
    match mapM number (args ++ kw.*2) with
    | Some ns => Return (Int (foldr Z.add 0%Z ns))
    | None => Raise (Raised "unsupported operand")
    end.

(** [def kind(x): return type(x).__name__] *)
Definition kind : pyfun obj string :=
  λ args kw,
    match args, kw with
    | [a], [] => Return (Str (obj_type_name a))
    | _, _ => Raise (TypeError "kind() takes exactly one argument")
    end.

Definition leaks_off (ctx : obj) : config (V:=obj) := Config false ctx.
Definition leaks_on (ctx : obj) : config (V:=obj) := Config true ctx.

(** The hash of [kwd_mark]. *)
Definition obj_mark_hash : Z := (-1)%Z.

(** Calls on the sample objects. *)
Definition obj_key_eq : cache_key obj → cache_key obj → bool :=
  key_eq obj_eq.

Definition obj_key_hash : cache_key obj → obj + Z :=
  key_hash obj_hash obj_str_hash obj_mark_hash obj_tuple_hash.

Definition obj_wrapper
  : cache_fn (V:=obj) (X:=string) → config (V:=obj) → list obj → kwargs obj
    → lru_state obj → log obj → outcome obj string * lru_state obj * log obj :=
  wrapper obj_eq obj_hash obj_is_fasttype obj_type_name obj_str_hash
    obj_mark_hash obj_tuple_hash.

Definition obj_run
  : cache_fn (V:=obj) (X:=string) → list (call (V:=obj)) → lru_state obj
    → log obj → list (outcome obj string) * lru_state obj * log obj :=
  run obj_eq obj_hash obj_is_fasttype obj_type_name obj_str_hash
    obj_mark_hash obj_tuple_hash.
End Objects.

(** ** Facts about dicts *)

Section DictFacts.
Context {K A : Type} `{EqDecision K}.
Implicit Types (d : list (K * A)) (k : K) (v : A).

Lemma dict_get_None k d : dict_get k d = None ↔ k ∉ d.*1.
Proof.
  induction d as [|[k' v'] d IH]; simpl.
  - split; [intros _; apply not_elem_of_nil | done].
  - rewrite not_elem_of_cons. case_decide; naive_solver.
Qed.

Lemma dict_get_Some_elem k v d : dict_get k d = Some v → (k, v) ∈ d.
Proof.
  induction d as [|[k' v'] d IH]; simpl; [done|].
  case_decide; intros; simplify_eq; [left | right; auto].
Qed.

Lemma dict_get_app k d1 d2 :
  dict_get k (d1 ++ d2)
  = match dict_get k d1 with Some v => Some v | None => dict_get k d2 end.
Proof.
  induction d1 as [|[k' v'] d1 IH]; simpl; [done|]. by case_decide.
Qed.

Lemma dict_get_snoc_eq k v d :
  dict_get k d = None → dict_get k (d ++ [(k, v)]) = Some v.
Proof.
  intros Hd. rewrite dict_get_app, Hd. simpl. by rewrite decide_True.
Qed.

Lemma dict_get_snoc_ne k k' v d :
  k' ≠ k → dict_get k' (d ++ [(k, v)]) = dict_get k' d.
Proof.
  intros Hne. rewrite dict_get_app. simpl. rewrite decide_False by done.
  by destruct (dict_get k' d).
Qed.

Lemma dict_del_get_eq k d : dict_get k (dict_del k d) = None.
Proof.
  induction d as [|[k' v'] d IH]; simpl; [done|].
  case_decide; simpl; [done|]. by rewrite decide_False.
Qed.

Lemma dict_del_get_ne k k' d :
  k' ≠ k → dict_get k' (dict_del k d) = dict_get k' d.
Proof.
  intros Hne. induction d as [|[k1 v1] d IH]; simpl; [done|].
  case_decide; simpl; subst.
  - by rewrite decide_False.
  - by rewrite IH.
Qed.

Lemma dict_del_absent k d : dict_get k d = None → dict_del k d = d.
Proof.
  induction d as [|[k' v'] d IH]; simpl; [done|].
  case_decide; [done|]. intros Hd. by rewrite IH.
Qed.

Lemma dict_del_keys_subseteq k d : (dict_del k d).*1 ⊆ d.*1.
Proof.
  induction d as [|[k' v'] d IH]; simpl; [done|].
  case_decide; simpl; set_solver.
Qed.

Lemma dict_set_get_eq k v d : dict_get k (dict_set k v d) = Some v.
Proof.
  induction d as [|[k' v'] d IH]; simpl.
  - by rewrite decide_True.
  - case_decide; simpl; subst.
    + by rewrite decide_True.
    + by rewrite decide_False.
Qed.

Lemma dict_set_get_ne k k' v d :
  k' ≠ k → dict_get k' (dict_set k v d) = dict_get k' d.
Proof.
  intros Hne. induction d as [|[k1 v1] d IH]; simpl.
  - by rewrite decide_False.
  - case_decide; simpl; subst.
    + by rewrite !decide_False.
    + by rewrite IH.
Qed.

Lemma dict_set_absent k v d :
  dict_get k d = None → dict_set k v d = d ++ [(k, v)].
Proof.
  induction d as [|[k' v'] d IH]; simpl; [done|].
  case_decide; [done|]. intros Hd. by rewrite IH.
Qed.

Lemma dict_get_tail_None k d : dict_get k d = None → dict_get k (tail d) = None.
Proof.
  destruct d as [|[k' v'] d]; simpl; [done|]. by case_decide.
Qed.
End DictFacts.

(** ** Facts about keys *)

Section KeyFacts.
Context {V : Type} `{EqDecision V}.
Variable is_fasttype : V → bool.

Lemma _make_key_tuple (args : list V) (kwds : kwargs V) :
  _make_key is_fasttype args kwds = KHashedSeq (key_tuple args kwds)
  ∨ ∃ v, _make_key is_fasttype args kwds = KFast v
         ∧ key_tuple args kwds = [KVal v].
Proof.
  unfold _make_key, key_tuple.
  destruct kwds as [|kv kwds].
  - rewrite app_nil_r.
    destruct args as [|a [|b args]]; simpl; eauto.
    destruct (is_fasttype a); eauto.
  - destruct args as [|a [|b args]]; simpl; eauto.
Qed.

Lemma kwd_items_inj (k1 k2 : kwargs V) :
  kwd_items k1 = kwd_items k2 → k1 = k2.
Proof.
  revert k2. induction k1 as [|[n v] k1 IH]; intros [|[n' v'] k2]; simpl;
    intros Heq; simplify_eq; [done|]. f_equal. by apply IH.
Qed.

Lemma key_tuple_inj (args1 args2 : list V) (kw1 kw2 : kwargs V) :
  key_tuple args1 kw1 = key_tuple args2 kw2 → args1 = args2 ∧ kw1 = kw2.
Proof.
  unfold key_tuple. revert args2.
  induction args1 as [|a args1 IH]; intros [|b args2]; simpl; intros Heq.
  - split; [done|].
    destruct kw1 as [|[n1 v1] kw1], kw2 as [|[n2 v2] kw2];
      simplify_eq/=; [done|].
    f_equal. by apply kwd_items_inj.
  - destruct kw1; simplify_eq.
  - destruct kw2; simplify_eq.
  - simplify_eq. destruct (IH args2) as [-> ->]; done.
Qed.

(** Two calls build the same key exactly when they pass the same
    positional arguments and the same keywords in the same order. *)
Lemma _make_key_inj (args1 args2 : list V) (kw1 kw2 : kwargs V) :
  _make_key is_fasttype args1 kw1 = _make_key is_fasttype args2 kw2
  ↔ args1 = args2 ∧ kw1 = kw2.
Proof.
  split; [|by intros [-> ->]].
  intros Heq. apply key_tuple_inj.
  destruct (_make_key_tuple args1 kw1) as [H1|(v1 & H1 & ->)],
           (_make_key_tuple args2 kw2) as [H2|(v2 & H2 & ->)];
    rewrite H1, H2 in Heq; congruence.
Qed.
End KeyFacts.

(** ** One call through [functools.lru_cache] *)

Section LruFacts.
Context {V X : Type} `{EqDecision V}.
Variable is_fasttype : V → bool.
Implicit Types (st : lru_state V) (u : ufun V X) (w : log V).
Implicit Types (args : list V) (kw : kwargs V) (m : option nat).

(** A hit: the stored value comes back, the function does not run. *)
Lemma lru_hit m u args kw st w v :
  m ≠ Some 0 →
  dict_get (_make_key is_fasttype args kw) (entries st) = Some v →
  _lru_cache_wrapper is_fasttype m u args kw st w
  = (Return v,
     {| entries :=
          match m with
          | None => entries st
          | Some _ =>
              dict_del (_make_key is_fasttype args kw) (entries st)
              ++ [(_make_key is_fasttype args kw, v)]
          end;
        hits := S (hits st); misses := misses st; full := full st |},
     w).
Proof.
  intros Hm Hget. destruct m as [[|n]|]; [done| |]; simpl.
  - unfold bounded_wrapper. by rewrite Hget.
  - unfold unbounded_wrapper. by rewrite Hget.
Qed.

(** A miss on which the function raises: only the miss is counted. *)
Lemma lru_raise m u args kw st w e w' :
  m = Some 0 ∨ dict_get (_make_key is_fasttype args kw) (entries st) = None →
  u args kw w = (Raise e, w') →
  _lru_cache_wrapper is_fasttype m u args kw st w
  = (Raise e,
     {| entries := entries st; hits := hits st;
        misses := S (misses st); full := full st |},
     w').
Proof.
  intros Hm Hu. destruct m as [[|n]|]; simpl.
  - unfold uncached_wrapper. by rewrite Hu.
  - destruct Hm as [|Hget]; [done|].
    unfold bounded_wrapper. simpl. by rewrite Hget, Hu.
  - destruct Hm as [|Hget]; [done|].
    unfold unbounded_wrapper. simpl. by rewrite Hget, Hu.
Qed.

(** With [maxsize == 0] nothing is ever stored. *)
Lemma lru_uncached u args kw st w :
  _lru_cache_wrapper is_fasttype (Some 0) u args kw st w
  = ((u args kw w).1,
     {| entries := entries st; hits := hits st;
        misses := S (misses st); full := full st |},
     (u args kw w).2).
Proof. simpl. unfold uncached_wrapper. by destruct (u args kw w). Qed.

(** A miss on which the function returns: the result is stored as the
    most recent entry, in place of the oldest one if the cache is full. *)
Lemma lru_store m u args kw st w v w' :
  m ≠ Some 0 →
  dict_get (_make_key is_fasttype args kw) (entries st) = None →
  u args kw w = (Return v, w') →
  _lru_cache_wrapper is_fasttype m u args kw st w
  = (Return v,
     {| entries :=
          match m with
          | Some _ => if full st then tail (entries st) else entries st
          | None => entries st
          end ++ [(_make_key is_fasttype args kw, v)];
        hits := hits st; misses := S (misses st);
        full :=
          match m with
          | Some n =>
              full st || bool_decide (n ≤ S (length (entries st)))
          | None => full st
          end |},
     w').
Proof.
  intros Hm Hget Hu. destruct m as [[|n]|]; [done| |]; simpl.
  - unfold bounded_wrapper. simpl. rewrite Hget, Hu.
    destruct (full st); simpl; [done|].
    by rewrite length_app, Nat.add_1_r.
  - unfold unbounded_wrapper. simpl. rewrite Hget, Hu.
    by rewrite dict_set_absent.
Qed.
End LruFacts.

(** ** One call of a function decorated with [cache] *)

Section WrapperFacts.
Context {V X : Type} `{EqDecision V}.
Variable is_fasttype : V → bool.
Implicit Types (c : cache_fn (V:=V) (X:=X)) (cfg : config (V:=V)).
Implicit Types (st : lru_state V) (w : log V).
Implicit Types (args : list V) (kw : kwargs V).

(** Every [cache_fn] is the result of a decoration. *)
Lemma cache_fn_decorated c :
  ∃ max_size,
    cache max_size (trace_context_in_key c) (wrapped c) = inr c.
Proof.
  destruct c as [[n|] tc g].
  - exists (MaxInt (Z.of_nat n)). unfold cache. simpl.
    rewrite decide_False by lia. by rewrite Nat2Z.id.
  - by exists MaxNone.
Qed.

Lemma key_of_lookup_args c cfg args kw :
  key_of is_fasttype c cfg args kw
  = _make_key is_fasttype (lookup_args c cfg args) kw.
Proof. unfold key_of, lookup_args. by destruct (trace_context_in_key c). Qed.

(** The key determines the arguments, and the trace context when it is
    part of the key. *)
Lemma key_of_inj c cfg1 args1 kw1 cfg2 args2 kw2 :
  key_of is_fasttype c cfg1 args1 kw1 = key_of is_fasttype c cfg2 args2 kw2
  ↔ (trace_context_in_key c = true → trace_context cfg1 = trace_context cfg2)
    ∧ args1 = args2 ∧ kw1 = kw2.
Proof.
  unfold key_of. destruct (trace_context_in_key c); rewrite _make_key_inj.
  - split.
    + intros [Heq ->]. by simplify_eq.
    + intros (Hctx & -> & ->). by rewrite Hctx.
  - split; [by intros [-> ->] | by intros (_ & -> & ->)].
Qed.

Lemma wrapper_bypassed c cfg args kw st w :
  bypassed c cfg = true →
  wrapper is_fasttype c cfg args kw st w
  = (wrapped c args kw, st, w ++ [(args, kw)]).
Proof.
  unfold bypassed, wrapper. intros Hb.
  apply andb_prop in Hb as [-> ->]. done.
Qed.

Lemma wrapper_lookup c cfg args kw st w :
  bypassed c cfg = false →
  wrapper is_fasttype c cfg args kw st w
  = _lru_cache_wrapper is_fasttype (maxsize c) (body c)
      (lookup_args c cfg args) kw st w.
Proof.
  unfold bypassed, wrapper, body, lookup_args.
  destruct (trace_context_in_key c); simpl; [|done]. by intros ->.
Qed.

(** When the keywords can be bound, the function that runs on a miss is
    the wrapped function on the caller's arguments. *)
Lemma body_invokes c cfg args kw w :
  binds c kw →
  body c (lookup_args c cfg args) kw w
  = (wrapped c args kw, w ++ [(args, kw)]).
Proof.
  unfold binds, body, lookup_args.
  destruct (trace_context_in_key c); simpl; [|done].
  intros Hb. by rewrite decide_False by auto.
Qed.

(** When they cannot, the wrapped function is not reached. *)
Lemma body_unbound c cfg args kw w :
  ¬ binds c kw →
  body c (lookup_args c cfg args) kw w
  = (Raise (TypeError "cached() got multiple values for argument '_'"), w).
Proof.
  unfold binds, body, lookup_args.
  destruct (trace_context_in_key c); simpl; [|by intros []].
  intros Hb. rewrite decide_True; [done|].
  destruct (decide ("_" ∈ kw.*1)); [done|]. by destruct Hb.
Qed.
End WrapperFacts.

(** ** Stored values, the leak-check bypass and the lookup key *)

Section CallFacts.
Context {V X : Type} `{EqDecision V}.
Variable is_fasttype : V → bool.
Implicit Types (c : cache_fn (V:=V) (X:=X)) (cfg : config (V:=V)).
Implicit Types (st : lru_state V) (w : log V).
Implicit Types (args : list V) (kw : kwargs V).

(** A call that went through the cache and returned has left its value
    under its key, unless the capacity is zero. *)
Lemma returned_is_stored c cfg args kw st w v st1 w1 :
  bypassed c cfg = false →
  maxsize c ≠ Some 0 →
  wrapper is_fasttype c cfg args kw st w = (Return v, st1, w1) →
  dict_get (key_of is_fasttype c cfg args kw) (entries st1) = Some v.
Proof.
  intros Hb Hm. rewrite wrapper_lookup, key_of_lookup_args by done.
  set (k := _make_key is_fasttype (lookup_args c cfg args) kw).
  destruct (dict_get k (entries st)) as [v0|] eqn:Hget.
  - rewrite (lru_hit _ _ _ _ _ _ _ v0) by done.
    intros [= <- <- <-]. simpl. destruct (maxsize c); [|done].
    apply dict_get_snoc_eq, dict_del_get_eq.
  - destruct (body c (lookup_args c cfg args) kw w) as [[v'|e] w'] eqn:Hu.
    + rewrite (lru_store _ _ _ _ _ _ _ v' w') by done.
      intros [= <- <- <-]. simpl. apply dict_get_snoc_eq.
      destruct (maxsize c); [|done].
      destruct (full st); [by apply dict_get_tail_None | done].
    + rewrite (lru_raise _ _ _ _ _ _ _ e w') by auto. done.
Qed.

End CallFacts.

(** C1 as stated fails for [trace_context_in_key=False]: with the flag set,
    the call still stores an entry and counts a miss. *)
Lemma bypass_absent_without_trace_context :
  ∃ c st,
    cache (MaxInt 4096) false Sample.total = inr c
    ∧ check_tracer_leaks Sample.leaks_on = true
    ∧ wrapper Sample.is_int c Sample.leaks_on [1%Z] [] lru_new []
      = (Return 1%Z, st, [([1%Z], [])])
    ∧ entries st = [(KFast 1%Z, 1%Z)]
    ∧ entries st ≠ entries lru_new
    ∧ misses st ≠ misses (lru_new (V:=Z)).
Proof.
  eexists _, _. split; [reflexivity|]. split; [reflexivity|].
  split; [reflexivity|]. split; [reflexivity|]. split; discriminate.
Qed.

(** C2 as stated fails: [f(x=1, y=2)] and [f(y=2, x=1)] pass equal
    mappings, yet their keys differ, the second call is a miss and the
    wrapped function runs twice. *)
Lemma keyword_order_separates_entries :
  let kw1 := [("x", 1%Z); ("y", 2%Z)] in
  let kw2 := [("y", 2%Z); ("x", 1%Z)] in
  ∃ c st,
    cache (MaxInt 4096) true Sample.total = inr c
    ∧ (list_to_map kw1 : gmap string Z) = list_to_map kw2
    ∧ key_of Sample.is_int c Sample.leaks_off [] kw1
      ≠ key_of Sample.is_int c Sample.leaks_off [] kw2
    ∧ run Sample.is_int c
        [Call Sample.leaks_off [] kw1; Call Sample.leaks_off [] kw2]
        lru_new []
      = ([Return 3%Z; Return 3%Z], st, [([], kw1); ([], kw2)])
    ∧ hits st = 0 ∧ misses st = 2.
Proof.
  intros kw1 kw2. eexists _, _. split; [reflexivity|].
  split; [|split; [|split; [reflexivity|split; reflexivity]]].
  - apply map_eq. intros k. unfold kw1, kw2. simpl.
    destruct (decide (k = "x")) as [->|Hx]; [done|].
    destruct (decide (k = "y")) as [->|Hy]; [done|].
    by rewrite !lookup_insert_ne.
  - discriminate.
Qed.

(** ** The capacity argument *)

Section CapacityFacts.
Context {V X W : Type} `{EqDecision V}.
Variable is_fasttype : V → bool.

(** With capacity zero no call stores anything. *)
Lemma zero_capacity_stores_nothing (c : cache_fn (V:=V) (X:=X))
    cfg args kw st w :
  maxsize c = Some 0 →
  entries (wrapper is_fasttype c cfg args kw st w).1.2 = entries st.
Proof.
  intros Hm. destruct (bypassed c cfg) eqn:Hb.
  - by rewrite wrapper_bypassed.
  - rewrite wrapper_lookup, Hm by done. by rewrite lru_uncached.
Qed.

(** C7 (amended).  A negative [max_size] is not an error: the decorator
    accepts it, and the function it returns has capacity zero, so that no
    call ever stores an entry.  What [cache] rejects is a [max_size] that
    is neither an integer nor [None] (nor a callable): applying the
    decorator to a function then raises [TypeError] and no wrapper is
    produced or registered. *)
Theorem capacity_checked_by_lru_cache (tc : bool) (f : pyfun V X)
    (str_f : string) (m : memory (V:=V) (X:=X) (W:=W)) :
  (∀ n, (n < 0)%Z →
     cache (MaxInt n) tc f = inr (CacheFn (Some 0) tc f)
     ∧ (∃ h m', decorate (MaxInt n) tc f str_f m = inr (h, m')
                ∧ heap m' !! h
                  = Some (LruCached (CacheFn (Some 0) tc f) lru_new)
                ∧ _caches m' !! h = Some str_f)
     ∧ ∀ cfg args kw st w,
         entries (wrapper is_fasttype (CacheFn (Some 0) tc f)
                    cfg args kw st w).1.2
         = entries st)
  ∧ (∃ msg, cache MaxOther tc f = inl (TypeError msg)
            ∧ decorate MaxOther tc f str_f m = inl (TypeError msg)).
Proof.
  split.
  - intros n Hn.
    assert (cache (MaxInt n) tc f = inr (CacheFn (Some 0) tc f)) as Hc.
    { unfold cache. simpl. by rewrite decide_True. }
    split; [done|]. split.
    + unfold decorate. rewrite Hc. eexists _, _. split; [done|]. simpl.
      split; by rewrite lookup_insert_eq.
    + intros. by apply zero_capacity_stores_nothing.
  - eexists. split; reflexivity.
Qed.
End CapacityFacts.

(** C7 at [max_size=-1]. *)
Lemma capacity_checked_by_lru_cache_witness :
  cache (X:=string) (MaxInt (-1)) true Sample.total
  = inr (CacheFn (Some 0) true Sample.total).
Proof.
  destruct (capacity_checked_by_lru_cache Sample.is_int true Sample.total
              "total" (Memory (W:=unit) ∅ ∅)) as [Hneg _].
  destruct (Hneg (-1)%Z) as [Hc _]; [lia|]. exact Hc.
Defined.

(** C7 as stated fails: constructing a cache with [max_size=-1] reports no
    error; a wrapper is produced, allocated and registered. *)
Lemma negative_max_size_is_accepted :
  ∃ c h m,
    cache (X:=string) (MaxInt (-1)) true Sample.total = inr c
    ∧ decorate (MaxInt (-1)) true Sample.total "total"
        (Memory (W:=unit) ∅ ∅)
      = inr (h, m)
    ∧ heap m !! h = Some (LruCached c lru_new)
    ∧ _caches m !! h = Some "total".
Proof.
  eexists _, _, _. split; [reflexivity|]. split; [reflexivity|].
  split; simpl; by rewrite lookup_insert_eq.
Qed.

(** ** HashableFunction and HashableWrapper *)

Section HashableFacts.
Context {V Code : Type}.
Variable py_eq : V → V → bool.
Variable py_hash : V → option Z.
Variable code_eq : Code → Code → bool.
Variable code_hash : Code → Z.
Variable tuple_hash : list Z → Z.

(** Python's contract between [==] and [hash], for code objects and for
    closures. *)
Hypothesis code_hash_eq :
  ∀ a b, code_eq a b = true → code_hash a = code_hash b.
Hypothesis py_hash_eq : ∀ a b, py_eq a b = true → py_hash a = py_hash b.

Local Abbreviation hf_eq := (Wrappers.HashableFunction__eq__ py_eq code_eq).
Local Abbreviation hf_hash :=
  (Wrappers.HashableFunction__hash__ py_hash code_hash tuple_hash).
Local Abbreviation code_of o := (Wrappers.__code__ (Wrappers.f o)).

(** C8.  [self == other] holds exactly when [other] is a
    [HashableFunction] too, the two functions have equal code and the
    closures are equal; equal instances have equal hashes; and instances
    whose functions have different code are unequal, whatever the
    closures.  The hash is the hash of the pair of the code object and the
    closure: it exists when the closure can be hashed, and raises when it
    cannot. *)
Theorem HashableFunction_equality
    (self : Wrappers.HashableFunction (V:=V) (Code:=Code))
    (other : Wrappers.object (V:=V) (Code:=Code)) :
  (hf_eq self other = true
   ↔ ∃ o, other = Wrappers.OfHashableFunction o
          ∧ code_eq (code_of self) (code_of o) = true
          ∧ py_eq (Wrappers.closure self) (Wrappers.closure o) = true)
  ∧ (∀ o, hf_eq self (Wrappers.OfHashableFunction o) = true →
          hf_hash self = hf_hash o)
  ∧ (∀ o, code_eq (code_of self) (code_of o) = false →
          hf_eq self (Wrappers.OfHashableFunction o) = false)
  ∧ (∀ h, py_hash (Wrappers.closure self) = Some h →
          hf_hash self = Some (tuple_hash [code_hash (code_of self); h]))
  ∧ (py_hash (Wrappers.closure self) = None → hf_hash self = None).
Proof.
  split; [|split; [|split; [|split]]].
  - destruct other as [o|o|v]; simpl.
    + rewrite andb_true_iff. split.
      * intros [Hc Hcl]. by exists o.
      * intros (o' & [= <-] & Hc & Hcl). done.
    + split; [done | by intros (o' & [=] & _)].
    + split; [done | by intros (o' & [=] & _)].
  - intros o [Hc Hcl]%andb_true_iff.
    unfold Wrappers.HashableFunction__hash__.
    rewrite (py_hash_eq _ _ Hcl), (code_hash_eq _ _ Hc). done.
  - intros o Hc. simpl. by rewrite Hc.
  - intros h Hh. unfold Wrappers.HashableFunction__hash__. by rewrite Hh.
  - intros Hnone. unfold Wrappers.HashableFunction__hash__. by rewrite Hnone.
Qed.
End HashableFacts.

Section HashableWrapperFacts.
Context {V Code : Type}.
Variable py_eq : V → V → bool.
Variable py_hash : V → option Z.

Local Abbreviation hw_init := (Wrappers.HashableWrapper__init__ py_hash).
Local Abbreviation hw_eq := (Wrappers.HashableWrapper__eq__ (Code:=Code) py_eq).
Local Abbreviation hw_hash := Wrappers.HashableWrapper__hash__.

(** C9.  When [hash(x)] succeeds at construction, the wrapper's hash is
    that hash and the wrapper equals another wrapper exactly when the
    wrapped values are equal.  When it raises, the hash is [id(x)] and the
    wrapper equals another wrapper exactly when both wrap the same
    object: wrappers of two distinct objects are unequal even if the
    objects have equal contents.  A wrapper equals nothing that is not a
    [HashableWrapper]. *)
Theorem HashableWrapper_equality (x : Wrappers.reference (V:=V)) :
  let self := hw_init x in
  (∀ h, py_hash (Wrappers.content x) = Some h →
     hw_hash self = h
     ∧ ∀ o, hw_eq self (Wrappers.OfHashableWrapper o)
            = py_eq (Wrappers.content x) (Wrappers.content (Wrappers.x o)))
  ∧ (py_hash (Wrappers.content x) = None →
     hw_hash self = Z.of_nat (Wrappers.id x)
     ∧ (∀ o, hw_eq self (Wrappers.OfHashableWrapper o) = true
             ↔ Wrappers.id x = Wrappers.id (Wrappers.x o))
     ∧ (∀ y, Wrappers.id y ≠ Wrappers.id x →
             hw_eq self (Wrappers.OfHashableWrapper (hw_init y)) = false))
  ∧ (∀ o, hw_eq self (Wrappers.OfHashableFunction o) = false)
  ∧ (∀ v, hw_eq self (Wrappers.OfOther v) = false).
Proof.
  intros self. subst self. split; [|split; [|done]].
  - intros h Hh. unfold Wrappers.HashableWrapper__hash__. simpl.
    rewrite Hh. done.
  - intros Hnone. unfold Wrappers.HashableWrapper__hash__. simpl.
    rewrite Hnone. split; [done|]. split.
    + intros o. apply bool_decide_eq_true.
    + intros y Hne. apply bool_decide_eq_false. congruence.
Qed.
End HashableWrapperFacts.

(** The sample values respect the contract between [==] and [hash]. *)
Lemma source_hash_eq a b :
  Sample.source_eq a b = true → Sample.source_hash a = Sample.source_hash b.
Proof. unfold Sample.source_eq. by intros ->%bool_decide_eq_true. Qed.

Lemma value_hash_eq a b :
  Sample.value_eq a b = true → Sample.value_hash a = Sample.value_hash b.
Proof.
  destruct a, b; simpl; try done; by intros ->%bool_decide_eq_true.
Qed.

(** C8 on sample wrappers: same code and equal closures give equal
    wrappers with the same hash, that of the pair of code and closure;
    different code gives unequal wrappers; a list as closure has no
    hash. *)
Lemma HashableFunction_equality_witness :
  let a := Wrappers.HashableFunction__init__ Sample.succ_fn (Sample.Int 5) in
  let b := Wrappers.HashableFunction__init__ Sample.succ_fn (Sample.Int 5) in
  let d := Wrappers.HashableFunction__init__ Sample.pred_fn (Sample.Int 5) in
  let l := Wrappers.HashableFunction__init__ Sample.succ_fn
             (Sample.List [5%Z]) in
  Wrappers.HashableFunction__hash__ Sample.value_hash Sample.source_hash
    Sample.sum_hash a
  = Wrappers.HashableFunction__hash__ Sample.value_hash Sample.source_hash
      Sample.sum_hash b
  ∧ Wrappers.HashableFunction__eq__ Sample.value_eq Sample.source_eq
      a (Wrappers.OfHashableFunction d) = false
  ∧ Wrappers.HashableFunction__hash__ Sample.value_hash Sample.source_hash
      Sample.sum_hash a
    = Some (Sample.sum_hash [Sample.source_hash "lambda x: x + k"; 5%Z])
  ∧ Wrappers.HashableFunction__hash__ Sample.value_hash Sample.source_hash
      Sample.sum_hash l
    = None.
Proof.
  intros a b d l.
  destruct (HashableFunction_equality Sample.value_eq Sample.value_hash
              Sample.source_eq Sample.source_hash Sample.sum_hash
              source_hash_eq value_hash_eq a (Wrappers.OfHashableFunction b))
    as (_ & Hhash & Hcode & Hsome & _).
  destruct (HashableFunction_equality Sample.value_eq Sample.value_hash
              Sample.source_eq Sample.source_hash Sample.sum_hash
              source_hash_eq value_hash_eq l (Wrappers.OfHashableFunction b))
    as (_ & _ & _ & _ & Hnone).
  split; [apply Hhash; reflexivity|].
  split; [apply Hcode; reflexivity|].
  split; [apply Hsome; reflexivity | apply Hnone; reflexivity].
Defined.

(** C9 on sample wrappers: two distinct lists with the same items are
    wrapped into unequal wrappers; two references to equal integers are
    wrapped into equal ones. *)
Lemma HashableWrapper_equality_witness :
  let l1 := Wrappers.Reference 1 (Sample.List [1; 2]%Z) in
  let l2 := Wrappers.Reference 2 (Sample.List [1; 2]%Z) in
  let n1 := Wrappers.Reference 3 (Sample.Int 7) in
  let n2 := Wrappers.Reference 4 (Sample.Int 7) in
  Wrappers.HashableWrapper__eq__ (Code:=string) Sample.value_eq
    (Wrappers.HashableWrapper__init__ Sample.value_hash l1)
    (Wrappers.OfHashableWrapper
       (Wrappers.HashableWrapper__init__ Sample.value_hash l2)) = false
  ∧ Wrappers.HashableWrapper__eq__ (Code:=string) Sample.value_eq
      (Wrappers.HashableWrapper__init__ Sample.value_hash n1)
      (Wrappers.OfHashableWrapper
         (Wrappers.HashableWrapper__init__ Sample.value_hash n2)) = true
  ∧ Wrappers.HashableWrapper__hash__
      (Wrappers.HashableWrapper__init__ Sample.value_hash n1) = 7%Z.
Proof.
  intros l1 l2 n1 n2.
  destruct (HashableWrapper_equality (Code:=string) Sample.value_eq
              Sample.value_hash l1) as (_ & Hid & _).
  destruct (HashableWrapper_equality (Code:=string) Sample.value_eq
              Sample.value_hash n1) as (Hval & _).
  destruct Hid as (_ & _ & Hdistinct); [reflexivity|].
  destruct (Hval 7%Z) as [Hhash Heq]; [reflexivity|].
  split; [apply Hdistinct; simpl; lia|].
  split; [rewrite Heq; reflexivity | exact Hhash].
Defined.

(** ** The registry and [clear_all_caches] *)

Section RegistryFacts.
Context {V X W : Type} `{EqDecision V}.
Variable is_fasttype : V → bool.
Variable weak_cache_clear : W → W.
Implicit Types (m : memory (V:=V) (X:=X) (W:=W)).
Implicit Types (hp : gmap nat (cache_object (V:=V) (X:=X) (W:=W))).

Lemma elem_of_keys m h :
  h ∈ keys m ↔ is_Some (_caches m !! h) ∧ is_Some (heap m !! h).
Proof.
  unfold keys. rewrite list_elem_of_filter, list_elem_of_fmap. split.
  - intros [Hlive ([h' s] & -> & Hin)]. split; [|done].
    apply elem_of_map_to_list in Hin. eauto.
  - intros [[s Hs] Hlive]. split; [done|]. exists (h, s). split; [done|].
    by apply elem_of_map_to_list.
Qed.

Lemma keys_NoDup m : NoDup (keys m).
Proof. apply NoDup_filter, NoDup_fst_map_to_list. Qed.

Lemma clear_each_spec hs hp :
  NoDup hs →
  (∀ h, h ∈ hs → is_Some (hp !! h)) →
  ∃ hp', clear_each weak_cache_clear hs hp = Some hp'
         ∧ ∀ h, hp' !! h
                = if decide (h ∈ hs)
                  then cleared weak_cache_clear <$> hp !! h else hp !! h.
Proof.
  revert hp. induction hs as [|h0 hs IH]; intros hp Hnd Hlive.
  - exists hp. split; [done|]. intros h. rewrite decide_False; [done|].
    apply not_elem_of_nil.
  - apply NoDup_cons in Hnd as [Hnin Hnd].
    destruct (Hlive h0) as [o Ho]; [left|].
    cbn [clear_each]. unfold clear_object. rewrite Ho.
    destruct (IH (<[h0:=cleared weak_cache_clear o]> hp) Hnd)
      as (hp' & Hrun & Hhp').
    { intros h Hh. destruct (decide (h = h0)) as [->|Hne].
      - rewrite lookup_insert_eq. eauto.
      - rewrite lookup_insert_ne by done. apply Hlive. by right. }
    exists hp'. split; [done|]. intros h. rewrite Hhp'.
    destruct (decide (h = h0)) as [->|Hne].
    + rewrite lookup_insert_eq, Ho, (decide_True (P := h0 ∈ h0 :: hs))
        by left.
      by rewrite decide_False.
    + rewrite lookup_insert_ne by done.
      destruct (decide (h ∈ hs)) as [Hin|Hnin'].
      * by rewrite decide_True by (by right).
      * rewrite decide_False; [done|]. by intros [?|?]%elem_of_cons.
Qed.

(** The sweep never fails, and clears exactly the live registered
    objects. *)
Lemma clear_all_caches_spec m :
  ∃ m', clear_all_caches weak_cache_clear m = Some m'
        ∧ _caches m' = _caches m
        ∧ ∀ h, heap m' !! h
               = if decide (is_Some (_caches m !! h))
                 then cleared weak_cache_clear <$> heap m !! h
                 else heap m !! h.
Proof.
  unfold clear_all_caches.
  destruct (clear_each_spec (keys m) (heap m) (keys_NoDup m))
    as (hp' & -> & Hhp').
  { intros h Hh. by apply elem_of_keys in Hh as [_ ?]. }
  eexists. split; [done|]. split; [done|]. intros h. simpl. rewrite Hhp'.
  destruct (decide (h ∈ keys m)) as [Hk|Hk].
  - rewrite decide_True; [done|]. by apply elem_of_keys in Hk as [? _].
  - destruct (decide (is_Some (_caches m !! h))) as [Hreg|Hreg]; [|done].
    destruct (heap m !! h) as [o|] eqn:Ho; [|done].
    destruct Hk. apply elem_of_keys. rewrite Ho. eauto.
Qed.

(** A call on an empty cache is not served from it. *)
Lemma empty_cache_no_hit (c : cache_fn (V:=V) (X:=X)) cfg args kw w :
  hits (wrapper is_fasttype c cfg args kw lru_new w).1.2 = 0.
Proof.
  destruct (bypassed c cfg) eqn:Hb.
  - by rewrite wrapper_bypassed.
  - rewrite wrapper_lookup by done.
    set (a := lookup_args c cfg args).
    destruct (body c a kw w) as [[v|e] w'] eqn:Hu.
    + destruct (decide (maxsize c = Some 0)) as [Hm|Hm].
      * rewrite Hm. by rewrite lru_uncached.
      * by rewrite (lru_store _ _ _ _ _ _ _ v w').
    + by rewrite (lru_raise _ _ _ _ _ _ _ e w') by auto.
Qed.

(** A call that goes through an empty cache is counted as a miss. *)
Lemma empty_cache_miss (c : cache_fn (V:=V) (X:=X)) cfg args kw w :
  bypassed c cfg = false →
  misses (wrapper is_fasttype c cfg args kw lru_new w).1.2 = 1.
Proof.
  intros Hb. rewrite wrapper_lookup by done.
  set (a := lookup_args c cfg args).
  destruct (body c a kw w) as [[v|e] w'] eqn:Hu.
  - destruct (decide (maxsize c = Some 0)) as [Hm|Hm].
    + rewrite Hm. by rewrite lru_uncached.
    + by rewrite (lru_store _ _ _ _ _ _ _ v w').
  - by rewrite (lru_raise _ _ _ _ _ _ _ e w') by auto.
Qed.

(** C6.  [clear_all_caches] goes through the handles of [_caches] whose
    cache is still alive and calls [cache_clear] on each of them; it never
    fails, and it leaves every other object as it was.  After it, every
    live registered cache made by [cache] is empty, with its counters
    reset: no key is found in it, and the next call is not a hit (unless
    bypassed, it is counted as the first miss).  A live registered cache
    made by [weakref_lru_cache] has had its own [cache_clear] run.  A cache
    collected before the sweep is absent from it and stays absent. *)
Theorem clear_all_caches_clears_live_caches m :
  ∃ m',
    clear_all_caches weak_cache_clear m = Some m'
    ∧ (∀ h, is_Some (heap m' !! h) ↔ is_Some (heap m !! h))
    ∧ (∀ h c st,
         is_Some (_caches m !! h) → heap m !! h = Some (LruCached c st) →
         heap m' !! h = Some (LruCached c lru_new)
         ∧ ∀ cfg args kw w,
             dict_get (key_of is_fasttype c cfg args kw) (entries lru_new)
             = None
             ∧ hits (wrapper is_fasttype c cfg args kw lru_new w).1.2 = 0
             ∧ (bypassed c cfg = false →
                misses (wrapper is_fasttype c cfg args kw lru_new w).1.2 = 1))
    ∧ (∀ h s,
         is_Some (_caches m !! h) →
         heap m !! h = Some (WeakrefLruCached s) →
         heap m' !! h = Some (WeakrefLruCached (weak_cache_clear s)))
    ∧ (∀ h, _caches m !! h = None → heap m' !! h = heap m !! h)
    ∧ ∀ h0, ∃ m0,
        clear_all_caches weak_cache_clear (collect h0 m) = Some m0
        ∧ heap m0 !! h0 = None
        ∧ h0 ∉ keys (collect h0 m).
Proof.
  destruct (clear_all_caches_spec m) as (m' & Hrun & Hreg & Hheap).
  exists m'. split; [done|]. split; [|split; [|split; [|split]]].
  - intros h. rewrite Hheap. destruct (decide _); [|done].
    by rewrite fmap_is_Some.
  - intros h c st Hin Ho. rewrite Hheap, decide_True, Ho by done.
    split; [done|]. intros cfg args kw w.
    split; [done|]. split; [apply empty_cache_no_hit|].
    apply empty_cache_miss.
  - intros h s Hin Ho. by rewrite Hheap, decide_True, Ho.
  - intros h Hnin. rewrite Hheap, decide_False; [done|].
    rewrite Hnin. by intros [? ?].
  - intros h0.
    destruct (clear_all_caches_spec (collect h0 m)) as (m0 & Hrun0 & _ & H0).
    exists m0. split; [done|]. split.
    + rewrite H0. simpl. rewrite !lookup_delete_eq. by destruct (decide _).
    + rewrite elem_of_keys. simpl. rewrite !lookup_delete_eq.
      by intros [_ [? ?]].
Qed.
End RegistryFacts.

(** C6 on a sample memory: a live registered cache holding an entry, a
    live registered weakref cache (here just its number of entries), and a
    registered handle whose cache is gone. *)
Lemma clear_all_caches_clears_live_caches_witness :
  let c := CacheFn (Some 2) false Sample.total in
  let st := {| entries := [(KFast 1%Z, 1%Z)]; hits := 0; misses := 1;
               full := false |} in
  let m := Memory {[ 0 := LruCached c st; 2 := WeakrefLruCached 7 ]}
             {[ 0 := "total"; 1 := "gone"; 2 := "weak" ]} in
  ∃ m', clear_all_caches (λ _, 0) m = Some m'
        ∧ heap m' !! 0 = Some (LruCached c lru_new)
        ∧ heap m' !! 2 = Some (WeakrefLruCached 0)
        ∧ heap m' !! 1 = None.
Proof.
  intros c st m.
  destruct (clear_all_caches_clears_live_caches Sample.is_int (λ _, 0) m)
    as (m' & Hrun & Hlive & Hlru & Hweak & _).
  exists m'. split; [exact Hrun|]. split; [|split].
  - destruct (Hlru 0 c st) as [Hc _];
      [eexists; reflexivity | reflexivity | exact Hc].
  - apply (Hweak 2 7); [eexists; reflexivity | reflexivity].
  - destruct (heap m' !! 1) as [o1|] eqn:Ho1; [|reflexivity].
    assert (is_Some (heap m !! 1)) as [? Hcontra].
    { apply Hlive. rewrite Ho1. eexists. reflexivity. }
    discriminate Hcontra.
Defined.

(** ** Every call takes one of the six steps *)

Section StepFacts.
Context {V X : Type} `{EqDecision V}.
Variable is_fasttype : V → bool.
Implicit Types (c : cache_fn (V:=V) (X:=X)) (cfg : config (V:=V)).
Implicit Types (st : lru_state V) (w : log V).
Implicit Types (args : list V) (kw : kwargs V).

Lemma binds_dec c kw : {binds c kw} + {¬ binds c kw}.
Proof.
  unfold binds. destruct (trace_context_in_key c).
  - destruct (decide ("_" ∈ kw.*1)) as [Hin|Hnin].
    + right. intros Hb. by apply Hb.
    + by left.
  - left. done.
Qed.

Lemma wrapper_step c cfg args kw st w :
  step is_fasttype c cfg args kw st w
    (wrapper is_fasttype c cfg args kw st w).
Proof.
  destruct (bypassed c cfg) eqn:Hb.
  { rewrite wrapper_bypassed by done. by constructor. }
  rewrite wrapper_lookup by done.
  pose proof (key_of_lookup_args is_fasttype c cfg args kw) as Hk.
  destruct (decide (maxsize c = Some 0)) as [Hm|Hm].
  - rewrite Hm, lru_uncached. destruct (binds_dec c kw) as [Hbind|Hbind].
    + rewrite (body_invokes _ _ _ _ _ Hbind). simpl.
      destruct (wrapped c args kw) as [v|e] eqn:Hf.
      * by apply step_uncached.
      * apply step_raise; auto.
    + rewrite (body_unbound _ _ _ _ _ Hbind). simpl.
      apply step_unbound; auto.
  - destruct (dict_get (key_of is_fasttype c cfg args kw) (entries st))
      as [v|] eqn:Hget.
    + rewrite (lru_hit _ _ _ _ _ _ _ v), <- Hk by (by rewrite <- ?Hk).
      by apply step_hit.
    + destruct (binds_dec c kw) as [Hbind|Hbind].
      * destruct (wrapped c args kw) as [v|e] eqn:Hf.
        -- rewrite (lru_store _ _ _ _ _ _ _ v (w ++ [(args, kw)])), <- Hk;
             [by apply step_store | done | by rewrite <- Hk |].
           by rewrite body_invokes, Hf.
        -- rewrite (lru_raise _ _ _ _ _ _ _ e (w ++ [(args, kw)]));
             [apply step_raise; auto | right; by rewrite <- Hk |].
           by rewrite body_invokes, Hf.
      * rewrite (lru_raise _ _ _ _ _ _ _
                   (TypeError "cached() got multiple values for argument '_'")
                   w);
          [apply step_unbound; auto | right; by rewrite <- Hk |].
        by rewrite body_unbound.
Qed.
End StepFacts.

(** ** Stored values are results of the wrapped function *)

Section ConsistencyFacts.
Context {V X : Type} `{EqDecision V}.
Variable is_fasttype : V → bool.
Implicit Types (c : cache_fn (V:=V) (X:=X)) (cfg : config (V:=V)).
Implicit Types (st : lru_state V) (w : log V).
Implicit Types (args : list V) (kw : kwargs V).

Lemma dict_del_subseteq {K A} `{EqDecision K} (k : K) (d : list (K * A)) :
  dict_del k d ⊆ d.
Proof.
  induction d as [|[k' v'] d IH]; simpl; [done|].
  case_decide; [by apply list_subseteq_cons | by apply list_subseteq_skip].
Qed.

Lemma tail_subseteq {A} (l : list A) : tail l ⊆ l.
Proof. destruct l; simpl; [done|]. by apply list_subseteq_cons. Qed.

Lemma consistent_new c : consistent is_fasttype c lru_new.
Proof. intros cfg args kw v Hin. by apply elem_of_nil in Hin. Qed.

Lemma consistent_clear c st : consistent is_fasttype c (cache_clear st).
Proof. apply consistent_new. Qed.

(** No call breaks consistency. *)
Lemma wrapper_consistent c cfg args kw st w :
  consistent is_fasttype c st →
  consistent is_fasttype c (wrapper is_fasttype c cfg args kw st w).1.2.
Proof.
  intros Hst.
  destruct (wrapper is_fasttype c cfg args kw st w) as [[r st1] w1] eqn:Hcall.
  pose proof (wrapper_step is_fasttype c cfg args kw st w) as Hs.
  rewrite Hcall in Hs. simpl.
  inversion Hs as [Hb|v Hb Hm Hget|Hb Hmiss Hbind|e Hb Hmiss Hbind Hf
                   |v Hb Hm Hbind Hf|v Hb Hm Hget Hbind Hf];
    subst; try done.
  - intros cfg' args' kw' v' Hin. simpl in Hin. apply (Hst cfg').
    destruct (maxsize c); [|done].
    apply elem_of_app in Hin as [Hin|Hin%list_elem_of_singleton].
    + by apply (dict_del_subseteq (key_of is_fasttype c cfg args kw)).
    + rewrite Hin. by apply dict_get_Some_elem.
  - intros cfg' args' kw' v' Hin. simpl in Hin.
    apply elem_of_app in Hin as [Hin|Hin%list_elem_of_singleton].
    + apply (Hst cfg'). destruct (maxsize c); [|done].
      destruct (full st); [by apply tail_subseteq | done].
    + injection Hin as Hk <-.
      apply key_of_inj in Hk as (_ & -> & ->). done.
Qed.


(** Every state a cache goes through is consistent. *)
Lemma reachable_consistent c st :
  reachable is_fasttype c st → consistent is_fasttype c st.
Proof.
  induction 1 as [|cfg args kw st w _ IH|st _ _].
  - apply consistent_new.
  - by apply wrapper_consistent.
  - apply consistent_clear.
Qed.



End ConsistencyFacts.



(** ** memoize *)

Section MemoizeFacts.
Context {V X : Type} `{EqDecision V}.
Variable is_fasttype : V → bool.
Implicit Types (cfg : config (V:=V)) (st : lru_state V) (w : log V).
Implicit Types (args : list V) (kw : kwargs V).

(** Calls with the same arguments under pairwise different trace contexts,
    none of whose keys is stored yet, each invoke the wrapped function. *)
Lemma memoized_contexts (f : pyfun V X) cfgs args kw st w :
  NoDup (trace_context <$> cfgs) →
  "_" ∉ kw.*1 →
  (∀ cfg, cfg ∈ cfgs →
     dict_get (key_of is_fasttype (CacheFn None true f) cfg args kw)
       (entries st) = None) →
  ∃ st',
    run is_fasttype (CacheFn None true f)
      ((λ cfg, Call cfg args kw) <$> cfgs) st w
    = (replicate (length cfgs) (f args kw), st',
       w ++ replicate (length cfgs) (args, kw)).
Proof.
  intros Hnd Hkw. revert st w.
  induction cfgs as [|cfg cfgs IH]; intros st w Habs.
  { exists st. simpl. by rewrite app_nil_r. }
  apply NoDup_cons in Hnd as [Hnin Hnd]. cbn [fmap list_fmap run].
  cbn [call_cfg call_args call_kwargs].
  set (c := CacheFn None true f) in *.
  assert (∃ st1,
    wrapper is_fasttype c cfg args kw st w = (f args kw, st1, w ++ [(args, kw)])
    ∧ ∀ cfg', cfg' ∈ cfgs →
        dict_get (key_of is_fasttype c cfg' args kw) (entries st1) = None)
    as (st1 & -> & Habs1).
  { pose proof (wrapper_step is_fasttype c cfg args kw st w) as Hs.
    assert (dict_get (key_of is_fasttype c cfg args kw) (entries st) = None)
      as Hget by (apply Habs; left).
    assert (∀ cfg', cfg' ∈ cfgs →
              dict_get (key_of is_fasttype c cfg' args kw) (entries st) = None)
      as Hrest by (intros; apply Habs; by right).
    inversion Hs as [Hb Heq|v Hb Hm Hget' Heq|Hb Hmiss Hbind Heq
                     |e Hb Hmiss Hbind Hf Heq
                     |v Hb Hm Hbind Hf Heq|v Hb Hm Hget' Hbind Hf Heq].
    - by exists st.
    - congruence.
    - destruct Hbind. by intros _.
    - exists (missed st). simpl in Hf. by rewrite <- Hf.
    - done.
    - eexists. simpl in Hf. rewrite <- Hf. split; [done|].
      intros cfg' Hin. simpl.
      rewrite dict_get_snoc_ne; [by apply Hrest|].
      intros Hk. apply key_of_inj in Hk as (Hctx & _).
      apply Hnin. rewrite <- (Hctx eq_refl).
      apply list_elem_of_fmap. eauto. }
  destruct (IH Hnd st1 (w ++ [(args, kw)]) Habs1) as (st' & ->).
  exists st'. simpl. by rewrite <- app_assoc.
Qed.

(** [memoize] is [cache] with an unbounded capacity and the default
    [trace_context_in_key=True].  So the key of a memoized call starts
    with the ambient trace context, calls with equal arguments under
    pairwise different trace contexts each invoke the wrapped function
    provided [cached] can bind their keywords, and while the leak-check
    flag is set every call invokes the wrapped function directly and
    changes nothing in the cache. *)
Lemma memoize_keeps_trace_context (f : pyfun V X) :
  ∃ c,
    memoize f = inr c
    ∧ maxsize c = None ∧ trace_context_in_key c = true ∧ wrapped c = f
    ∧ (∀ cfg args kw,
         key_of is_fasttype c cfg args kw
         = _make_key is_fasttype (trace_context cfg :: args) kw)
    ∧ (∀ cfgs args kw st w,
         NoDup (trace_context <$> cfgs) →
         "_" ∉ kw.*1 →
         (∀ cfg, cfg ∈ cfgs →
            dict_get (key_of is_fasttype c cfg args kw) (entries st) = None) →
         ∃ st',
           run is_fasttype c ((λ cfg, Call cfg args kw) <$> cfgs) st w
           = (replicate (length cfgs) (f args kw), st',
              w ++ replicate (length cfgs) (args, kw)))
    ∧ (∀ cfg args kw st w,
         check_tracer_leaks cfg = true →
         wrapper is_fasttype c cfg args kw st w
         = (f args kw, st, w ++ [(args, kw)])).
Proof.
  exists (CacheFn None true f). repeat split; try done.
  - apply memoized_contexts.
  - intros cfg args kw st w Hflag.
    by rewrite wrapper_bypassed by (unfold bypassed; by rewrite Hflag).
Qed.
End MemoizeFacts.

(** The same argument under the contexts 1 and 2 is computed twice. *)
Lemma memoize_under_two_contexts :
  ∃ c st,
    memoize Sample.total = inr c
    ∧ run Sample.is_int c
        [Call (Sample.in_context 1) [5%Z] [];
         Call (Sample.in_context 2) [5%Z] []] lru_new []
      = ([Return 5%Z; Return 5%Z], st, [([5%Z], []); ([5%Z], [])])
    ∧ wrapper Sample.is_int c Sample.leaks_on [5%Z] [] st []
      = (Return 5%Z, st, [([5%Z], [])]).
Proof.
  destruct (memoize_keeps_trace_context Sample.is_int Sample.total)
    as (c & Hc & _ & _ & _ & Hkey & Hctx & Hflag).
  destruct (Hctx [Sample.in_context 1; Sample.in_context 2] [5%Z] []
              lru_new []) as (st & Hrun).
  - simpl. apply NoDup_cons. split; [|apply NoDup_singleton].
    intros Hin%list_elem_of_singleton. discriminate Hin.
  - apply not_elem_of_nil.
  - intros cfg _. rewrite Hkey. reflexivity.
  - exists c, st. split; [exact Hc|]. split; [exact Hrun|].
    apply (Hflag Sample.leaks_on [5%Z] [] st []). reflexivity.
Defined.

(** ** Memoization while the keys fit *)

Section MemoFacts.
Context {V X : Type} `{EqDecision V}.
Variable is_fasttype : V → bool.
Implicit Types (c : cache_fn (V:=V) (X:=X)) (cfg : config (V:=V)).
Implicit Types (st : lru_state V) (w : log V) (x : call (V:=V)).
Implicit Types (ks seen : list (cache_key V)) (cs : list (call (V:=V))).

Lemma dict_get_Some_key {K A} `{EqDecision K} (k : K) (v : A) d :
  dict_get k d = Some v → k ∈ d.*1.
Proof.
  intros Hget. destruct (decide (k ∈ d.*1)) as [|Hnin]; [done|].
  apply dict_get_None in Hnin. congruence.
Qed.

(** Moving an entry to the most recent place permutes the entries. *)
Lemma dict_move_perm {K A} `{EqDecision K} (k : K) (v : A) d :
  NoDup d.*1 → dict_get k d = Some v → dict_del k d ++ [(k, v)] ≡ₚ d.
Proof.
  induction d as [|[k' v'] d IH]; simpl; [done|].
  intros [Hnin Hnd]%NoDup_cons. case_decide as Hk.
  - intros [= ->]. subst k'.
    rewrite dict_del_absent by (by apply dict_get_None).
    symmetry. apply Permutation_cons_append.
  - intros Hget. simpl. by rewrite IH.
Qed.







End MemoFacts.

Section OncePerKey.
Context {V X : Type} `{EqDecision V}.
Variable is_fasttype : V → bool.
Implicit Types (c : cache_fn (V:=V) (X:=X)) (cs : list (call (V:=V))).


End OncePerKey.



(** ** Eviction *)

Section EvictionFacts.
Context {V X : Type} `{EqDecision V}.
Variable is_fasttype : V → bool.
Implicit Types (c : cache_fn (V:=V) (X:=X)) (cs : list (call (V:=V))).
Implicit Types (st : lru_state V) (w : log V) (x : call (V:=V)).






End EvictionFacts.



(** C10.  [memoize] keeps the trace context in its key and the bypass
    under the leak-check flag, but a memoized call that passes a keyword
    named [_] does not reach the wrapped function: under two different
    trace contexts both calls fail in [cached] with a [TypeError], each
    counted as a miss, and the wrapped function is not invoked.  The same
    call is passed on to the wrapped function when the flag is set, and
    by a cache made with [trace_context_in_key=False]. *)
Theorem memoized_underscore_keyword :
  let kw := [("_", 5%Z)] in
  let error :=
    Raise (TypeError "cached() got multiple values for argument '_'") in
  ∃ c,
    memoize Sample.total = inr c
    ∧ trace_context (Sample.in_context 1) ≠ trace_context (Sample.in_context 2)
    ∧ run Sample.is_int c
        [Call (Sample.in_context 1) [] kw; Call (Sample.in_context 2) [] kw]
        lru_new []
      = ([error; error],
         {| entries := []; hits := 0; misses := 2; full := false |}, [])
    ∧ wrapper Sample.is_int c Sample.leaks_on [] kw lru_new []
      = (Return 5%Z, lru_new, [([], kw)])
    ∧ wrapper Sample.is_int (CacheFn None false Sample.total)
        (Sample.in_context 1) [] kw lru_new []
      = (Return 5%Z,
         {| entries := [(KHashedSeq [KMark; KName "_"; KVal 5%Z], 5%Z)];
            hits := 0; misses := 1; full := false |},
         [([], kw)]).
Proof.
  intros kw error. eexists. split; [reflexivity|].
  split; [discriminate|]. split; [reflexivity|]. split; reflexivity.
Qed.

(** ** Slices, split_list, split_list_checked, unflatten *)

Section SplitFacts.
Context {A : Type}.
Implicit Types (l args xs : list A) (ns : list Z) (xss : list (list A)).

Lemma upto_from l n : Lst.upto l n ++ Lst.from l n = l.
Proof. apply take_drop. Qed.

Lemma slice_bound_nonneg (len : nat) n :
  (0 ≤ n)%Z → Lst.slice_bound len n = Z.to_nat n `min` len.
Proof.
  intros Hn. unfold Lst.slice_bound. rewrite decide_False by lia. lia.
Qed.

Lemma upto_nonneg l n : (0 ≤ n)%Z → Lst.upto l n = take (Z.to_nat n) l.
Proof.
  intros Hn. unfold Lst.upto. rewrite slice_bound_nonneg by done.
  destruct (decide (Z.to_nat n ≤ length l)).
  - by rewrite Nat.min_l.
  - rewrite Nat.min_r by lia. by rewrite !take_ge by lia.
Qed.

Lemma from_nonneg l n : (0 ≤ n)%Z → Lst.from l n = drop (Z.to_nat n) l.
Proof.
  intros Hn. unfold Lst.from. rewrite slice_bound_nonneg by done.
  destruct (decide (Z.to_nat n ≤ length l)).
  - by rewrite Nat.min_l.
  - rewrite Nat.min_r by lia. by rewrite !drop_ge by lia.
Qed.

Lemma sum_from z ns : foldl Z.add z ns = (z + Lst.sum ns)%Z.
Proof.
  unfold Lst.sum. revert z. induction ns as [|m ns IH]; intros z; [simpl; lia|].
  change (foldl Z.add (z + m)%Z ns = (z + foldl Z.add (0 + m)%Z ns)%Z).
  rewrite (IH (z + m)%Z), (IH (0 + m)%Z). lia.
Qed.

Lemma sum_cons n ns : Lst.sum (n :: ns) = (n + Lst.sum ns)%Z.
Proof. unfold Lst.sum at 1. simpl. apply sum_from. Qed.

Lemma sum_nonneg ns : Forall (λ n, 0 ≤ n)%Z ns → (0 ≤ Lst.sum ns)%Z.
Proof.
  induction 1 as [|n ns Hn _ IH]; [done|]. rewrite sum_cons. lia.
Qed.

(** X1.  Whatever the sizes, negative or too large ones included,
    [split_list] returns one list per size and one more, and these lists
    put together are the argument: nothing is lost or repeated. *)
Theorem split_list_complete args ns :
  Lst.concatenate (Lst.split_list args ns) = args
  ∧ length (Lst.split_list args ns) = S (length ns).
Proof.
  revert args. induction ns as [|n ns IH]; intros args; simpl.
  - by rewrite app_nil_r.
  - destruct (IH (Lst.from args n)) as [Hc Hl]. unfold Lst.concatenate in *.
    rewrite Hc, Hl. by rewrite upto_from.
Qed.

(** X2.  With sizes that are not negative and do not add up to more than
    the length of the argument, the lists that [split_list] returns have
    these sizes, and the last one holds what remains. *)
Theorem split_list_sizes args ns :
  Forall (λ n, 0 ≤ n)%Z ns →
  (Lst.sum ns ≤ Z.of_nat (length args))%Z →
  length <$> Lst.split_list args ns
  = (Z.to_nat <$> ns) ++ [length args - Z.to_nat (Lst.sum ns)].
Proof.
  intros Hns. revert args.
  induction Hns as [|n ns Hn Hns IH]; intros args Hsum; simpl.
  - unfold Lst.sum. simpl. by rewrite Nat.sub_0_r.
  - rewrite sum_cons in Hsum. pose proof (sum_nonneg ns Hns).
    rewrite upto_nonneg, from_nonneg by done.
    rewrite IH by (rewrite length_drop; lia).
    rewrite length_take, length_drop, sum_cons. f_equal; [lia|].
    do 2 f_equal. lia.
Qed.

Lemma split_list_checked_loop_spec args ns :
  Forall (λ n, 0 ≤ n)%Z ns →
  Lst.sum ns = Z.of_nat (length args) →
  Lst.split_list args ns = Lst.split_list_checked_loop args ns ++ [[]]
  ∧ length <$> Lst.split_list_checked_loop args ns = Z.to_nat <$> ns
  ∧ concat (Lst.split_list_checked_loop args ns) = args.
Proof.
  intros Hns. revert args.
  induction Hns as [|n ns Hn Hns IH]; intros args Hsum; simpl.
  - unfold Lst.sum in Hsum. simpl in Hsum.
    destruct args; [done | simpl in Hsum; lia].
  - rewrite sum_cons in Hsum. pose proof (sum_nonneg ns Hns).
    destruct (IH (Lst.from args n)) as (Hsl & Hlen & Hc).
    { rewrite from_nonneg, length_drop by done. lia. }
    rewrite Hsl, Hc. split; [done|]. split; [|apply upto_from].
    f_equal; [|exact Hlen].
    rewrite upto_nonneg, length_take by done. lia.
Qed.

Lemma nonneg_forallb ns :
  forallb (λ n, bool_decide (0 ≤ n)%Z) ns = true ↔ Forall (λ n, 0 ≤ n)%Z ns.
Proof.
  rewrite forallb_forall, Forall_forall. split; intros Hf n Hn.
  - eapply bool_decide_eq_true_1, Hf. by apply list_elem_of_In.
  - apply bool_decide_eq_true_2, Hf. by apply list_elem_of_In.
Qed.

(** X3.  [split_list_checked] succeeds exactly when no size is negative
    and the sizes add up to the length of the argument; it fails with
    [AssertionError] otherwise.  On success its lists have the sizes asked
    for, put together they are the argument, and [split_list] returns the
    same lists followed by an empty one. *)
Theorem split_list_checked_spec args ns :
  (Forall (λ n, 0 ≤ n)%Z ns ∧ Lst.sum ns = Z.of_nat (length args) →
   ∃ lists,
     Lst.split_list_checked args ns = Lst.Ok lists
     ∧ length <$> lists = Z.to_nat <$> ns
     ∧ Lst.concatenate lists = args
     ∧ Lst.split_list args ns = lists ++ [[]])
  ∧ (¬ (Forall (λ n, 0 ≤ n)%Z ns ∧ Lst.sum ns = Z.of_nat (length args)) →
     Lst.split_list_checked args ns = Lst.Err Lst.AssertionError).
Proof.
  unfold Lst.split_list_checked.
  pose proof (nonneg_forallb ns) as Hall.
  split.
  - intros [Hns Hsum]. rewrite bool_decide_eq_true_2 by done.
    rewrite (proj2 Hall Hns). simpl. eexists. split; [done|].
    destruct (split_list_checked_loop_spec args ns Hns Hsum)
      as (Hsl & Hlen & Hc).
    done.
  - intros Hno. destruct (bool_decide _) eqn:Hs; [|done].
    destruct (forallb _ ns) eqn:Hf; [|done].
    destruct Hno. split; [by apply Hall | by apply bool_decide_eq_true in Hs].
Qed.
End SplitFacts.

Section UnflattenFacts.
Context {A : Type}.
Implicit Types (l args xs : list A) (ns : list Z) (xss : list (list A)).

(** The number of elements that [unflatten] draws for the sizes [ns]. *)
Local Abbreviation drawn ns := (sum_list (Z.to_nat <$> ns)).

Lemma take_next_spec (n : nat) xs :
  Lst.take_next n xs
  = if decide (n ≤ length xs) then Lst.Ok (take n xs, drop n xs)
    else Lst.Err Lst.StopIteration.
Proof.
  revert xs. induction n as [|n IH]; intros xs.
  - case_decide; [|lia]. by rewrite drop_0.
  - destruct xs as [|x xs].
    + case_decide; [simpl in *; lia|done].
    + cbn [Lst.take_next Lst.next mbind Lst.result_bind]. rewrite IH.
      repeat case_decide; simpl in *; try lia; done.
Qed.

Lemma drawn_cons n ns : drawn (n :: ns) = Z.to_nat n + drawn ns.
Proof. done. Qed.

Lemma unflatten_loop_ok xs ns :
  drawn ns ≤ length xs →
  ∃ xss, Lst.unflatten_loop xs ns = Lst.Ok (xss, drop (drawn ns) xs)
         ∧ concat xss = take (drawn ns) xs
         ∧ length <$> xss = Z.to_nat <$> ns.
Proof.
  revert xs. induction ns as [|n ns IH]; intros xs Hlen.
  - exists []. by rewrite drop_0, take_0.
  - rewrite drawn_cons in *.
    destruct (IH (drop (Z.to_nat n) xs)) as (xss & Hl & Hc & Hs).
    { rewrite length_drop. lia. }
    exists (take (Z.to_nat n) xs :: xss).
    cbn [Lst.unflatten_loop]. rewrite take_next_spec, decide_True by lia.
    cbn [mbind Lst.result_bind]. rewrite Hl. cbn [mbind Lst.result_bind].
    rewrite drop_drop. split; [done|]. split.
    + cbn [concat]. rewrite Hc. by rewrite <- take_take_drop.
    + rewrite !fmap_cons. f_equal; [|done]. rewrite length_take. lia.
Qed.

Lemma unflatten_loop_stop xs ns :
  length xs < drawn ns →
  Lst.unflatten_loop xs ns = Lst.Err Lst.StopIteration.
Proof.
  revert xs. induction ns as [|n ns IH]; intros xs Hlen.
  - simpl in Hlen. lia.
  - rewrite drawn_cons in *. cbn [Lst.unflatten_loop].
    rewrite take_next_spec. destruct (decide (Z.to_nat n ≤ length xs)); [|done].
    cbn [mbind Lst.result_bind]. rewrite IH; [done|]. rewrite length_drop. lia.
Qed.

(** X4.  [unflatten] counts a negative size as zero.  It succeeds exactly
    when the sizes add up to the number of elements, and then returns
    lists of these sizes whose concatenation is the input; with too few
    elements it raises [StopIteration] (out of the comprehension, not an
    [AssertionError]), with too many an [AssertionError]. *)
Theorem unflatten_spec xs ns :
  (drawn ns = length xs →
   ∃ xss, Lst.unflatten xs ns = Lst.Ok xss
          ∧ Lst.concatenate xss = xs
          ∧ length <$> xss = Z.to_nat <$> ns)
  ∧ (length xs < drawn ns → Lst.unflatten xs ns = Lst.Err Lst.StopIteration)
  ∧ (drawn ns < length xs → Lst.unflatten xs ns = Lst.Err Lst.AssertionError).
Proof.
  unfold Lst.unflatten. repeat split.
  - intros Hlen. destruct (unflatten_loop_ok xs ns) as (xss & -> & Hc & Hs);
      [lia|].
    exists xss. simpl. rewrite drop_ge by lia. split; [done|]. split; [|done].
    unfold Lst.concatenate. rewrite Hc. apply take_ge. lia.
  - intros Hlen. by rewrite unflatten_loop_stop.
  - intros Hlen. destruct (unflatten_loop_ok xs ns) as (xss & -> & _); [lia|].
    simpl. destruct (drop (drawn ns) xs) eqn:Hd; [|done].
    apply (f_equal length) in Hd. rewrite length_drop in Hd. simpl in Hd. lia.
Qed.

(** X5.  [unflatten] undoes [concatenate]: from the concatenation of some
    lists and their lengths it returns these lists. *)
Theorem unflatten_concatenate xss :
  Lst.unflatten (Lst.concatenate xss) (Z.of_nat ∘ length <$> xss) = Lst.Ok xss.
Proof.
  unfold Lst.unflatten, Lst.concatenate.
  induction xss as [|xs xss IH]; [done|]. simpl.
  rewrite take_next_spec, Nat2Z.id, decide_True by (rewrite length_app; lia).
  simpl. rewrite drop_app_length, take_app_length.
  destruct (Lst.unflatten_loop (concat xss) _) as [[ls rest]|e]; simpl in *.
  - destruct rest; [|done]. by inversion IH.
  - done.
Qed.

(** X6.  Where [split_list_checked] succeeds, [unflatten] returns the same
    lists. *)
Theorem unflatten_agrees_with_split_list_checked args ns lists :
  Lst.split_list_checked args ns = Lst.Ok lists →
  Lst.unflatten args ns = Lst.Ok lists.
Proof.
  intros Hok. unfold Lst.split_list_checked in Hok.
  destruct (bool_decide (Lst.sum ns = Z.of_nat (length args))) eqn:Hsum;
    [|done].
  destruct (forallb _ ns) eqn:Hns; [|done].
  apply bool_decide_eq_true in Hsum. apply nonneg_forallb in Hns.
  cbn [andb] in Hok. injection Hok as <-.
  unfold Lst.unflatten.
  assert (∀ rest, Lst.unflatten_loop (args ++ rest) ns
                  = Lst.Ok (Lst.split_list_checked_loop args ns, rest)) as Hl.
  { revert args Hsum.
    induction Hns as [|n ns Hn Hns IH]; intros args Hsum rest.
    - unfold Lst.sum in Hsum. simpl in Hsum.
      destruct args; [done | simpl in Hsum; lia].
    - rewrite sum_cons in Hsum. pose proof (sum_nonneg ns Hns). simpl.
      rewrite take_next_spec, decide_True by (rewrite length_app; lia).
      simpl. rewrite upto_nonneg, from_nonneg by done.
      rewrite drop_app_le by lia. rewrite IH by (rewrite length_drop; lia).
      simpl. by rewrite take_app_le by lia. }
  specialize (Hl []). rewrite app_nil_r in Hl. by rewrite Hl.
Qed.
End UnflattenFacts.

(** ** partition_list, merge_lists, split_merge *)

Section PartitionFacts.
Context {A : Type}.
Implicit Types (l out : list A) (bs sides : list bool).

(** The elements of [l] whose mask is [b], in order. *)
Local Abbreviation masked b bs l := ((filter (λ bx, bx.1 = b) (zip bs l)).*2).

Lemma masked_cons_eq (b : bool) bs x l :
  masked b (b :: bs) (x :: l) = x :: masked b bs l.
Proof. cbn [zip zip_with]. by rewrite filter_cons_True. Qed.

Lemma masked_cons_ne (b c : bool) bs x l :
  c ≠ b → masked b (c :: bs) (x :: l) = masked b bs l.
Proof. intros Hcb. cbn [zip zip_with]. by rewrite filter_cons_False. Qed.

Lemma count_true_from n bs :
  foldl (λ n (b : bool), if b then S n else n) n bs = n + Lst.count_true bs.
Proof.
  unfold Lst.count_true. revert n. induction bs as [|b bs IH]; intros n.
  - simpl. lia.
  - cbn [foldl]. rewrite (IH (if b then S n else n)), (IH (if b then 1 else 0)).
    destruct b; lia.
Qed.

Lemma count_true_cons b bs :
  Lst.count_true (b :: bs) = (if b then 1 else 0) + Lst.count_true bs.
Proof. unfold Lst.count_true at 1. cbn [foldl]. apply count_true_from. Qed.

Lemma count_true_le bs : Lst.count_true bs ≤ length bs.
Proof.
  induction bs as [|b bs IH]; [done|]. rewrite count_true_cons.
  destruct b; simpl; lia.
Qed.

Lemma masked_count bs l :
  length bs = length l →
  length (masked true bs l) = Lst.count_true bs
  ∧ length (masked false bs l) = length bs - Lst.count_true bs.
Proof.
  revert l. induction bs as [|b bs IH]; intros [|x l] Hlen; try done.
  injection Hlen as Hlen. destruct (IH l Hlen) as [Ht Hf].
  pose proof (count_true_le bs). rewrite count_true_cons. destruct b.
  - rewrite masked_cons_eq, masked_cons_ne by done. simpl. lia.
  - rewrite masked_cons_eq, masked_cons_ne by done. simpl. lia.
Qed.

Lemma partition_list_loop bs l (a0 a1 : list A) :
  foldl (λ lists bx,
           if bx.1 : bool then (lists.1, lists.2 ++ [bx.2])
           else (lists.1 ++ [bx.2], lists.2))
    (a0, a1) (zip bs l)
  = (a0 ++ masked false bs l, a1 ++ masked true bs l).
Proof.
  revert l a0 a1. induction bs as [|b bs IH]; intros [|x l] a0 a1;
    try (by rewrite ?zip_with_nil_r; simpl; rewrite !app_nil_r).
  destruct b.
  - rewrite masked_cons_eq, masked_cons_ne by done.
    cbn [zip zip_with foldl fst snd]. rewrite (IH l). by rewrite <- app_assoc.
  - rewrite masked_cons_eq, masked_cons_ne by done.
    cbn [zip zip_with foldl fst snd]. rewrite (IH l). by rewrite <- app_assoc.
Qed.

(** X7.  [partition_list] fails with [AssertionError] when the mask and the
    list differ in length; otherwise it returns first the elements whose
    mask is [False], then those whose mask is [True], each in its order of
    occurrence. *)
Theorem partition_list_spec bs l :
  Lst.partition_list bs l
  = if decide (length bs = length l)
    then Lst.Ok (masked false bs l, masked true bs l)
    else Lst.Err Lst.AssertionError.
Proof.
  unfold Lst.partition_list. case_decide.
  - rewrite bool_decide_eq_true_2 by done. by rewrite partition_list_loop.
  - by rewrite bool_decide_eq_false_2 by done.
Qed.

Lemma merge_lists_loop_masked bs l (r0 r1 : list A) :
  length bs = length l →
  Lst.merge_lists_loop bs (masked false bs l ++ r0) (masked true bs l ++ r1)
  = Lst.Ok (l, r0, r1).
Proof.
  revert l. induction bs as [|b bs IH]; intros [|x l] Hlen; try done.
  injection Hlen as Hlen. cbn [Lst.merge_lists_loop]. destruct b.
  - rewrite masked_cons_eq, masked_cons_ne by done.
    cbn [app Lst.next mbind Lst.result_bind]. by rewrite IH.
  - rewrite masked_cons_eq, masked_cons_ne by done.
    cbn [app Lst.next mbind Lst.result_bind]. by rewrite IH.
Qed.

Lemma merge_lists_loop_inv bs (i0 i1 : list A) out (r0 r1 : list A) :
  Lst.merge_lists_loop bs i0 i1 = Lst.Ok (out, r0, r1) →
  length bs = length out
  ∧ i0 = masked false bs out ++ r0
  ∧ i1 = masked true bs out ++ r1.
Proof.
  revert i0 i1 out. induction bs as [|b bs IH]; intros i0 i1 out Hm.
  - by injection Hm as <- <- <-.
  - cbn [Lst.merge_lists_loop] in Hm. destruct b.
    + destruct i1 as [|x i1]; [done|]. cbn [Lst.next mbind Lst.result_bind] in Hm.
      destruct (Lst.merge_lists_loop bs i0 i1) as [[[o q0] q1]|] eqn:Hl; [|done].
      cbn in Hm. injection Hm as <- <- <-.
      destruct (IH _ _ _ Hl) as (Hlen & -> & ->).
      rewrite masked_cons_eq, masked_cons_ne by done. simpl. by rewrite Hlen.
    + destruct i0 as [|x i0]; [done|]. cbn [Lst.next mbind Lst.result_bind] in Hm.
      destruct (Lst.merge_lists_loop bs i0 i1) as [[[o q0] q1]|] eqn:Hl; [|done].
      cbn in Hm. injection Hm as <- <- <-.
      destruct (IH _ _ _ Hl) as (Hlen & -> & ->).
      rewrite masked_cons_eq, masked_cons_ne by done. simpl. by rewrite Hlen.
Qed.

Lemma merge_lists_ok bs (l0 l1 : list A) out :
  Lst.merge_lists bs l0 l1 = Lst.Ok out
  ↔ Lst.merge_lists_loop bs l0 l1 = Lst.Ok (out, [], []).
Proof.
  unfold Lst.merge_lists. split.
  - destruct (_ && _); [|done].
    destruct (Lst.merge_lists_loop bs l0 l1) as [[[o q0] q1]|]; [|done].
    cbn. destruct q0, q1; try done. by intros [= ->].
  - intros Hl. rewrite Hl. cbn.
    apply merge_lists_loop_inv in Hl as (Hlen & -> & ->).
    destruct (masked_count bs out Hlen) as [Ht Hf].
    rewrite !app_nil_r, Ht, Hf. by rewrite !bool_decide_eq_true_2 by done.
Qed.

(** X8.  [merge_lists] is the inverse of [partition_list]: a mask splits a
    list into two lists exactly when the mask merges the two lists into
    that list. *)
Theorem partition_list_merge_lists bs l (l0 l1 : list A) :
  Lst.partition_list bs l = Lst.Ok (l0, l1)
  ↔ Lst.merge_lists bs l0 l1 = Lst.Ok l.
Proof.
  rewrite merge_lists_ok. unfold Lst.partition_list. split.
  - case_bool_decide as Hlen; [|done]. rewrite partition_list_loop.
    intros [= <- <-].
    pose proof (merge_lists_loop_masked bs l [] [] Hlen) as Hm.
    by rewrite !app_nil_r in Hm.
  - intros (Hlen & -> & ->)%merge_lists_loop_inv.
    rewrite bool_decide_eq_true_2 by done.
    by rewrite partition_list_loop, !app_nil_r.
Qed.

Lemma getitem_0 l :
  Lst.getitem l 0
  = match l with [] => Lst.Err Lst.IndexError | x :: _ => Lst.Ok x end.
Proof.
  unfold Lst.getitem, Lst.position. destruct l as [|x l]; [done|].
  cbv zeta. rewrite (decide_False (P := (0 < 0)%Z)) by lia.
  by rewrite decide_True by (simpl; lia).
Qed.

Lemma from_1 l : Lst.from l 1 = tail l.
Proof.
  rewrite from_nonneg by lia. by destruct l as [|x [|y l]].
Qed.

Lemma merge_ok sides l (r : list A) out :
  Lst.merge sides l r = Lst.Ok out
  ↔ Lst.merge_lists_loop sides r l = Lst.Ok (out, [], []).
Proof.
  revert l r out. induction sides as [|s sides IH]; intros l r out.
  - cbn. destruct r, l; split; try done; by intros [= ->].
  - cbn [Lst.merge Lst.merge_lists_loop]. destruct s.
    + rewrite getitem_0, from_1. destruct l as [|x l]; [done|].
      cbn [tail Lst.next mbind Lst.result_bind].
      destruct (Lst.merge sides l r) as [o|] eqn:Hm.
      * apply IH in Hm. rewrite Hm. cbn. split; congruence.
      * destruct (Lst.merge_lists_loop sides r l) as [[[o q0] q1]|] eqn:Hl;
          [|done].
        cbn. split; [done|]. intros [= <- -> ->]. apply IH in Hl. congruence.
    + rewrite getitem_0, from_1. destruct r as [|x r]; [done|].
      cbn [tail Lst.next mbind Lst.result_bind].
      destruct (Lst.merge sides l r) as [o|] eqn:Hm.
      * apply IH in Hm. rewrite Hm. cbn. split; congruence.
      * destruct (Lst.merge_lists_loop sides r l) as [[[o q0] q1]|] eqn:Hl;
          [|done].
        cbn. split; [done|]. intros [= <- -> ->]. apply IH in Hl. congruence.
Qed.

Lemma split_merge_sides (predicate : A → bool) l :
  (filter (λ xs, xs.2 = true) (zip l (predicate <$> l))).*1
  = masked true (predicate <$> l) l
  ∧ (filter (λ xs, xs.2 ≠ true) (zip l (predicate <$> l))).*1
    = masked false (predicate <$> l) l.
Proof.
  induction l as [|x l [IHt IHf]]; [done|].
  rewrite fmap_cons. destruct (predicate x) eqn:Hp.
  - rewrite masked_cons_eq, masked_cons_ne by done. cbn [zip zip_with].
    rewrite filter_cons_True, filter_cons_False by (cbn; naive_solver).
    rewrite !fmap_cons. cbn [fst snd]. by rewrite IHt, IHf.
  - rewrite masked_cons_eq, masked_cons_ne by done. cbn [zip zip_with].
    rewrite filter_cons_False, filter_cons_True by (cbn; naive_solver).
    rewrite !fmap_cons. cbn [fst snd]. by rewrite IHt, IHf.
Qed.

(** X9.  The function that [split_merge] returns merges exactly as
    [merge_lists] does for the computed sides, with the two lists in the
    other order; and the two lists that [split_merge] returns are those of
    [partition_list], in the other order. *)
Theorem split_merge_as_partition (predicate : A → bool) l :
  let '(lhs, rhs, merge) := Lst.split_merge predicate l in
  Lst.partition_list (predicate <$> l) l = Lst.Ok (rhs, lhs)
  ∧ ∀ new_lhs new_rhs out,
      merge new_lhs new_rhs = Lst.Ok out
      ↔ Lst.merge_lists (predicate <$> l) new_rhs new_lhs = Lst.Ok out.
Proof.
  unfold Lst.split_merge. destruct (split_merge_sides predicate l) as [-> ->].
  split.
  - unfold Lst.partition_list.
    rewrite bool_decide_eq_true_2 by (by rewrite length_fmap).
    by rewrite partition_list_loop.
  - intros new_lhs new_rhs out. by rewrite merge_ok, merge_lists_ok.
Qed.

Lemma masked_fmap (f g : A → A) (predicate : A → bool) (b : bool) l :
  masked b (predicate <$> l) ((λ x, if predicate x then f x else g x) <$> l)
  = (if b then f else g) <$> masked b (predicate <$> l) l.
Proof.
  induction l as [|x l IH]; [done|]. rewrite !fmap_cons.
  destruct (decide (predicate x = b)) as [<-|Hne].
  - rewrite !masked_cons_eq, fmap_cons, IH. by destruct (predicate x).
  - by rewrite !masked_cons_ne.
Qed.

(** X10.  [split_merge] splits a list by a predicate so that its [merge]
    puts it back: given the two lists, each mapped through a function of
    its own, [merge] returns the original list with every element mapped
    through the function of its side.  With the lists unchanged it returns
    the original list. *)
Theorem split_merge_merge (predicate : A → bool) (f g : A → A) l :
  let '(lhs, rhs, merge) := Lst.split_merge predicate l in
  merge (f <$> lhs) (g <$> rhs)
  = Lst.Ok ((λ x, if predicate x then f x else g x) <$> l)
  ∧ merge lhs rhs = Lst.Ok l.
Proof.
  unfold Lst.split_merge. destruct (split_merge_sides predicate l) as [-> ->].
  assert (∀ f g : A → A,
    Lst.merge (predicate <$> l) (f <$> masked true (predicate <$> l) l)
      (g <$> masked false (predicate <$> l) l)
    = Lst.Ok ((λ x, if predicate x then f x else g x) <$> l)) as Hm.
  { intros f' g'. apply merge_ok.
    rewrite <- (masked_fmap f' g' predicate true),
            <- (masked_fmap f' g' predicate false).
    pose proof (merge_lists_loop_masked (predicate <$> l)
      ((λ x, if predicate x then f' x else g' x) <$> l) [] []) as Hl.
    rewrite !app_nil_r in Hl. apply Hl. by rewrite !length_fmap. }
  split; [apply Hm|].
  specialize (Hm id id). rewrite !list_fmap_id in Hm. rewrite Hm. f_equal.
  rewrite <- (list_fmap_id l) at 2. apply list_fmap_ext. intros _ x _.
  by destruct (predicate x).
Qed.
End PartitionFacts.

(** ** tuple_insert, tuple_delete, tuple_update, subvals *)

Section TupleFacts.
Context {A : Type}.
Implicit Types (t l lst out : list A) (idx i : Z) (val v x : A).

Lemma position_spec (len : nat) i (k : nat) :
  Lst.position len i = Some k
  ↔ (- Z.of_nat len ≤ i < Z.of_nat len)%Z
    ∧ k = Z.to_nat (if decide (i < 0)%Z then i + Z.of_nat len else i)%Z.
Proof.
  unfold Lst.position. cbv zeta.
  destruct (decide (i < 0)%Z); case_decide; split;
    try (intros [= <-]; split; [lia|done]);
    try (intros [? ->]; done); try done; intros [? _]; lia.
Qed.

Lemma position_None (len : nat) i :
  Lst.position len i = None ↔ ¬ (- Z.of_nat len ≤ i < Z.of_nat len)%Z.
Proof.
  unfold Lst.position. cbv zeta.
  destruct (decide (i < 0)%Z); case_decide; split; try done; lia.
Qed.

Lemma getitem_nonneg l i x :
  (0 ≤ i)%Z → Lst.getitem l i = Lst.Ok x ↔ l !! Z.to_nat i = Some x.
Proof.
  intros Hi. unfold Lst.getitem.
  destruct (Lst.position (length l) i) as [k|] eqn:Hp.
  - apply position_spec in Hp as [Hr ->]. rewrite decide_False by lia.
    destruct (l !! Z.to_nat i); split; congruence.
  - apply position_None in Hp. split; [done|]. intros Hl%lookup_lt_Some. lia.
Qed.

(** X11.  [tuple_insert] accepts an index from 0 to the length of the
    tuple and nothing else (a negative index is an [AssertionError]).  The
    result is one longer, holds the value at the index, and
    [tuple_delete] at the same index gives the original tuple back. *)
Theorem tuple_insert_delete t idx val :
  ((0 ≤ idx ≤ Z.of_nat (length t))%Z →
   ∃ t', Lst.tuple_insert t idx val = Lst.Ok t'
         ∧ length t' = S (length t)
         ∧ Lst.getitem t' idx = Lst.Ok val
         ∧ Lst.tuple_delete t' idx = Lst.Ok t)
  ∧ (¬ (0 ≤ idx ≤ Z.of_nat (length t))%Z →
     Lst.tuple_insert t idx val = Lst.Err Lst.AssertionError).
Proof.
  unfold Lst.tuple_insert. split; intros Hidx.
  - rewrite bool_decide_eq_true_2 by done. eexists. split; [done|].
    rewrite upto_nonneg, from_nonneg by lia.
    assert (length (take (Z.to_nat idx) t) = Z.to_nat idx) as Htake
      by (rewrite length_take; lia).
    split; [|split].
    + rewrite !length_app, length_take, length_drop. simpl. lia.
    + apply getitem_nonneg; [lia|].
      rewrite lookup_app_r by lia. by rewrite Htake, Nat.sub_diag.
    + unfold Lst.tuple_delete.
      rewrite bool_decide_eq_true_2
        by (rewrite !length_app, length_take, length_drop; simpl; lia).
      f_equal. rewrite upto_nonneg, from_nonneg by lia.
      rewrite take_app_length' by done.
      replace (Z.to_nat (idx + 1)) with (length (take (Z.to_nat idx) t) + 1)
        by lia.
      rewrite <- drop_drop, drop_app_length. simpl. rewrite drop_0.
      apply take_drop.
  - by rewrite bool_decide_eq_false_2.
Qed.

Lemma tuple_delete_ok t idx :
  (0 ≤ idx < Z.of_nat (length t))%Z →
  Lst.tuple_delete t idx = Lst.Ok (delete (Z.to_nat idx) t).
Proof.
  intros Hidx. unfold Lst.tuple_delete.
  rewrite bool_decide_eq_true_2 by done. f_equal.
  rewrite upto_nonneg, from_nonneg by lia.
  replace (Z.to_nat (idx + 1)) with (S (Z.to_nat idx)) by lia.
  by rewrite delete_take_drop.
Qed.

(** X12.  [tuple_delete] accepts an index below the length of the tuple,
    and not a negative one; it removes the element at the index, so that
    [tuple_insert] of that element at the same index restores the
    tuple. *)
Theorem tuple_delete_insert t idx :
  ((0 ≤ idx < Z.of_nat (length t))%Z →
   ∃ x t', Lst.getitem t idx = Lst.Ok x
           ∧ Lst.tuple_delete t idx = Lst.Ok t'
           ∧ t' = delete (Z.to_nat idx) t
           ∧ Lst.tuple_insert t' idx x = Lst.Ok t)
  ∧ (¬ (0 ≤ idx < Z.of_nat (length t))%Z →
     Lst.tuple_delete t idx = Lst.Err Lst.AssertionError).
Proof.
  split; intros Hidx; [|unfold Lst.tuple_delete; by rewrite bool_decide_eq_false_2].
  - destruct (lookup_lt_is_Some_2 t (Z.to_nat idx)) as [x Hx]; [lia|].
    exists x, (delete (Z.to_nat idx) t).
    split; [by apply getitem_nonneg; [lia|]|].
    split; [by apply tuple_delete_ok|]. split; [done|].
    rewrite delete_take_drop. unfold Lst.tuple_insert.
    assert (length (take (Z.to_nat idx) t) = Z.to_nat idx) as Htake
      by (rewrite length_take; lia).
    rewrite bool_decide_eq_true_2 by (rewrite length_app, Htake; lia).
    f_equal. rewrite upto_nonneg, from_nonneg by lia.
    rewrite take_app_length' by done. rewrite drop_app_length' by done.
    rewrite <- (take_drop_middle t (Z.to_nat idx) x) at 3 by done. done.
Qed.

Lemma insert_middle l (k : nat) x v :
  k < length l → l !! k = Some x →
  <[k := v]> l = take k l ++ v :: drop (S k) l.
Proof.
  intros Hk Hx. rewrite <- (take_drop_middle l k x) at 1 by done.
  rewrite insert_app_r_alt by (rewrite length_take; lia).
  by rewrite length_take, Nat.min_l, Nat.sub_diag by lia.
Qed.

Lemma setitem_spec l i v :
  Lst.setitem l i v
  = match Lst.position (length l) i with
    | Some k => Lst.Ok (<[k := v]> l)
    | None => Lst.Err Lst.IndexError
    end.
Proof. done. Qed.

(** X13.  [tuple_update] accepts an index below the length of the tuple
    and then replaces the element there: the same as [tuple_delete]
    followed by [tuple_insert], and the same as [subvals] with one
    replacement.  A negative index, which [subvals] counts from the end,
    is an [AssertionError] for [tuple_update]. *)
Theorem tuple_update_spec t idx val :
  ((0 ≤ idx < Z.of_nat (length t))%Z →
   Lst.tuple_update t idx val = Lst.Ok (<[Z.to_nat idx := val]> t)
   ∧ Lst.tuple_update t idx val
     = (t' ← Lst.tuple_delete t idx; Lst.tuple_insert t' idx val)
   ∧ Lst.tuple_update t idx val = Lst.subvals t [(idx, val)])
  ∧ (¬ (0 ≤ idx < Z.of_nat (length t))%Z →
     Lst.tuple_update t idx val = Lst.Err Lst.AssertionError)
  ∧ ((- Z.of_nat (length t) ≤ idx < 0)%Z →
     Lst.subvals t [(idx, val)]
     = Lst.Ok (<[Z.to_nat (idx + Z.of_nat (length t)) := val]> t)).
Proof.
  split; [|split]; intros Hidx.
  - assert (Lst.tuple_update t idx val = Lst.Ok (<[Z.to_nat idx := val]> t))
      as Hup.
    { unfold Lst.tuple_update. rewrite bool_decide_eq_true_2 by done. f_equal.
      rewrite upto_nonneg, from_nonneg by lia.
      replace (Z.to_nat (idx + 1)) with (S (Z.to_nat idx)) by lia.
      destruct (lookup_lt_is_Some_2 t (Z.to_nat idx)) as [x Hx]; [lia|].
      by rewrite (insert_middle t _ x) by (done || lia). }
    split; [done|]. split.
    + rewrite (tuple_delete_ok t idx Hidx).
      cbn [mbind Lst.result_bind]. rewrite Hup. unfold Lst.tuple_insert.
      assert (length (delete (Z.to_nat idx) t) = length t - 1) as Hdel
        by (apply length_delete, lookup_lt_is_Some_2; lia).
      rewrite bool_decide_eq_true_2 by lia.
      f_equal. rewrite upto_nonneg, from_nonneg by lia.
      rewrite delete_take_drop.
      assert (length (take (Z.to_nat idx) t) = Z.to_nat idx) as Htake
        by (rewrite length_take; lia).
      rewrite take_app_length', drop_app_length' by done.
      destruct (lookup_lt_is_Some_2 t (Z.to_nat idx)) as [y Hy]; [lia|].
      by rewrite (insert_middle t _ y) by (done || lia).
    + rewrite Hup. cbn [Lst.subvals]. rewrite setitem_spec.
      destruct (Lst.position (length t) idx) as [k|] eqn:Hp.
      * apply position_spec in Hp as [_ ->]. by rewrite decide_False by lia.
      * apply position_None in Hp. lia.
  - unfold Lst.tuple_update. by rewrite bool_decide_eq_false_2.
  - cbn [Lst.subvals]. rewrite setitem_spec.
    destruct (Lst.position (length t) idx) as [k|] eqn:Hp.
    + apply position_spec in Hp as [_ ->]. by rewrite decide_True by lia.
    + apply position_None in Hp. lia.
Qed.

(** The replacements whose index is within the bounds of a list of
    length [len]. *)
Local Abbreviation within_bounds len replace :=
  (Forall (λ iv : Z * A, (- Z.of_nat len ≤ iv.1 < Z.of_nat len)%Z) replace).

Lemma subvals_app lst replace1 replace2 :
  Lst.subvals lst (replace1 ++ replace2)
  = (lst' ← Lst.subvals lst replace1; Lst.subvals lst' replace2).
Proof.
  revert lst. induction replace1 as [|[i v] replace1 IH]; intros lst; [done|].
  cbn [app Lst.subvals]. destruct (Lst.setitem lst i v); [|done].
  cbn [mbind Lst.result_bind]. apply IH.
Qed.

Lemma subvals_ok lst (replace : list (Z * A)) :
  within_bounds (length lst) replace →
  ∃ out, Lst.subvals lst replace = Lst.Ok out ∧ length out = length lst.
Proof.
  intros Hall. revert lst Hall.
  induction replace as [|[i v] replace IH]; intros lst Hall.
  - by exists lst.
  - apply Forall_cons in Hall as [Hi Hall]. cbn [Lst.subvals].
    rewrite setitem_spec.
    destruct (Lst.position (length lst) i) as [k|] eqn:Hp;
      [|apply position_None in Hp; done].
    cbn [mbind Lst.result_bind].
    destruct (IH (<[k := v]> lst)) as (out & Hout & Hlen).
    { by rewrite length_insert. }
    exists out. split; [done|]. by rewrite Hlen, length_insert.
Qed.

Lemma subvals_err lst (replace : list (Z * A)) :
  ¬ within_bounds (length lst) replace →
  Lst.subvals lst replace = Lst.Err Lst.IndexError.
Proof.
  revert lst. induction replace as [|[i v] replace IH]; intros lst Hall.
  - destruct Hall. constructor.
  - cbn [Lst.subvals]. rewrite setitem_spec.
    destruct (Lst.position (length lst) i) as [k|] eqn:Hp; [|done].
    cbn [mbind Lst.result_bind]. apply IH. rewrite length_insert.
    intros Hrest. apply Hall. constructor; [|done].
    by apply position_spec in Hp as [? _].
Qed.

Lemma subvals_untouched lst (replace : list (Z * A)) out (k : nat) :
  Lst.subvals lst replace = Lst.Ok out →
  Forall (λ iv : Z * A, Lst.position (length lst) iv.1 ≠ Some k) replace →
  out !! k = lst !! k.
Proof.
  revert lst. induction replace as [|[i v] replace IH]; intros lst Hs Hk.
  - by injection Hs as <-.
  - apply Forall_cons in Hk as [Hi Hk]. cbn [Lst.subvals] in Hs.
    rewrite setitem_spec in Hs.
    destruct (Lst.position (length lst) i) as [j|] eqn:Hp; [|done].
    cbn [mbind Lst.result_bind] in Hs.
    rewrite (IH _ Hs) by (by rewrite length_insert).
    apply list_lookup_insert_ne. cbn in Hi. congruence.
Qed.

(** X14.  [subvals] succeeds exactly when every index is within the
    bounds of the list, a negative index counting from the end; otherwise
    it raises [IndexError].  On success the result has the length of the
    list, a position that no replacement names keeps its element, and the
    value of the last replacement is found at its index, whatever came
    before. *)
Theorem subvals_spec lst (replace : list (Z * A)) :
  (within_bounds (length lst) replace →
   ∃ out,
     Lst.subvals lst replace = Lst.Ok out
     ∧ length out = length lst
     ∧ (∀ k : nat,
          Forall (λ iv : Z * A, Lst.position (length lst) iv.1 ≠ Some k)
            replace →
          out !! k = lst !! k)
     ∧ (∀ before i v, replace = before ++ [(i, v)] →
          Lst.getitem out i = Lst.Ok v))
  ∧ (¬ within_bounds (length lst) replace →
     Lst.subvals lst replace = Lst.Err Lst.IndexError).
Proof.
  split; [|apply subvals_err]. intros Hall.
  destruct (subvals_ok lst replace Hall) as (out & Hout & Hlen).
  exists out. split; [done|]. split; [done|]. split.
  - intros k. by apply subvals_untouched.
  - intros before i v ->. rewrite subvals_app in Hout.
    apply Forall_app in Hall as [Hb Hi].
    destruct (subvals_ok lst before Hb) as (mid & Hmid & Hlm).
    rewrite Hmid in Hout. cbn [mbind Lst.result_bind Lst.subvals] in Hout.
    rewrite setitem_spec in Hout. rewrite Forall_singleton in Hi.
    cbn [fst] in Hi.
    unfold Lst.getitem. rewrite Hlen, <- Hlm.
    destruct (Lst.position (length mid) i) as [k|] eqn:Hp;
      [|apply position_None in Hp; lia].
    cbn in Hout. injection Hout as <-.
    rewrite list_lookup_insert_eq; [done|].
    apply position_spec in Hp as [? ->]. case_decide; lia.
Qed.
End TupleFacts.

(** ** canonicalize_axis, canonicalize_axis_tuple, ceil_of_ratio *)

Section AxisFacts.
Implicit Types (axis ndim num_dims a : Z) (axes : list Z).

(** X15.  [canonicalize_axis] accepts exactly the axes from [-num_dims] to
    [num_dims - 1] and raises [ValueError] for the others.  The result is
    the axis modulo [num_dims], which lies from 0 to [num_dims - 1], and
    a canonical axis is returned as it is. *)
Theorem canonicalize_axis_spec axis num_dims :
  ((- num_dims ≤ axis < num_dims)%Z →
   Lst.canonicalize_axis axis num_dims = Lst.Ok (axis `mod` num_dims)%Z
   ∧ (0 ≤ axis `mod` num_dims < num_dims)%Z
   ∧ Lst.canonicalize_axis (axis `mod` num_dims) num_dims
     = Lst.Ok (axis `mod` num_dims)%Z)
  ∧ (¬ (- num_dims ≤ axis < num_dims)%Z →
     Lst.canonicalize_axis axis num_dims
     = Lst.Err (Lst.ValueError "axis is out of bounds for array of dimension"
                  [axis; num_dims])).
Proof.
  unfold Lst.canonicalize_axis. split; intros Hax.
  - assert (0 ≤ axis `mod` num_dims < num_dims)%Z as Hm
      by (apply Z.mod_pos_bound; lia).
    assert ((if bool_decide (axis < 0)%Z then axis + num_dims else axis)%Z
            = (axis `mod` num_dims)%Z) as Hc.
    { case_bool_decide.
      - apply (Z.mod_unique_pos axis num_dims (-1)); lia.
      - symmetry. apply Z.mod_small. lia. }
    rewrite bool_decide_eq_true_2 by done. cbn [negb]. split; [|split].
    + rewrite <- Hc. by case_bool_decide.
    + done.
    + rewrite bool_decide_eq_true_2 by lia. cbn [negb].
      by rewrite bool_decide_eq_false_2 by lia.
  - by rewrite bool_decide_eq_false_2.
Qed.

Lemma canonicalize_axis_ok axis ndim a :
  Lst.canonicalize_axis axis ndim = Lst.Ok a →
  (- ndim ≤ axis < ndim)%Z ∧ a = (axis `mod` ndim)%Z ∧ (0 ≤ a < ndim)%Z.
Proof.
  unfold Lst.canonicalize_axis. case_bool_decide as Hax; [|done].
  cbn [negb]. case_bool_decide as Hneg; intros [= <-].
  - split; [done|]. split; [|lia].
    apply (Z.mod_unique_pos axis ndim (-1)); lia.
  - split; [done|]. split; [|lia]. symmetry. apply Z.mod_small. lia.
Qed.

Lemma canonicalize_each_ok axes ndim out :
  Lst.canonicalize_each axes ndim = Lst.Ok out →
  out = (λ a, a `mod` ndim)%Z <$> axes
  ∧ Forall (λ a, 0 ≤ a < ndim)%Z out.
Proof.
  revert out. induction axes as [|i axes IH]; intros out Hok.
  - by injection Hok as <-.
  - cbn [Lst.canonicalize_each] in Hok.
    destruct (Lst.canonicalize_axis i ndim) as [a|] eqn:Ha; [|done].
    destruct (Lst.canonicalize_each axes ndim) as [rest|]; [|done].
    cbn in Hok. injection Hok as <-.
    apply canonicalize_axis_ok in Ha as (_ & -> & Hr).
    destruct (IH rest eq_refl) as [-> Hall]. split; [done|]. by constructor.
Qed.

Lemma remove_dups_length (l : list Z) : length (remove_dups l) ≤ length l.
Proof.
  induction l as [|x l IH]; [done|]. cbn [remove_dups].
  destruct (decide_rel _ x l); simpl; lia.
Qed.

Lemma remove_dups_same_length (l : list Z) :
  length (remove_dups l) = length l → NoDup l.
Proof.
  induction l as [|x l IH]; [constructor|]. cbn [remove_dups].
  pose proof (remove_dups_length l).
  destruct (decide_rel _ x l) as [Hin|Hin]; simpl; intros Hlen; [lia|].
  constructor; [done|]. apply IH. lia.
Qed.

Lemma range_spec ndim a : a ∈ Lst.range ndim ↔ (0 ≤ a < ndim)%Z.
Proof.
  unfold Lst.range. rewrite list_elem_of_fmap. split.
  - intros (k & -> & Hk%elem_of_seq). lia.
  - intros Ha. exists (Z.to_nat a). split; [lia|]. apply elem_of_seq. lia.
Qed.

Lemma range_NoDup ndim : NoDup (Lst.range ndim).
Proof.
  unfold Lst.range. apply NoDup_fmap_2; [|apply NoDup_seq].
  intros ???. lia.
Qed.

(** X16.  Every axis that [canonicalize_axis_tuple] returns lies from 0 to
    [ndim - 1].  Unless duplicates are allowed, the axes returned are
    pairwise different, hence no more than [ndim]. *)
Theorem canonicalize_axis_tuple_spec arg ndim allow_duplicate axes :
  Lst.canonicalize_axis_tuple arg ndim allow_duplicate = Lst.Ok axes →
  Forall (λ a, 0 ≤ a < ndim)%Z axes
  ∧ (allow_duplicate = false → NoDup axes ∧ length axes ≤ Z.to_nat ndim).
Proof.
  intros Hok.
  assert (Forall (λ a, 0 ≤ a < ndim)%Z axes → NoDup axes →
          length axes ≤ Z.to_nat ndim) as Hlen.
  { intros Hall Hnd. replace (Z.to_nat ndim) with (length (Lst.range ndim))
      by (unfold Lst.range; by rewrite length_fmap, length_seq).
    apply submseteq_length, NoDup_submseteq; [done|].
    intros a Ha. apply range_spec. by eapply Forall_forall in Hall. }
  destruct arg as [|input|i]; cbn [Lst.canonicalize_axis_tuple] in Hok.
  - injection Hok as <-.
    assert (Forall (λ a, 0 ≤ a < ndim)%Z (Lst.range ndim)) as Hall
      by (apply Forall_forall; intros a; apply range_spec).
    split; [done|]. intros _. pose proof (range_NoDup ndim). auto.
  - destruct (Lst.canonicalize_each input ndim) as [out|] eqn:Hout; [|done].
    cbn [mbind Lst.result_bind] in Hok.
    apply canonicalize_each_ok in Hout as [_ Hall].
    destruct allow_duplicate; cbn [negb andb] in Hok.
    + injection Hok as <-. split; [done|]. done.
    + case_bool_decide as Hd; cbn [negb] in Hok; [|done].
      injection Hok as <-. split; [done|]. intros _.
      apply remove_dups_same_length in Hd. auto.
  - destruct (Lst.canonicalize_axis i ndim) as [a|] eqn:Ha; [|done].
    cbn in Hok. injection Hok as <-.
    apply canonicalize_axis_ok in Ha as (_ & _ & Hr).
    assert (NoDup [a]) by (apply NoDup_singleton).
    split; [by constructor|]. intros _. split; [done|]. simpl. lia.
Qed.

(** X17.  Repetition is looked for after the axes are made canonical: an
    axis given once by its position and once from the end is a repeated
    axis, a [ValueError], and is accepted only when duplicates are
    allowed. *)
Theorem canonicalize_axis_tuple_alias a ndim :
  (0 ≤ a < ndim)%Z →
  Lst.canonicalize_axis_tuple (Lst.AxisSeq [a; a - ndim]%Z) ndim false
  = Lst.Err (Lst.ValueError "repeated axis" [a; a])
  ∧ Lst.canonicalize_axis_tuple (Lst.AxisSeq [a; a - ndim]%Z) ndim true
    = Lst.Ok [a; a].
Proof.
  intros Ha. cbn [Lst.canonicalize_axis_tuple Lst.canonicalize_each].
  assert (Lst.canonicalize_axis a ndim = Lst.Ok a) as ->.
  { unfold Lst.canonicalize_axis. rewrite bool_decide_eq_true_2 by lia.
    cbn [negb]. by rewrite bool_decide_eq_false_2 by lia. }
  assert (Lst.canonicalize_axis (a - ndim) ndim = Lst.Ok a) as ->.
  { unfold Lst.canonicalize_axis. rewrite bool_decide_eq_true_2 by lia.
    cbn [negb]. rewrite bool_decide_eq_true_2 by lia. f_equal. lia. }
  cbn [mbind Lst.result_bind negb andb]. split; [|done].
  cbn [remove_dups]. destruct (decide_rel _ a [a]) as [|Hn].
  - by rewrite bool_decide_eq_false_2 by (simpl; lia).
  - destruct Hn. apply list_elem_of_singleton. done.
Qed.

(** X18.  [ceil_of_ratio] raises [ZeroDivisionError] for a zero divisor
    and otherwise returns the ceiling of the ratio: the least integer
    that is not below [x / y], for a divisor of either sign. *)
Theorem ceil_of_ratio_spec x y :
  (y = 0%Z → Lst.ceil_of_ratio x y = Lst.Err Lst.ZeroDivisionError)
  ∧ ((0 < y)%Z →
     ∃ q, Lst.ceil_of_ratio x y = Lst.Ok q ∧ (y * (q - 1) < x ≤ y * q)%Z)
  ∧ ((y < 0)%Z →
     ∃ q, Lst.ceil_of_ratio x y = Lst.Ok q ∧ (y * q ≤ x < y * (q - 1))%Z).
Proof.
  unfold Lst.ceil_of_ratio. split; [|split]; intros Hy.
  - by rewrite bool_decide_eq_true_2.
  - rewrite bool_decide_eq_false_2 by lia. eexists. split; [done|].
    pose proof (Z.div_mod (- x) y ltac:(lia)).
    pose proof (Z.mod_pos_bound (- x) y Hy). lia.
  - rewrite bool_decide_eq_false_2 by lia. eexists. split; [done|].
    pose proof (Z.div_mod (- x) y ltac:(lia)).
    pose proof (Z.mod_neg_bound (- x) y Hy). lia.
Qed.
End AxisFacts.

(** ** stable_unique and OrderedSet *)

(** The keys of a dictionary after the keys [it] are set in order. *)
Local Abbreviation firsts acc it :=
  (foldl (λ keys k, if decide (k ∈ keys) then keys else keys ++ [k]) acc it).

Section UniqueFacts.
Context {K : Type} `{EqDecision K}.
Implicit Types (it acc l : list K) (x y k : K) (d : list (K * unit)).

Lemma dict_set_keys k d :
  (dict_set k () d).*1 = if decide (k ∈ d.*1) then d.*1 else d.*1 ++ [k].
Proof.
  induction d as [|[k' u] d IH]; [done|]. destruct u. cbn [dict_set].
  destruct (decide (k = k')) as [->|Hne].
  - rewrite decide_True by (rewrite fmap_cons; left). done.
  - rewrite !fmap_cons, IH. cbn [fst].
    destruct (decide (k ∈ d.*1)) as [Hin|Hin].
    + by rewrite decide_True by (by right).
    + rewrite decide_False; [done|]. by intros [?|?]%elem_of_cons.
Qed.

Lemma fromkeys_keys d it :
  (foldl (λ d k, dict_set k () d) d it).*1 = firsts (d.*1) it.
Proof.
  revert d. induction it as [|k it IH]; intros d; [done|].
  cbn [foldl]. by rewrite IH, dict_set_keys.
Qed.

Lemma stable_unique_firsts it : Lst.stable_unique it = firsts [] it.
Proof. unfold Lst.stable_unique, Lst.fromkeys. by rewrite fromkeys_keys. Qed.

Lemma firsts_snoc acc it x :
  firsts acc (it ++ [x])
  = if decide (x ∈ firsts acc it) then firsts acc it else firsts acc it ++ [x].
Proof. by rewrite foldl_app. Qed.

Lemma firsts_elem_of acc it x : x ∈ firsts acc it ↔ x ∈ acc ∨ x ∈ it.
Proof.
  revert acc. induction it as [|k it IH]; intros acc; cbn [foldl].
  - rewrite elem_of_nil. naive_solver.
  - rewrite IH, elem_of_cons. case_decide as Hk.
    + naive_solver.
    + rewrite elem_of_app, list_elem_of_singleton. naive_solver.
Qed.

Lemma firsts_NoDup acc it : NoDup acc → NoDup (firsts acc it).
Proof.
  revert acc. induction it as [|k it IH]; intros acc Hnd; [done|].
  cbn [foldl]. apply IH. case_decide as Hk; [done|].
  apply NoDup_app. split; [done|]. split; [|apply NoDup_singleton].
  intros y Hy ->%list_elem_of_singleton. done.
Qed.

Lemma firsts_split acc it :
  firsts acc it = acc ++ filter (λ y, y ∉ acc) (firsts [] it).
Proof.
  induction it as [|x it IH] using rev_ind.
  - cbn. by rewrite app_nil_r.
  - rewrite !firsts_snoc.
    destruct (decide (x ∈ firsts [] it)) as [Hin|Hin].
    + rewrite decide_True; [done|].
      apply firsts_elem_of. apply firsts_elem_of in Hin as [Hn|Hi].
      * by apply elem_of_nil in Hn.
      * by right.
    + assert (x ∉ it) as Hit
        by (intros Hx; apply Hin, firsts_elem_of; by right).
      rewrite filter_app. destruct (decide (x ∈ acc)) as [Ha|Ha].
      * rewrite decide_True by (apply firsts_elem_of; by left).
        rewrite filter_cons_False by (intros Hx; by apply Hx).
        by rewrite filter_nil, app_nil_r.
      * rewrite decide_False by (by intros [Hx|Hx]%firsts_elem_of).
        rewrite filter_cons_True by done.
        by rewrite filter_nil, app_assoc, <- IH.
Qed.

Lemma filter_all (P : K → Prop) `{∀ x, Decision (P x)} l :
  Forall P l → filter P l = l.
Proof.
  induction 1 as [|x l Hx _ IH]; [done|].
  by rewrite filter_cons_True, IH by done.
Qed.

(** X19.  [stable_unique] returns every element of its argument once, and
    nothing else, in the order of the first occurrences: the first element
    comes first and is removed from what follows.  An argument without
    repetition is returned as it is. *)
Theorem stable_unique_spec it :
  NoDup (Lst.stable_unique it)
  ∧ (∀ x, x ∈ Lst.stable_unique it ↔ x ∈ it)
  ∧ (∀ x, Lst.stable_unique (x :: it)
          = x :: filter (λ y, y ≠ x) (Lst.stable_unique it))
  ∧ (NoDup it → Lst.stable_unique it = it).
Proof.
  assert (∀ x l, Lst.stable_unique (x :: l)
                 = x :: filter (λ y, y ≠ x) (Lst.stable_unique l)) as Hcons.
  { intros x l. rewrite !stable_unique_firsts. cbn [foldl].
    rewrite decide_False by apply not_elem_of_nil. cbn [app].
    rewrite firsts_split. cbn [app]. f_equal. apply list_filter_iff.
    intros y. by rewrite list_elem_of_singleton. }
  assert (∀ x, x ∈ Lst.stable_unique it ↔ x ∈ it) as Hin.
  { intros x. rewrite stable_unique_firsts, firsts_elem_of, elem_of_nil.
    naive_solver. }
  split; [|split; [done|split; [intros x; apply Hcons|]]].
  - rewrite stable_unique_firsts. apply firsts_NoDup, NoDup_nil_2.
  - clear Hin. induction 1 as [|x l Hx Hnd IH]; [done|].
    rewrite Hcons, IH. f_equal. apply filter_all, Forall_forall.
    intros y Hy ->. done.
Qed.

End UniqueFacts.

Section OrderedSetFacts.
Context {K : Type} `{Countable K}.
Implicit Types (self s : Lst.OrderedSet (T := K)) (l : list K) (x y : K).

Lemma add_list s x :
  (∀ y, y ∈ Lst.elts_set s ↔ y ∈ Lst.elts_list s) →
  Lst.elts_list (Lst.add s x)
  = (if decide (x ∈ Lst.elts_list s) then Lst.elts_list s
     else Lst.elts_list s ++ [x])
  ∧ (∀ y, y ∈ Lst.elts_set (Lst.add s x) ↔ y ∈ Lst.elts_list (Lst.add s x)).
Proof.
  intros Hinv. unfold Lst.add. destruct (decide (x ∉ Lst.elts_set s)) as [Hx|Hx].
  - rewrite decide_False by (by rewrite <- Hinv). split; [done|].
    intros y. cbn. rewrite elem_of_union, elem_of_singleton, elem_of_app,
      list_elem_of_singleton, Hinv. done.
  - apply dec_stable in Hx. rewrite decide_True by (by apply Hinv). done.
Qed.

Lemma update_list s l :
  (∀ y, y ∈ Lst.elts_set s ↔ y ∈ Lst.elts_list s) →
  Lst.elts_list (Lst.update s l) = firsts (Lst.elts_list s) l
  ∧ (∀ y, y ∈ Lst.elts_set (Lst.update s l)
          ↔ y ∈ Lst.elts_list (Lst.update s l)).
Proof.
  unfold Lst.update. revert s. induction l as [|x l IH]; intros s Hinv; [done|].
  cbn [foldl]. destruct (add_list s x Hinv) as [Hl Hs].
  destruct (IH _ Hs) as [Hl' Hs']. split; [by rewrite Hl', Hl | exact Hs'].
Qed.

(** X20.  An [OrderedSet] whose list has no repetition and holds the
    elements of its set keeps both properties under [add] and [update].
    After [update] it contains what it contained and the new elements,
    and it iterates first over what it held, in the same order, then over
    the new elements that it did not hold, in the order of their first
    occurrences. *)
Theorem OrderedSet_update_spec s l :
  NoDup (Lst.elts_list s) →
  (∀ y, y ∈ Lst.elts_set s ↔ y ∈ Lst.elts_list s) →
  NoDup (Lst.elts_list (Lst.update s l))
  ∧ (∀ y, y ∈ Lst.elts_set (Lst.update s l)
          ↔ y ∈ Lst.elts_list (Lst.update s l))
  ∧ (∀ y, Lst.OrderedSet__contains__ (Lst.update s l) y
          = bool_decide (y ∈ Lst.elts_list s ∨ y ∈ l))
  ∧ Lst.OrderedSet__iter__ (Lst.update s l)
    = Lst.OrderedSet__iter__ s
      ++ filter (λ y, y ∉ Lst.elts_list s) (Lst.stable_unique l).
Proof.
  intros Hnd Hinv. destruct (update_list s l Hinv) as [Hl Hs].
  split; [|split; [done|split]].
  - rewrite Hl. by apply firsts_NoDup.
  - intros y. unfold Lst.OrderedSet__contains__. apply bool_decide_ext.
    by rewrite Hs, Hl, firsts_elem_of.
  - unfold Lst.OrderedSet__iter__. by rewrite Hl, firsts_split,
      stable_unique_firsts.
Qed.

(** X21.  A new [OrderedSet] updated with some elements iterates over
    [stable_unique] of these elements, contains exactly these elements,
    and its length is not above their number. *)
Theorem OrderedSet_stable_unique l :
  Lst.OrderedSet__iter__ (Lst.update Lst.OrderedSet__init__ l)
  = Lst.stable_unique l
  ∧ (∀ y, Lst.OrderedSet__contains__ (Lst.update Lst.OrderedSet__init__ l) y
          = bool_decide (y ∈ l))
  ∧ Lst.OrderedSet__len__ (Lst.update Lst.OrderedSet__init__ l) ≤ length l.
Proof.
  assert (∀ y : K, y ∈ Lst.elts_set Lst.OrderedSet__init__
                   ↔ y ∈ Lst.elts_list Lst.OrderedSet__init__) as Hinv.
  { intros y. cbn. rewrite elem_of_empty, elem_of_nil. done. }
  destruct (update_list Lst.OrderedSet__init__ l Hinv) as [Hl Hs].
  cbn [Lst.elts_list Lst.OrderedSet__init__] in Hl.
  unfold Lst.OrderedSet__iter__, Lst.OrderedSet__contains__,
    Lst.OrderedSet__len__.
  rewrite Hl, <- stable_unique_firsts. split; [done|]. split.
  - intros y. apply bool_decide_ext. rewrite Hs, Hl, firsts_elem_of, elem_of_nil.
    naive_solver.
  - rewrite stable_unique_firsts. apply submseteq_length, NoDup_submseteq.
    + apply firsts_NoDup, NoDup_nil_2.
    + intros y [Hy|Hy]%firsts_elem_of; [by apply elem_of_nil in Hy | done].
Qed.
End OrderedSetFacts.

(** ** split_dict *)

Section SplitDictFacts.
Context {K B : Type} `{EqDecision K}.
Implicit Types (dct : list (K * B)) (names : list K) (lst : list B).

Lemma dict_del_keys (name : K) dct :
  (dict_del name dct).*1 = filter (λ k, k ≠ name) dct.*1.
Proof.
  induction dct as [|[k v] dct IH]; [done|]. cbn [dict_del].
  rewrite fmap_cons. cbn [fst]. destruct (decide (name = k)) as [->|Hne].
  - rewrite filter_cons_False by (intros Hk; by apply Hk). done.
  - rewrite filter_cons_True by congruence. by rewrite fmap_cons, IH.
Qed.

Lemma split_dict_loop_ok dct names :
  NoDup names → names ⊆ dct.*1 →
  ∃ lst rest,
    Lst.split_dict_loop dct names = Lst.Ok (lst, rest)
    ∧ Forall2 (λ name v, dict_get name dct = Some v) names lst
    ∧ rest.*1 = filter (λ k, k ∉ names) dct.*1.
Proof.
  revert dct. induction names as [|name names IH]; intros dct Hnd Hsub.
  - exists [], dct. split; [done|]. split; [constructor|].
    symmetry. apply filter_all, Forall_forall. intros k _. apply not_elem_of_nil.
  - apply NoDup_cons in Hnd as [Hnin Hnd]. cbn [Lst.split_dict_loop].
    destruct (dict_get name dct) as [v|] eqn:Hget.
    2:{ apply dict_get_None in Hget. destruct Hget. apply Hsub. left. }
    destruct (IH (dict_del name dct) Hnd) as (lst & rest & Hl & Hv & Hr).
    { intros k Hk. rewrite dict_del_keys. apply list_elem_of_filter.
      split; [by intros ->|]. apply Hsub. by right. }
    exists (v :: lst), rest. rewrite Hl. split; [done|]. split.
    + constructor; [done|]. clear -Hv Hnin.
      induction Hv as [|k b ks bs Hb _ IHv]; constructor.
      * apply not_elem_of_cons in Hnin as [Hne _].
        by rewrite dict_del_get_ne in Hb by done.
      * apply IHv. by apply not_elem_of_cons in Hnin as [_ ?].
    + rewrite Hr, dict_del_keys, list_filter_filter. apply list_filter_iff.
      intros k. rewrite not_elem_of_cons. naive_solver.
Qed.

Lemma split_dict_loop_err dct names :
  ¬ (NoDup names ∧ names ⊆ dct.*1) →
  Lst.split_dict_loop dct names = Lst.Err Lst.KeyError.
Proof.
  revert dct. induction names as [|name names IH]; intros dct Hno.
  - destruct Hno. split; [constructor|]. intros k Hk.
    by apply elem_of_nil in Hk.
  - cbn [Lst.split_dict_loop].
    destruct (dict_get name dct) as [v|] eqn:Hget; [|done].
    rewrite IH; [done|]. intros [Hnd Hsub]. apply Hno. split.
    + apply NoDup_cons. split; [|done]. intros Hin%Hsub.
      rewrite dict_del_keys in Hin. apply list_elem_of_filter in Hin as [? _].
      done.
    + intros k [->|Hk]%elem_of_cons.
      * by eapply dict_get_Some_key.
      * apply Hsub in Hk. by apply dict_del_keys_subseteq in Hk.
Qed.

(** X22.  [split_dict] pops the names from a copy of the dictionary in
    order.  It succeeds exactly when the names are the keys of the
    dictionary, each once, in any order, and then returns the values of
    the names in the order of the names.  A name that is missing or given
    twice raises [KeyError]; a key that is not named makes the final
    [assert] fail. *)
Theorem split_dict_spec dct names :
  NoDup dct.*1 →
  (∀ lst, Lst.split_dict dct names = Lst.Ok lst
          ↔ names ≡ₚ dct.*1
            ∧ Forall2 (λ name v, dict_get name dct = Some v) names lst)
  ∧ (¬ (NoDup names ∧ names ⊆ dct.*1) →
     Lst.split_dict dct names = Lst.Err Lst.KeyError)
  ∧ (NoDup names → names ⊆ dct.*1 → ¬ dct.*1 ⊆ names →
     Lst.split_dict dct names = Lst.Err Lst.AssertionError).
Proof.
  intros Hkeys. unfold Lst.split_dict. split; [|split].
  - intros lst. destruct (decide (NoDup names ∧ names ⊆ dct.*1)) as [[Hnd Hsub]|Hno].
    + destruct (split_dict_loop_ok dct names Hnd Hsub)
        as (vs & rest & -> & Hv & Hr).
      cbn [mbind Lst.result_bind]. split.
      * destruct rest as [|kv rest]; [|done]. intros [= <-]. split; [|done].
        apply NoDup_Permutation; [done..|]. intros k. split; [apply Hsub|].
        intros Hk. destruct (decide (k ∈ names)) as [|Hnin]; [done|].
        assert (k ∈ filter (λ k, k ∉ names) dct.*1) as Hf
          by (by apply list_elem_of_filter).
        rewrite <- Hr in Hf. by apply elem_of_nil in Hf.
      * intros [Hperm Hv']. destruct rest as [|[k v] rest].
        -- f_equal. clear -Hv Hv'. revert lst Hv'.
           induction Hv as [|name v names vs Hn _ IH]; intros lst Hv';
             inversion Hv' as [|? v' ? lst' Hn' Hrest]; subst; [done|].
           f_equal; [congruence|]. by apply IH.
        -- assert (k ∈ filter (λ k, k ∉ names) dct.*1) as Hf
             by (rewrite <- Hr, fmap_cons; left).
           apply list_elem_of_filter in Hf as [Hnin Hk].
           destruct Hnin. by rewrite Hperm.
    + rewrite split_dict_loop_err by done. split; [done|].
      intros [Hperm _]. destruct Hno. split.
      * by rewrite Hperm.
      * intros k. by rewrite Hperm.
  - intros Hno. by rewrite split_dict_loop_err.
  - intros Hnd Hsub Hleft.
    destruct (split_dict_loop_ok dct names Hnd Hsub)
      as (vs & rest & -> & Hv & Hr).
    cbn [mbind Lst.result_bind]. destruct rest as [|kv rest]; [|done].
    destruct Hleft. intros k Hk.
    destruct (decide (k ∈ names)) as [|Hnin]; [done|].
    assert (k ∈ filter (λ k, k ∉ names) dct.*1) as Hf
      by (by apply list_elem_of_filter).
    rewrite <- Hr in Hf. by apply elem_of_nil in Hf.
Qed.
End SplitDictFacts.

(** ** unzip2, unzip3 *)

Section UnzipFacts.
Context {A B C : Type}.

Lemma unzip2_loop (xys : list (A * B)) (xs : list A) (ys : list B) :
  foldl (λ acc xy, (acc.1 ++ [xy.1], acc.2 ++ [xy.2])) (xs, ys) xys
  = (xs ++ xys.*1, ys ++ xys.*2).
Proof.
  revert xs ys. induction xys as [|[x y] xys IH]; intros xs ys.
  - cbn. by rewrite !app_nil_r.
  - cbn [foldl fst snd]. rewrite IH, !fmap_cons. cbn [fst snd].
    by rewrite <- !app_assoc.
Qed.

Lemma unzip3_loop (xyzs : list (A * B * C)) xs ys zs :
  foldl (λ acc xyz,
           (acc.1.1 ++ [xyz.1.1], acc.1.2 ++ [xyz.1.2], acc.2 ++ [xyz.2]))
    (xs, ys, zs) xyzs
  = (xs ++ xyzs.*1.*1, ys ++ xyzs.*1.*2, zs ++ xyzs.*2).
Proof.
  revert xs ys zs. induction xyzs as [|[[x y] z] xyzs IH]; intros xs ys zs.
  - cbn. by rewrite !app_nil_r.
  - cbn [foldl fst snd]. rewrite IH, !fmap_cons. cbn [fst snd].
    by rewrite <- !app_assoc.
Qed.

Lemma zip_fst_snd_eq (xys : list (A * B)) xs ys :
  (xys.*1 = xs ∧ xys.*2 = ys) ↔ (length xs = length ys ∧ zip xs ys = xys).
Proof.
  split.
  - intros [<- <-]. rewrite !length_fmap. split; [done|]. apply zip_fst_snd.
  - intros [Hlen <-]. split; [by apply fst_zip; lia | by apply snd_zip; lia].
Qed.

(** X23.  [unzip2] and [unzip3] are the inverses of [zip] on sequences of
    equal length: they return the two, or three, sequences of equal
    length whose [zip] is the argument. *)
Theorem unzip_zip (xys : list (A * B)) (xyzs : list (A * B * C)) xs ys zs :
  (Lst.unzip2 xys = (xs, ys) ↔ length xs = length ys ∧ zip xs ys = xys)
  ∧ (Lst.unzip3 xyzs = (xs, ys, zs)
     ↔ length xs = length ys ∧ length ys = length zs
       ∧ zip (zip xs ys) zs = xyzs).
Proof.
  split.
  - unfold Lst.unzip2. rewrite unzip2_loop. cbn [app].
    rewrite <- zip_fst_snd_eq. split; [by intros [= <- <-]|by intros [<- <-]].
  - unfold Lst.unzip3. rewrite unzip3_loop. cbn [app]. split.
    + intros [= <- <- <-]. rewrite !length_fmap. split; [done|].
      split; [done|]. by rewrite !zip_fst_snd.
    + intros (Hxy & Hyz & <-).
      assert (length (zip xs ys) = length zs) as Hl
        by (rewrite length_zip_with; lia).
      rewrite fst_zip, snd_zip by lia. by rewrite fst_zip, snd_zip by lia.
Qed.
End UnzipFacts.

(** ** subs_list, subs_list2 *)

Section SubsFacts.
Context {A : Type}.
Implicit Types (src base out : list A) (subs : list (option Z)).

(** The elements of [out] at the places where [subs] is [None]. *)
Local Abbreviation from_base subs out :=
  ((filter (λ sx, sx.1 = None) (zip subs out)).*2).

Lemma subs_list_loop_inv subs src base out rest :
  Lst.subs_list_loop subs src base = Lst.Ok (out, rest) →
  Forall2 (λ s x, ∀ i, s = Some i → Lst.getitem src i = Lst.Ok x) subs out
  ∧ base = from_base subs out ++ rest.
Proof.
  revert base out. induction subs as [|s subs IH]; intros base out Hl.
  - injection Hl as <- <-. split; [constructor|done].
  - cbn [Lst.subs_list_loop] in Hl. destruct s as [i|].
    + destruct (Lst.getitem src i) as [x|e] eqn:Hx; [|done].
      cbn [mbind Lst.result_bind] in Hl.
      destruct (Lst.subs_list_loop subs src base) as [[o r]|e] eqn:Hl'; [|done].
      cbn in Hl. injection Hl as <- <-. apply IH in Hl' as [Hf Hb]. split.
      * constructor; [|done]. by intros ? [= <-].
      * cbn [zip zip_with]. by rewrite filter_cons_False by done.
    + destruct base as [|b base]; [done|].
      cbn [Lst.next mbind Lst.result_bind] in Hl.
      destruct (Lst.subs_list_loop subs src base) as [[o r]|e] eqn:Hl'; [|done].
      cbn in Hl. injection Hl as <- <-. apply IH in Hl' as [Hf Hb]. split.
      * by constructor.
      * cbn [zip zip_with]. rewrite filter_cons_True by done.
        by rewrite fmap_cons, Hb.
Qed.

Lemma subs_list_loop_ok subs src out rest :
  Forall2 (λ s x, ∀ i, s = Some i → Lst.getitem src i = Lst.Ok x) subs out →
  Lst.subs_list_loop subs src (from_base subs out ++ rest)
  = Lst.Ok (out, rest).
Proof.
  induction 1 as [|s x subs out Hx _ IH]; [done|].
  cbn [Lst.subs_list_loop zip zip_with]. destruct s as [i|].
  - rewrite (Hx i eq_refl). cbn [mbind Lst.result_bind].
    rewrite filter_cons_False by done. by rewrite IH.
  - rewrite filter_cons_True by done. rewrite fmap_cons.
    cbn [app Lst.next mbind Lst.result_bind snd]. by rewrite IH.
Qed.

(** X24.  [subs_list] succeeds exactly when its result can be described
    as follows: it has one element per entry of [subs]; where the entry
    is an index, the element is the one of [src] at that index; and the
    elements at the other places are, in order, all the elements of
    [base]. *)
Theorem subs_list_spec subs src base out :
  Lst.subs_list subs src base = Lst.Ok out
  ↔ Forall2 (λ s x, ∀ i, s = Some i → Lst.getitem src i = Lst.Ok x) subs out
    ∧ base = from_base subs out.
Proof.
  unfold Lst.subs_list. split.
  - destruct (Lst.subs_list_loop subs src base) as [[o r]|e] eqn:Hl; [|done].
    cbn. destruct r; [|done]. intros [= <-].
    apply subs_list_loop_inv in Hl as [Hf Hb]. by rewrite app_nil_r in Hb.
  - intros [Hf ->]. pose proof (subs_list_loop_ok subs src out [] Hf) as Hl.
    rewrite app_nil_r in Hl. by rewrite Hl.
Qed.

(** What [subs_list2] puts at a place with the entries [f]: the element of
    [src1] if the first entry is an index, else the element of [src2] if
    the second is one. *)
Local Abbreviation picks src1 src2 :=
  (λ (f : option Z * option Z) (x : A),
     match f with
     | (Some i, _) => Lst.getitem src1 i = Lst.Ok x
     | (None, Some j) => Lst.getitem src2 j = Lst.Ok x
     | (None, None) => True
     end).
Local Abbreviation from_base2 fs out :=
  ((filter (λ fx, fx.1 = (None, None)) (zip fs out)).*2).

Lemma subs_list2_loop_inv (fs : list (option Z * option Z))
    src1 src2 base out rest :
  Lst.subs_list2_loop fs src1 src2 base = Lst.Ok (out, rest) →
  Forall2 (picks src1 src2) fs out ∧ base = from_base2 fs out ++ rest.
Proof.
  revert base out. induction fs as [|[f1 f2] fs IH]; intros base out Hl.
  - injection Hl as <- <-. split; [constructor|done].
  - cbn [Lst.subs_list2_loop] in Hl. destruct f1 as [i|]; [|destruct f2 as [j|]].
    + destruct (Lst.getitem src1 i) as [x|e] eqn:Hx; [|done].
      cbn [mbind Lst.result_bind] in Hl.
      destruct (Lst.subs_list2_loop fs src1 src2 base) as [[o r]|e] eqn:Hl';
        [|done].
      cbn in Hl. injection Hl as <- <-. apply IH in Hl' as [Hf Hb]. split.
      * by constructor.
      * cbn [zip zip_with]. by rewrite filter_cons_False by done.
    + destruct (Lst.getitem src2 j) as [x|e] eqn:Hx; [|done].
      cbn [mbind Lst.result_bind] in Hl.
      destruct (Lst.subs_list2_loop fs src1 src2 base) as [[o r]|e] eqn:Hl';
        [|done].
      cbn in Hl. injection Hl as <- <-. apply IH in Hl' as [Hf Hb]. split.
      * by constructor.
      * cbn [zip zip_with]. by rewrite filter_cons_False by done.
    + destruct base as [|b base]; [done|].
      cbn [Lst.next mbind Lst.result_bind] in Hl.
      destruct (Lst.subs_list2_loop fs src1 src2 base) as [[o r]|e] eqn:Hl';
        [|done].
      cbn in Hl. injection Hl as <- <-. apply IH in Hl' as [Hf Hb]. split.
      * by constructor.
      * cbn [zip zip_with]. rewrite filter_cons_True by done.
        by rewrite fmap_cons, Hb.
Qed.

Lemma subs_list2_loop_ok (fs : list (option Z * option Z))
    src1 src2 out rest :
  Forall2 (picks src1 src2) fs out →
  Lst.subs_list2_loop fs src1 src2 (from_base2 fs out ++ rest)
  = Lst.Ok (out, rest).
Proof.
  induction 1 as [|[f1 f2] x fs out Hx _ IH]; [done|].
  cbn [Lst.subs_list2_loop zip zip_with].
  destruct f1 as [i|]; [|destruct f2 as [j|]].
  - rewrite Hx. cbn [mbind Lst.result_bind].
    rewrite filter_cons_False by done. by rewrite IH.
  - rewrite Hx. cbn [mbind Lst.result_bind].
    rewrite filter_cons_False by done. by rewrite IH.
  - rewrite filter_cons_True by done. rewrite fmap_cons.
    cbn [app Lst.next mbind Lst.result_bind snd]. by rewrite IH.
Qed.

(** X25.  [subs_list2] succeeds exactly when the two lists of entries
    have the same length and its result can be described as follows: it
    has one element per pair of entries; where the first entry is an
    index the element is the one of [src1] there, whatever the second
    entry; else, where the second entry is an index, the element is the
    one of [src2] there; and the elements at the other places are, in
    order, all the elements of [base]. *)
Theorem subs_list2_spec subs1 subs2 src1 src2 base out :
  Lst.subs_list2 subs1 subs2 src1 src2 base = Lst.Ok out
  ↔ length subs1 = length subs2
    ∧ Forall2 (picks src1 src2) (zip subs1 subs2) out
    ∧ base = from_base2 (zip subs1 subs2) out.
Proof.
  unfold Lst.subs_list2. case_bool_decide as Hlen; [|by split; [|intros []]].
  split.
  - destruct (Lst.subs_list2_loop _ src1 src2 base) as [[o r]|e] eqn:Hl;
      [|done].
    cbn. destruct r; [|done]. intros [= <-].
    apply subs_list2_loop_inv in Hl as [Hf Hb]. by rewrite app_nil_r in Hb.
  - intros (_ & Hf & ->).
    pose proof (subs_list2_loop_ok _ src1 src2 out [] Hf) as Hl.
    rewrite app_nil_r in Hl. by rewrite Hl.
Qed.
End SubsFacts.

(** ** Invariants of a cached function *)

Section CacheInvariants.
Context {V X : Type} `{EqDecision V}.
Variable is_fasttype : V → bool.
Implicit Types (c : cache_fn (V:=V) (X:=X)) (cfg : config (V:=V)).
Implicit Types (st : lru_state V) (w : log V) (x : call (V:=V)).
Implicit Types (args : list V) (kw : kwargs V) (cs : list (call (V:=V))).

(** A cache within its capacity, with its [full] flag set exactly at
    capacity. *)
Local Abbreviation sized c st :=
  (NoDup (entries st).*1
   ∧ ∀ n, maxsize c = Some n →
       length (entries st) ≤ n
       ∧ (full st = true → n ≤ length (entries st))
       ∧ (0 < n → n ≤ length (entries st) → full st = true)).

Lemma sized_new c : sized c (lru_new (V:=V)).
Proof.
  split; [constructor|]. intros n _. cbn. split; [lia|]. split; [done|lia].
Qed.

Lemma wrapper_sized c cfg args kw st w :
  sized c st → sized c (wrapper is_fasttype c cfg args kw st w).1.2.
Proof.
  intros [Hnd Hcap].
  pose proof (wrapper_step is_fasttype c cfg args kw st w) as Hs.
  inversion Hs as [Hb Heq|v Hb Hm Hget Heq|Hb Hmiss Hbind' Heq
                   |e Hb Hmiss Hbind' Hf Heq
                   |v Hb Hm Hbind' Hf Heq|v Hb Hm Hget Hbind' Hf Heq];
    cbn [fst snd]; try done.
  - destruct (maxsize c) as [n|] eqn:Hmax; [|done].
    pose proof (dict_move_perm _ _ _ Hnd Hget) as Hperm. cbn.
    split; [by rewrite Hperm|]. intros m [= <-]. rewrite Hperm. by apply Hcap.
  - pose proof Hget as Hnin. apply dict_get_None in Hnin.
    destruct (maxsize c) as [n|] eqn:Hmax; cbn.
    2:{ split; [|done]. rewrite fmap_app. apply NoDup_app.
        split; [done|]. split; [|apply NoDup_singleton].
        intros k Hk ->%list_elem_of_singleton. done. }
    destruct (Hcap n eq_refl) as (Hle & Hfull & Hset).
    assert (n ≠ 0) as Hn by congruence.
    destruct (full st) eqn:Hf'.
    + specialize (Hfull eq_refl).
      destruct (entries st) as [|[k0 v0] es] eqn:Hes; [simpl in Hfull; lia|].
      cbn [tail]. split.
      * rewrite fmap_app. rewrite fmap_cons in Hnd, Hnin.
        apply NoDup_cons in Hnd as [_ Hnd]. apply not_elem_of_cons in Hnin as [_ ?].
        apply NoDup_app. split; [done|]. split; [|apply NoDup_singleton].
        intros k Hk ->%list_elem_of_singleton. done.
      * intros m [= <-]. rewrite length_app. simpl in *.
        split; [lia|]. split; [lia|done].
    + assert (length (entries st) < n) as Hlt.
      { destruct (decide (n ≤ length (entries st))) as [Hge|]; [|lia].
        specialize (Hset ltac:(lia) Hge). done. }
      split.
      * rewrite fmap_app. apply NoDup_app. split; [done|].
        split; [|apply NoDup_singleton].
        intros k Hk ->%list_elem_of_singleton. done.
      * intros m [= <-]. rewrite length_app. cbn [length orb].
        split; [lia|]. split.
        -- intros Hd%bool_decide_eq_true. lia.
        -- intros _ Hge. apply bool_decide_eq_true. lia.
Qed.

(** X27.  A cache never holds more entries than its capacity, and never
    two entries for one key: this holds in every state the cache can be
    in, after any calls and clearings. *)
Theorem cache_stays_within_max_size c st :
  reachable is_fasttype c st →
  NoDup (entries st).*1
  ∧ ∀ n, maxsize c = Some n → length (entries st) ≤ n.
Proof.
  intros Hr. assert (sized c st) as [Hnd Hcap].
  { induction Hr as [|cfg args kw st w _ IH|st _ _].
    - apply sized_new.
    - by apply wrapper_sized.
    - apply sized_new. }
  split; [done|]. intros n Hn. by apply Hcap.
Qed.

End CacheInvariants.

(** ** HashablePartial and WrapKwArgs *)

Lemma string_compare_refl (s : string) : String.compare s s = Eq.
Proof.
  induction s as [|a s IH]; [done|]. cbn [String.compare].
  unfold Ascii.compare. by rewrite N.compare_refl.
Qed.

Lemma string_compare_lt_trans (s1 s2 s3 : string) :
  String.compare s1 s2 = Lt → String.compare s2 s3 = Lt →
  String.compare s1 s3 = Lt.
Proof.
  revert s2 s3. induction s1 as [|a1 s1 IH]; intros [|a2 s2] [|a3 s3];
    cbn [String.compare]; try done.
  unfold Ascii.compare.
  destruct (N.compare_spec (Ascii.N_of_ascii a1) (Ascii.N_of_ascii a2))
    as [H12|H12|H12]; try done;
  destruct (N.compare_spec (Ascii.N_of_ascii a2) (Ascii.N_of_ascii a3))
    as [H23|H23|H23]; try done;
  destruct (N.compare_spec (Ascii.N_of_ascii a1) (Ascii.N_of_ascii a3))
    as [H13|H13|H13]; try done; try lia; intros; by eapply IH.
Qed.

Lemma string_leb_trans (s1 s2 s3 : string) :
  String.leb s1 s2 = true → String.leb s2 s3 = true → String.leb s1 s3 = true.
Proof.
  unfold String.leb.
  destruct (String.compare s1 s2) eqn:H12; try done;
    destruct (String.compare s2 s3) eqn:H23; try done; intros _ _.
  - apply String.compare_eq_iff in H12, H23. subst.
    by rewrite string_compare_refl.
  - apply String.compare_eq_iff in H12. subst. by rewrite H23.
  - apply String.compare_eq_iff in H23. subst. by rewrite H12.
  - by rewrite (string_compare_lt_trans _ _ _ H12 H23).
Qed.

Section PartialFacts.
Context {V Code : Type}.
Variable item_eq : V → V → bool.
Variable py_hash : V → option Z.
Variable code_eq : Code → Code → bool.
Variable code_hash : Code → Z.
Variable str_hash : string → Z.
Variable tuple_hash : list Z → Z.
Implicit Types (a b items : list (string * V)) (kv : string * V).

(** Python's contract between [==] and [hash]. *)
Hypothesis code_hash_eq :
  ∀ c d, code_eq c d = true → code_hash c = code_hash d.
Hypothesis item_hash_eq : ∀ x y, item_eq x y = true → py_hash x = py_hash y.

Local Abbreviation by_name := (λ x y : string * V, String.leb x.1 y.1 = true).
Local Abbreviation names_le := (λ s t : string, String.leb s t = true).
Local Abbreviation alike :=
  (λ x y : string * V, x.1 = y.1 ∧ item_eq x.2 y.2 = true).

Lemma insert_by_name_perm kv items :
  Partial.insert_by_name kv items ≡ₚ kv :: items.
Proof.
  induction items as [|kv' items IH]; [done|]. cbn [Partial.insert_by_name].
  destruct (String.leb kv.1 kv'.1); [done|]. rewrite IH. apply perm_swap.
Qed.

Lemma sorted_by_name_perm items : Partial.sorted_by_name items ≡ₚ items.
Proof.
  induction items as [|kv items IH]; [done|]. cbn [Partial.sorted_by_name foldr].
  rewrite insert_by_name_perm. by constructor.
Qed.

Lemma insert_by_name_sorted kv items :
  Sorted by_name items → Sorted by_name (Partial.insert_by_name kv items).
Proof.
  induction 1 as [|kv' items Hs IH Hhd]; cbn [Partial.insert_by_name].
  { by repeat constructor. }
  destruct (String.leb kv.1 kv'.1) eqn:Hle.
  - constructor; [by constructor|]. by constructor.
  - constructor; [done|].
    assert (String.leb kv'.1 kv.1 = true) as Hge
      by (destruct (String.leb_total kv.1 kv'.1); congruence).
    destruct Hhd as [|kv2 items Hk]; cbn [Partial.insert_by_name].
    + by constructor.
    + destruct (String.leb kv.1 kv2.1); by constructor.
Qed.

Lemma sorted_by_name_sorted items : Sorted by_name (Partial.sorted_by_name items).
Proof.
  induction items as [|kv items IH]; [constructor|].
  cbn [Partial.sorted_by_name foldr]. by apply insert_by_name_sorted.
Qed.

Lemma dict_get_NoDup (k : string) (v : V) a :
  NoDup a.*1 → (k, v) ∈ a → dict_get k a = Some v.
Proof.
  induction a as [|[k' v'] a IH]; [by intros _ ?%elem_of_nil|].
  rewrite fmap_cons. intros [Hnin Hnd]%NoDup_cons Hin. cbn [dict_get].
  apply elem_of_cons in Hin as [[= <- <-]|Hin].
  - by rewrite decide_True.
  - rewrite decide_False; [by apply IH|]. intros ->. apply Hnin.
    apply list_elem_of_fmap. by exists (k', v).
Qed.

Lemma dict_eq_spec a b :
  Partial.dict_eq item_eq a b = true
  ↔ length a = length b
    ∧ ∀ kv, kv ∈ a →
        ∃ bval, dict_get kv.1 b = Some bval ∧ item_eq kv.2 bval = true.
Proof.
  unfold Partial.dict_eq.
  rewrite andb_true_iff, bool_decide_eq_true, forallb_forall.
  split; intros [Hlen Hall]; (split; [done|]); intros kv Hin.
  - apply list_elem_of_In, Hall in Hin.
    destruct (dict_get kv.1 b) as [bval|]; [|done]. by exists bval.
  - apply list_elem_of_In, Hall in Hin as (bval & -> & Heq). done.
Qed.

Lemma alike_heads (sa sb : list (string * V)) :
  sa.*1 = sb.*1 →
  (∀ x y, x ∈ sa → y ∈ sb → x.1 = y.1 → item_eq x.2 y.2 = true) →
  Forall2 alike sa sb.
Proof.
  revert sb. induction sa as [|x sa IH]; intros [|y sb] Hk Hv; try done.
  rewrite !fmap_cons in Hk. injection Hk as Hxy Hk. constructor.
  - split; [done|]. apply Hv; [left|left|done].
  - apply IH; [done|]. intros x' y' Hx Hy. apply Hv; by right.
Qed.

Lemma sorted_alike a b :
  NoDup a.*1 → NoDup b.*1 →
  Partial.dict_eq item_eq a b = true →
  Forall2 alike (Partial.sorted_by_name a) (Partial.sorted_by_name b).
Proof.
  intros Ha Hb [Hlen Hall]%dict_eq_spec.
  assert (a.*1 ≡ₚ b.*1) as Hperm.
  { apply submseteq_length_Permutation; [|by rewrite !length_fmap, Hlen].
    apply NoDup_submseteq; [done|]. intros k (kv & -> & Hin)%list_elem_of_fmap.
    destruct (Hall kv Hin) as (bval & Hget & _).
    by eapply dict_get_Some_key. }
  assert (Transitive names_le) as Htrans
    by (intros s1 s2 s3; apply string_leb_trans).
  assert (AntiSymm (=) names_le) as Hanti
    by (intros s1 s2; apply String.leb_antisym).
  apply alike_heads.
  - apply (Sorted_unique names_le).
    + apply (Sorted_fmap fst by_name names_le); [done|].
      apply sorted_by_name_sorted.
    + apply (Sorted_fmap fst by_name names_le); [done|].
      apply sorted_by_name_sorted.
    + by rewrite !sorted_by_name_perm.
  - intros x y Hx Hy Hxy. rewrite sorted_by_name_perm in Hx, Hy.
    destruct (Hall x Hx) as (bval & Hget & Heq).
    destruct y as [k v]. cbn [fst snd] in *. subst k.
    rewrite (dict_get_NoDup _ _ _ Hb Hy) in Hget. by injection Hget as <-.
Qed.

Lemma hash_pairs_alike (sa sb : list (string * V)) :
  Forall2 alike sa sb →
  Partial.hash_pairs py_hash str_hash tuple_hash sa
  = Partial.hash_pairs py_hash str_hash tuple_hash sb.
Proof.
  intros Hf. unfold Partial.hash_pairs. f_equal.
  induction Hf as [|x y sa sb [Hk Hv] _ IH]; [done|].
  cbn [mapM]. rewrite IH.
  replace (Partial.hash_pair py_hash str_hash tuple_hash x)
    with (Partial.hash_pair py_hash str_hash tuple_hash y); [done|].
  unfold Partial.hash_pair. by rewrite Hk, (item_hash_eq _ _ Hv).
Qed.

Lemma hash_items_eq (t u : list V) :
  Partial.tuple_eq item_eq t u = true →
  Partial.hash_items py_hash tuple_hash t
  = Partial.hash_items py_hash tuple_hash u.
Proof.
  unfold Partial.tuple_eq, Partial.hash_items.
  intros [Hall Hlen%bool_decide_eq_true]%andb_true_iff. f_equal.
  revert u Hall Hlen. induction t as [|x t IH]; intros [|y u] Hall Hlen;
    try done.
  cbn [zip zip_with forallb fst snd] in Hall.
  apply andb_true_iff in Hall as [Hxy Hall]. cbn [mapM].
  rewrite (item_hash_eq _ _ Hxy), (IH u Hall); [done|].
  by injection Hlen.
Qed.

Local Abbreviation hp_eq := (Partial.HashablePartial__eq__ item_eq code_eq).
Local Abbreviation hp_hash :=
  (Partial.HashablePartial__hash__ py_hash code_hash str_hash tuple_hash).

(** X29.  [HashablePartial]: instances that compare equal have equal hashes,
    also when their keyword arguments were given in different orders;
    and an instance equals nothing that is not a [HashablePartial]. *)
Theorem HashablePartial_equal_hashes
    (self other : Partial.HashablePartial (V:=V) (Code:=Code)) :
  NoDup (Partial.kwargs self).*1 →
  NoDup (Partial.kwargs other).*1 →
  (hp_eq self (Partial.OfHashablePartial other) = true →
   hp_hash self = hp_hash other)
  ∧ hp_eq self Partial.OfOther = false.
Proof.
  intros Hs Ho. split; [|done]. cbn [Partial.HashablePartial__eq__].
  intros [[Hc Ha]%andb_true_iff Hk]%andb_true_iff.
  unfold Partial.HashablePartial__hash__. cbv zeta.
  rewrite (hash_items_eq _ _ Ha), (code_hash_eq _ _ Hc).
  by rewrite (hash_pairs_alike _ _ (sorted_alike _ _ Hs Ho Hk)).
Qed.

Local Abbreviation kw_eq := (Partial.WrapKwArgs__eq__ item_eq).
Local Abbreviation kw_hash :=
  (Partial.WrapKwArgs__hash__ py_hash str_hash tuple_hash).

(** X30.  [WrapKwArgs]: two instances that compare equal have equal hashes; and
    two instances that hold the same keyword arguments in different
    orders compare equal, given that an object equals itself. *)
Theorem WrapKwArgs_keyword_order (self other : Partial.WrapKwArgs (V:=V)) :
  NoDup (Partial.val self).*1 →
  NoDup (Partial.val other).*1 →
  (kw_eq self other = true → kw_hash self = kw_hash other)
  ∧ ((∀ x, item_eq x x = true) →
     Partial.val self ≡ₚ Partial.val other →
     kw_eq self other = true).
Proof.
  intros Hs Ho. split.
  - intros Hk. unfold Partial.WrapKwArgs__hash__.
    by rewrite (hash_pairs_alike _ _ (sorted_alike _ _ Hs Ho Hk)).
  - intros Hrefl Hperm. apply dict_eq_spec. split; [by rewrite Hperm|].
    intros [k v] Hin. exists v. split; [|apply Hrefl].
    apply dict_get_NoDup; [done|]. by rewrite <- Hperm.
Qed.
End PartialFacts.

(** ** The properties above on sample data *)

(** X2 on a list of five elements split by the sizes 2 and 1. *)
Lemma split_list_sizes_witness :
  length <$> Lst.split_list [10; 20; 30; 40; 50]%Z [2; 1]%Z = [2; 1; 2].
Proof.
  apply (split_list_sizes [10; 20; 30; 40; 50]%Z [2; 1]%Z).
  - repeat constructor; lia.
  - unfold Lst.sum. simpl. lia.
Defined.

(** X3 on sizes that fit, and on sizes with a negative one. *)
Lemma split_list_checked_spec_witness :
  (∃ lists,
     Lst.split_list_checked [10; 20; 30]%Z [1; 2]%Z = Lst.Ok lists
     ∧ length <$> lists = [1; 2]
     ∧ Lst.concatenate lists = [10; 20; 30]%Z
     ∧ Lst.split_list [10; 20; 30]%Z [1; 2]%Z = lists ++ [[]])
  ∧ Lst.split_list_checked [10; 20; 30]%Z [4; -1]%Z
    = Lst.Err Lst.AssertionError.
Proof.
  split.
  - apply (split_list_checked_spec [10; 20; 30]%Z [1; 2]%Z).
    split; [repeat constructor; lia | reflexivity].
  - apply (split_list_checked_spec [10; 20; 30]%Z [4; -1]%Z).
    intros [Hall _]. inversion Hall as [|? ? _ Hrest]. inversion Hrest. lia.
Defined.

(** X4 on three elements: sizes that fit (a negative size counts as zero),
    sizes that ask for too much, sizes that leave an element. *)
Lemma unflatten_spec_witness :
  (∃ xss, Lst.unflatten [10; 20; 30]%Z [1; -5; 2]%Z = Lst.Ok xss
          ∧ Lst.concatenate xss = [10; 20; 30]%Z
          ∧ length <$> xss = [1; 0; 2])
  ∧ Lst.unflatten [10; 20; 30]%Z [2; 2]%Z = Lst.Err Lst.StopIteration
  ∧ Lst.unflatten [10; 20; 30]%Z [2]%Z = Lst.Err Lst.AssertionError.
Proof.
  split; [|split].
  - apply (unflatten_spec [10; 20; 30]%Z [1; -5; 2]%Z). reflexivity.
  - apply (unflatten_spec [10; 20; 30]%Z [2; 2]%Z). simpl. lia.
  - apply (unflatten_spec [10; 20; 30]%Z [2]%Z). simpl. lia.
Defined.

(** X6 on three elements split by the sizes 1 and 2. *)
Lemma unflatten_agrees_with_split_list_checked_witness :
  Lst.unflatten [10; 20; 30]%Z [1; 2]%Z = Lst.Ok [[10]; [20; 30]]%Z.
Proof.
  apply (unflatten_agrees_with_split_list_checked [10; 20; 30]%Z [1; 2]%Z).
  reflexivity.
Defined.

(** X11 on the insertion of 99 at index 1, and at a negative index. *)
Lemma tuple_insert_delete_witness :
  (∃ t', Lst.tuple_insert [10; 20; 30]%Z 1 99%Z = Lst.Ok t'
         ∧ length t' = 4
         ∧ Lst.getitem t' 1 = Lst.Ok 99%Z
         ∧ Lst.tuple_delete t' 1 = Lst.Ok [10; 20; 30]%Z)
  ∧ Lst.tuple_insert [10; 20; 30]%Z (-1) 99%Z = Lst.Err Lst.AssertionError.
Proof.
  split.
  - apply (tuple_insert_delete [10; 20; 30]%Z 1 99%Z). simpl. lia.
  - apply (tuple_insert_delete [10; 20; 30]%Z (-1) 99%Z). lia.
Defined.

(** X12 on the deletion at index 1, and at the length of the tuple. *)
Lemma tuple_delete_insert_witness :
  (∃ x t', Lst.getitem [10; 20; 30]%Z 1 = Lst.Ok x
           ∧ Lst.tuple_delete [10; 20; 30]%Z 1 = Lst.Ok t'
           ∧ t' = [10; 30]%Z
           ∧ Lst.tuple_insert t' 1 x = Lst.Ok [10; 20; 30]%Z)
  ∧ Lst.tuple_delete [10; 20; 30]%Z 3 = Lst.Err Lst.AssertionError.
Proof.
  split.
  - apply (tuple_delete_insert [10; 20; 30]%Z 1). simpl. lia.
  - apply (tuple_delete_insert [10; 20; 30]%Z 3). simpl. lia.
Defined.

(** X13 on index 2, and on index -1, which only [subvals] accepts. *)
Lemma tuple_update_spec_witness :
  Lst.tuple_update [10; 20; 30]%Z 2 99%Z = Lst.Ok [10; 20; 99]%Z
  ∧ Lst.tuple_update [10; 20; 30]%Z (-1) 99%Z = Lst.Err Lst.AssertionError
  ∧ Lst.subvals [10; 20; 30]%Z [(-1, 99)]%Z = Lst.Ok [10; 20; 99]%Z.
Proof.
  split; [|split].
  - apply (tuple_update_spec [10; 20; 30]%Z 2 99%Z). simpl. lia.
  - apply (tuple_update_spec [10; 20; 30]%Z (-1) 99%Z). lia.
  - apply (tuple_update_spec [10; 20; 30]%Z (-1) 99%Z). simpl. lia.
Defined.

(** X14 on replacements within bounds, one of them written twice, and on
    a replacement out of bounds. *)
Lemma subvals_spec_witness :
  (∃ out,
     Lst.subvals [10; 20; 30]%Z [(0, 1); (-3, 2)]%Z = Lst.Ok out
     ∧ length out = 3
     ∧ out !! 1 = Some 20%Z
     ∧ Lst.getitem out (-3) = Lst.Ok 2%Z)
  ∧ Lst.subvals [10; 20; 30]%Z [(0, 1); (3, 2)]%Z = Lst.Err Lst.IndexError.
Proof.
  split.
  - destruct (proj1 (subvals_spec [10; 20; 30]%Z [(0, 1); (-3, 2)]%Z))
      as (out & Hout & Hlen & Hkeep & Hlast).
    { repeat constructor; simpl; lia. }
    exists out. split; [exact Hout|]. split; [exact Hlen|]. split.
    + apply (Hkeep 1). repeat constructor; discriminate.
    + apply (Hlast [(0, 1)]%Z). reflexivity.
  - apply (subvals_spec [10; 20; 30]%Z [(0, 1); (3, 2)]%Z).
    intros Hall. inversion Hall as [|? ? _ Hrest].
    inversion Hrest as [|? ? Hin _]. simpl in Hin. lia.
Defined.

(** X15 on the axes -1 and 3 of an array of dimension 3. *)
Lemma canonicalize_axis_spec_witness :
  Lst.canonicalize_axis (-1) 3 = Lst.Ok 2%Z
  ∧ Lst.canonicalize_axis 3 3
    = Lst.Err (Lst.ValueError "axis is out of bounds for array of dimension"
                 [3; 3]%Z).
Proof.
  split.
  - apply (canonicalize_axis_spec (-1) 3). lia.
  - apply (canonicalize_axis_spec 3 3). lia.
Defined.

(** X16 on the axes -1 and 0 of an array of dimension 3. *)
Lemma canonicalize_axis_tuple_spec_witness :
  Forall (λ a, 0 ≤ a < 3)%Z [2; 0]%Z
  ∧ (false = false → NoDup [2; 0]%Z ∧ length [2; 0]%Z ≤ Z.to_nat 3).
Proof.
  apply (canonicalize_axis_tuple_spec (Lst.AxisSeq [-1; 0]%Z) 3 false).
  reflexivity.
Defined.

(** X17 on axis 1 of an array of dimension 3, given as 1 and as -2. *)
Lemma canonicalize_axis_tuple_alias_witness :
  Lst.canonicalize_axis_tuple (Lst.AxisSeq [1; -2]%Z) 3 false
  = Lst.Err (Lst.ValueError "repeated axis" [1; 1]%Z)
  ∧ Lst.canonicalize_axis_tuple (Lst.AxisSeq [1; -2]%Z) 3 true
    = Lst.Ok [1; 1]%Z.
Proof. apply (canonicalize_axis_tuple_alias 1 3). lia. Defined.

(** X18 on 7 / 2, on 7 / -2 and on a zero divisor. *)
Lemma ceil_of_ratio_spec_witness :
  Lst.ceil_of_ratio 7 0 = Lst.Err Lst.ZeroDivisionError
  ∧ (∃ q, Lst.ceil_of_ratio 7 2 = Lst.Ok q ∧ (2 * (q - 1) < 7 ≤ 2 * q)%Z)
  ∧ (∃ q, Lst.ceil_of_ratio 7 (-2) = Lst.Ok q
          ∧ (-2 * q ≤ 7 < -2 * (q - 1))%Z).
Proof.
  split; [|split].
  - apply (ceil_of_ratio_spec 7 0). reflexivity.
  - apply (ceil_of_ratio_spec 7 2). lia.
  - apply (ceil_of_ratio_spec 7 (-2)). lia.
Defined.

(** X20 on a set that holds 3 and 1, updated with 1, 2, 2 and 3. *)
Lemma OrderedSet_update_spec_witness :
  let s := Lst.update Lst.OrderedSet__init__ [3; 1]%Z in
  Lst.OrderedSet__iter__ (Lst.update s [1; 2; 2; 3]%Z)
  = Lst.OrderedSet__iter__ s
    ++ filter (λ y, y ∉ Lst.elts_list s) (Lst.stable_unique [1; 2; 2; 3]%Z).
Proof.
  intros s.
  assert (∀ y : Z, y ∈ Lst.elts_set (Lst.OrderedSet__init__ (T:=Z))
                   ↔ y ∈ Lst.elts_list (Lst.OrderedSet__init__ (T:=Z)))
    as Hinit.
  { intros y. cbn. rewrite elem_of_empty, elem_of_nil. tauto. }
  destruct (OrderedSet_update_spec Lst.OrderedSet__init__ [3; 1]%Z
              (NoDup_nil_2 (A:=Z)) Hinit) as (Hnd & Hinv & _).
  apply (OrderedSet_update_spec s [1; 2; 2; 3]%Z Hnd Hinv).
Defined.

(** X22 on a dictionary with the keys a and b. *)
Lemma split_dict_spec_witness :
  Lst.split_dict [("a", 1); ("b", 2)]%Z ["b"; "a"] = Lst.Ok [2; 1]%Z
  ∧ Lst.split_dict [("a", 1); ("b", 2)]%Z ["b"; "c"] = Lst.Err Lst.KeyError
  ∧ Lst.split_dict [("a", 1); ("b", 2)]%Z ["b"] = Lst.Err Lst.AssertionError.
Proof.
  assert (NoDup ([("a", 1); ("b", 2)]%Z).*1) as Hkeys.
  { apply NoDup_ListNoDup.
    repeat (constructor; [simpl; intuition discriminate|]). constructor. }
  destruct (split_dict_spec [("a", 1); ("b", 2)]%Z ["b"; "a"] Hkeys)
    as (Hok & _ & _).
  destruct (split_dict_spec [("a", 1); ("b", 2)]%Z ["b"; "c"] Hkeys)
    as (_ & Hkey & _).
  destruct (split_dict_spec [("a", 1); ("b", 2)]%Z ["b"] Hkeys)
    as (_ & _ & Hleft).
  split; [|split].
  - apply Hok. split.
    + apply perm_swap.
    + repeat constructor.
  - apply Hkey. intros [_ Hsub].
    assert ("c" ∈ ([("a", 1); ("b", 2)]%Z).*1) as Hc
      by (apply Hsub; right; left).
    cbn in Hc. rewrite !elem_of_cons, elem_of_nil in Hc.
    destruct Hc as [Hc|[Hc|[]]]; discriminate.
  - apply Hleft.
    + apply NoDup_singleton.
    + intros k ->%list_elem_of_singleton. right. left.
    + intros Hsub. assert ("a" ∈ ["b"]) as Ha by (apply Hsub; left).
      apply list_elem_of_singleton in Ha. discriminate.
Defined.

(** X27 on a cache of capacity one, after calls with the arguments 1
    and 2. *)
Lemma cache_stays_within_max_size_witness :
  let c := CacheFn (Some 1) true Sample.total in
  let st := (wrapper Sample.is_int c Sample.leaks_off [2%Z] []
               (wrapper Sample.is_int c Sample.leaks_off [1%Z] []
                  lru_new []).1.2 [([1%Z], [])]).1.2 in
  NoDup (entries st).*1 ∧ ∀ n, maxsize c = Some n → length (entries st) ≤ n.
Proof.
  intros c st.
  apply (cache_stays_within_max_size Sample.is_int c st).
  subst st.
  apply (reachable_call Sample.is_int c Sample.leaks_off [2%Z] []
           _ [([1%Z], [])]).
  apply (reachable_call Sample.is_int c Sample.leaks_off [1%Z] [] _ []).
  apply reachable_new.
Defined.

(** X29 on two partial applications of the same function to the same
    keyword arguments, given in two orders. *)
Lemma HashablePartial_equal_hashes_witness :
  let self :=
    Partial.HashablePartial__init__ Sample.succ_fn [Sample.Int 1]
      [("a", Sample.Int 1); ("b", Sample.Int 2)] in
  let other :=
    Partial.HashablePartial__init__ Sample.succ_fn [Sample.Int 1]
      [("b", Sample.Int 2); ("a", Sample.Int 1)] in
  Partial.HashablePartial__eq__ Sample.value_eq Sample.source_eq
    self (Partial.OfHashablePartial other) = true
  ∧ Partial.HashablePartial__hash__ Sample.value_hash Sample.source_hash
      Partial.name_hash Partial.ordered_hash self
    = Partial.HashablePartial__hash__ Sample.value_hash Sample.source_hash
        Partial.name_hash Partial.ordered_hash other.
Proof.
  intros self other. split; [reflexivity|].
  apply (HashablePartial_equal_hashes Sample.value_eq Sample.value_hash
           Sample.source_eq Sample.source_hash Partial.name_hash
           Partial.ordered_hash source_hash_eq value_hash_eq self other).
  - apply NoDup_ListNoDup.
    repeat (constructor; [simpl; intuition discriminate|]). constructor.
  - apply NoDup_ListNoDup.
    repeat (constructor; [simpl; intuition discriminate|]). constructor.
  - reflexivity.
Defined.

(** X30 on the same keyword arguments in two orders. *)
Lemma WrapKwArgs_keyword_order_witness :
  let self :=
    Partial.WrapKwArgs__init__ [("a", Sample.Int 1); ("b", Sample.Int 2)] in
  let other :=
    Partial.WrapKwArgs__init__ [("b", Sample.Int 2); ("a", Sample.Int 1)] in
  Partial.WrapKwArgs__eq__ Sample.value_eq self other = true
  ∧ Partial.WrapKwArgs__hash__ Sample.value_hash Partial.name_hash
      Partial.ordered_hash self
    = Partial.WrapKwArgs__hash__ Sample.value_hash Partial.name_hash
        Partial.ordered_hash other.
Proof.
  intros self other.
  destruct (WrapKwArgs_keyword_order Sample.value_eq Sample.value_hash
              Partial.name_hash Partial.ordered_hash value_hash_eq self other)
    as [Hhash Horder].
  - apply NoDup_ListNoDup.
    repeat (constructor; [simpl; intuition discriminate|]). constructor.
  - apply NoDup_ListNoDup.
    repeat (constructor; [simpl; intuition discriminate|]). constructor.
  - assert (Partial.WrapKwArgs__eq__ Sample.value_eq self other = true) as Heq.
    { apply Horder; [|apply perm_swap].
      intros [n|l]; simpl; by apply bool_decide_eq_true. }
    split; [exact Heq | exact (Hhash Heq)].
Defined.

(** ** The cache on Python objects *)

Section ObjectFacts.
Context {V X : Type}.
Variable item_eq : V → V → bool.
Variable py_hash : V → option Z.
Variable is_fasttype : V → bool.
Variable type_name : V → string.
Variable str_hash : string → Z.
Variable mark_hash : Z.
Variable tuple_hash : list Z → Z.
Implicit Types (c : cache_fn (V:=V) (X:=X)) (cfg : config (V:=V)).
Implicit Types (st : lru_state V) (w : log V) (x : call (V:=V)).
Implicit Types (args : list V) (kw : kwargs V) (cs : list (call (V:=V))).
Implicit Types (key k : cache_key V) (d : list (cache_key V * V)).
Implicit Types (m : option nat) (u : ufun V X).

Local Abbreviation key_hash :=
  (Objects.key_hash py_hash str_hash mark_hash tuple_hash).
Local Abbreviation matches :=
  (Objects.matches item_eq py_hash str_hash mark_hash tuple_hash).
Local Abbreviation cache_get :=
  (Objects.cache_get item_eq py_hash str_hash mark_hash tuple_hash).
Local Abbreviation cache_find :=
  (Objects.cache_find item_eq py_hash str_hash mark_hash tuple_hash).
Local Abbreviation cache_del :=
  (Objects.cache_del item_eq py_hash str_hash mark_hash tuple_hash).
Local Abbreviation cache_set :=
  (Objects.cache_set item_eq py_hash str_hash mark_hash tuple_hash).
Local Abbreviation lru_wrapper :=
  (Objects._lru_cache_wrapper item_eq py_hash is_fasttype type_name
     str_hash mark_hash tuple_hash).
Local Abbreviation call_wrapper :=
  (Objects.wrapper item_eq py_hash is_fasttype type_name
     str_hash mark_hash tuple_hash).
Local Abbreviation run_calls :=
  (Objects.run item_eq py_hash is_fasttype type_name
     str_hash mark_hash tuple_hash).
Local Abbreviation can_reach :=
  (Objects.reachable item_eq py_hash is_fasttype type_name
     str_hash mark_hash tuple_hash).
Local Abbreviation make_key := (_make_key is_fasttype).

Lemma cache_find_get key d : cache_get key d = snd <$> cache_find key d.
Proof.
  induction d as [|[k v] d IH]; [done|].
  cbn [Objects.cache_get Objects.cache_find].
  by destruct (matches k key).
Qed.

Lemma cache_find_matches key d k v :
  cache_find key d = Some (k, v) → matches k key = true ∧ (k, v) ∈ d.
Proof.
  induction d as [|[k' v'] d IH]; [done|]. cbn [Objects.cache_find].
  destruct (matches k' key) eqn:Hm.
  - intros [= -> ->]. split; [done|left].
  - intros [? ?]%IH. split; [done|by right].
Qed.

Lemma cache_get_elem_of key d v :
  cache_get key d = Some v → ∃ k, matches k key = true ∧ (k, v) ∈ d.
Proof.
  rewrite cache_find_get. destruct (cache_find key d) as [[k v']|] eqn:Hf;
    [|done].
  intros [= <-]. exists k. by apply cache_find_matches.
Qed.

Lemma cache_get_None key d :
  cache_get key d = None ↔ ∀ k v, (k, v) ∈ d → matches k key = false.
Proof.
  induction d as [|[k v] d IH]; cbn [Objects.cache_get].
  - split; [|done]. by intros _ k v ?%elem_of_nil.
  - destruct (matches k key) eqn:Hm.
    + split; [done|]. intros Hall. rewrite (Hall k v) in Hm; [done|left].
    + rewrite IH. split.
      * intros Hall k' v' [[= -> ->]|Hin]%elem_of_cons; [done|]. by eapply Hall.
      * intros Hall k' v' Hin. apply (Hall k' v'). by right.
Qed.

Lemma cache_get_app key d d' :
  cache_get key (d ++ d')
  = match cache_get key d with Some v => Some v | None => cache_get key d' end.
Proof.
  induction d as [|[k v] d IH]; [done|]. cbn [app Objects.cache_get].
  by destruct (matches k key).
Qed.

Lemma cache_del_get key d : cache_get key (cache_del key d) = None.
Proof.
  induction d as [|[k v] d IH]; [done|]. cbn [Objects.cache_del].
  destruct (matches k key) eqn:Hm; [done|]. cbn [Objects.cache_get].
  by rewrite Hm.
Qed.

Lemma cache_del_subseteq key d : cache_del key d ⊆ d.
Proof.
  induction d as [|[k v] d IH]; [done|]. cbn [Objects.cache_del].
  destruct (matches k key).
  - by apply list_subseteq_cons.
  - intros kv [->|Hin]%elem_of_cons; [left|right; by apply IH].
Qed.

Lemma cache_set_absent key v d :
  cache_get key d = None → cache_set key v d = d ++ [(key, v)].
Proof.
  induction d as [|[k v'] d IH]; [done|].
  cbn [Objects.cache_get Objects.cache_set].
  destruct (matches k key); [done|]. intros Hd. by rewrite IH.
Qed.

(** *** One call of [lru_cache]'s wrapper *)

(** An argument that cannot be hashed: the call fails before anything is
    looked up, counted or invoked. *)
Lemma object_lru_unhashable m u args kw st w v :
  m ≠ Some 0 →
  key_hash (make_key args kw) = inl v →
  lru_wrapper m u args kw st w
  = (Raise (Objects.unhashable type_name v), st, w).
Proof.
  intros Hm Hk. destruct m as [[|n]|]; [done| |]; cbn.
  - unfold Objects.bounded_wrapper. cbv zeta. by rewrite Hk.
  - unfold Objects.unbounded_wrapper. cbv zeta. by rewrite Hk.
Qed.

Lemma object_lru_hit m u args kw st w h k v :
  m ≠ Some 0 →
  key_hash (make_key args kw) = inr h →
  cache_find (make_key args kw) (entries st) = Some (k, v) →
  lru_wrapper m u args kw st w
  = (Return v,
     {| entries :=
          match m with
          | None => entries st
          | Some _ => cache_del (make_key args kw) (entries st) ++ [(k, v)]
          end;
        hits := S (hits st); misses := misses st; full := full st |},
     w).
Proof.
  intros Hm Hk Hf. destruct m as [[|n]|]; [done| |]; cbn.
  - unfold Objects.bounded_wrapper. cbv zeta. by rewrite Hk, Hf.
  - unfold Objects.unbounded_wrapper. cbv zeta.
    by rewrite Hk, cache_find_get, Hf.
Qed.

Lemma object_lru_raise m u args kw st w e w' :
  m = Some 0
  ∨ (∃ h, key_hash (make_key args kw) = inr h)
    ∧ cache_get (make_key args kw) (entries st) = None →
  u args kw w = (Raise e, w') →
  lru_wrapper m u args kw st w = (Raise e, missed st, w').
Proof.
  intros Hm Hu. destruct m as [[|n]|]; cbn.
  - unfold Objects.uncached_wrapper. by rewrite Hu.
  - destruct Hm as [|[[h Hk] Hget]]; [done|].
    unfold Objects.bounded_wrapper. cbv zeta. rewrite Hk.
    rewrite cache_find_get in Hget.
    destruct (cache_find _ (entries st)); [done|]. by rewrite Hu.
  - destruct Hm as [|[[h Hk] Hget]]; [done|].
    unfold Objects.unbounded_wrapper. cbv zeta. by rewrite Hk, Hget, Hu.
Qed.

Lemma object_lru_uncached u args kw st w :
  lru_wrapper (Some 0) u args kw st w
  = ((u args kw w).1, missed st, (u args kw w).2).
Proof. cbn. unfold Objects.uncached_wrapper. by destruct (u args kw w). Qed.

Lemma object_lru_store m u args kw st w h v w' :
  m ≠ Some 0 →
  key_hash (make_key args kw) = inr h →
  cache_get (make_key args kw) (entries st) = None →
  u args kw w = (Return v, w') →
  lru_wrapper m u args kw st w
  = (Return v,
     {| entries :=
          match m with
          | Some _ => if full st then tail (entries st) else entries st
          | None => entries st
          end ++ [(make_key args kw, v)];
        hits := hits st; misses := S (misses st);
        full :=
          match m with
          | Some n => full st || bool_decide (n ≤ S (length (entries st)))
          | None => full st
          end |},
     w').
Proof.
  intros Hm Hk Hget Hu. destruct m as [[|n]|]; [done| |]; cbn.
  - unfold Objects.bounded_wrapper. cbv zeta. rewrite Hk.
    pose proof Hget as Hfind. rewrite cache_find_get in Hfind.
    destruct (cache_find _ (entries st)); [done|]. cbn [entries].
    rewrite Hu, Hget. destruct (full st); cbn; [done|].
    by rewrite length_app, Nat.add_1_r.
  - unfold Objects.unbounded_wrapper. cbv zeta. rewrite Hk, Hget, Hu. cbn.
    by rewrite cache_set_absent.
Qed.

(** *** One call of a function decorated with [cache] *)

Lemma object_call_bypassed c cfg args kw st w :
  bypassed c cfg = true →
  call_wrapper c cfg args kw st w = (wrapped c args kw, st, w ++ [(args, kw)]).
Proof.
  unfold bypassed, Objects.wrapper. intros Hb.
  apply andb_prop in Hb as [-> ->]. done.
Qed.

Lemma object_call_lookup c cfg args kw st w :
  bypassed c cfg = false →
  call_wrapper c cfg args kw st w
  = lru_wrapper (maxsize c) (body c) (lookup_args c cfg args) kw st w.
Proof.
  unfold bypassed, Objects.wrapper, body, lookup_args.
  destruct (trace_context_in_key c); simpl; [|done]. by intros ->.
Qed.

Local Abbreviation call_step :=
  (Objects.step item_eq py_hash is_fasttype type_name
     str_hash mark_hash tuple_hash).

Lemma object_call_step c cfg args kw st w :
  call_step c cfg args kw st w (call_wrapper c cfg args kw st w).
Proof.
  destruct (bypassed c cfg) eqn:Hb.
  { rewrite object_call_bypassed by done. by constructor. }
  rewrite object_call_lookup by done.
  pose proof (key_of_lookup_args is_fasttype c cfg args kw) as Hk.
  destruct (decide (maxsize c = Some 0)) as [Hm|Hm].
  - rewrite Hm, object_lru_uncached. destruct (binds_dec c kw) as [Hbind|Hbind].
    + rewrite (body_invokes _ _ _ _ _ Hbind). cbn [fst snd].
      destruct (wrapped c args kw) as [v|e] eqn:Hf.
      * by apply Objects.step_uncached.
      * apply Objects.step_raise; auto.
    + rewrite (body_unbound _ _ _ _ _ Hbind). cbn [fst snd].
      apply Objects.step_unbound; auto.
  - destruct (key_hash (key_of is_fasttype c cfg args kw)) as [v|h] eqn:Hh.
    { rewrite (object_lru_unhashable _ _ _ _ _ _ v) by (by rewrite <- ?Hk).
      by apply Objects.step_unhashable. }
    destruct (cache_find (key_of is_fasttype c cfg args kw) (entries st))
      as [[k v]|] eqn:Hfind.
    + rewrite (object_lru_hit _ _ _ _ _ _ h k v), <- Hk by (by rewrite <- ?Hk).
      by eapply Objects.step_hit.
    + assert (cache_get (key_of is_fasttype c cfg args kw) (entries st) = None)
        as Hget by (by rewrite cache_find_get, Hfind).
      destruct (binds_dec c kw) as [Hbind|Hbind].
      * destruct (wrapped c args kw) as [v|e] eqn:Hf.
        -- rewrite (object_lru_store _ _ _ _ _ _ h v (w ++ [(args, kw)])),
             <- Hk;
             [by eapply Objects.step_store | done | by rewrite <- Hk
             | by rewrite <- Hk |].
           by rewrite body_invokes, Hf.
        -- rewrite (object_lru_raise _ _ _ _ _ _ e (w ++ [(args, kw)]));
             [apply Objects.step_raise; eauto
             | right; rewrite <- Hk; eauto |].
           by rewrite body_invokes, Hf.
      * rewrite (object_lru_raise _ _ _ _ _ _
                   (TypeError "cached() got multiple values for argument '_'")
                   w);
          [apply Objects.step_unbound; eauto
          | right; rewrite <- Hk; eauto |].
        by rewrite body_unbound.
Qed.

(** *** Equal keys *)

Local Abbreviation key_eq := (Objects.key_eq item_eq).
Local Abbreviation key_item_eq := (Objects.key_item_eq item_eq).
Local Abbreviation items_alike :=
  (Forall2 (λ a b : key_item V, key_item_eq a b = true)).
Local Abbreviation args_alike :=
  (Forall2 (λ a b : V, item_eq a b = true)).
Local Abbreviation kwargs_alike :=
  (Forall2 (λ x y : string * V, x.1 = y.1 ∧ item_eq x.2 y.2 = true)).

Lemma forallb_zip {A} (f : A * A → bool) (l l' : list A) :
  bool_decide (length l = length l') && forallb f (zip l l') = true
  ↔ Forall2 (λ a b, f (a, b) = true) l l'.
Proof using Type.
  revert l'. induction l as [|a l IH]; intros [|b l'].
  - split; [constructor|done].
  - split; [done|]. intros Hf. inversion Hf.
  - split; [done|]. intros Hf. inversion Hf.
  - cbn [zip zip_with forallb length]. rewrite Forall2_cons, <- IH.
    rewrite !andb_true_iff, !bool_decide_eq_true. naive_solver.
Qed.

Lemma key_eq_seq (t t' : list (key_item V)) :
  key_eq (KHashedSeq t) (KHashedSeq t') = true ↔ items_alike t t'.
Proof. cbn [Objects.key_eq]. by rewrite forallb_zip. Qed.

Lemma kwd_items_alike kw kw' :
  items_alike (kwd_items kw) (kwd_items kw') ↔ kwargs_alike kw kw'.
Proof using Type.
  revert kw'. induction kw as [|[n v] kw IH]; intros [|[n' v'] kw'];
    cbn [kwd_items].
  - split; constructor.
  - split; intros Hf; inversion Hf.
  - split; intros Hf; inversion Hf.
  - rewrite !Forall2_cons, IH. cbn [Objects.key_item_eq fst snd].
    rewrite bool_decide_eq_true.
    clear py_hash is_fasttype type_name str_hash mark_hash tuple_hash.
    naive_solver.
Qed.

Lemma key_tuple_alike args kw args' kw' :
  items_alike (key_tuple args kw) (key_tuple args' kw')
  ↔ args_alike args args' ∧ kwargs_alike kw kw'.
Proof using Type.
  unfold key_tuple. revert args'.
  induction args as [|a args IH]; intros [|a' args']; cbn [fmap list_fmap app].
  - destruct kw as [|x kw], kw' as [|x' kw'].
    + split; [by split; constructor|constructor].
    + split; [intros Hf; inversion Hf|]. intros [_ Hf]. inversion Hf.
    + split; [intros Hf; inversion Hf|]. intros [_ Hf]. inversion Hf.
    + rewrite Forall2_cons, kwd_items_alike. cbn [Objects.key_item_eq].
      split; [by intros [_ ?]; split; [constructor|] | by intros [_ ?]].
  - split; [|intros [Hf _]; inversion Hf].
    destruct kw as [|x kw]; intros Hf; inversion Hf; simplify_eq/=.
  - split; [|intros [Hf _]; inversion Hf].
    destruct kw' as [|x kw']; intros Hf; inversion Hf; simplify_eq/=.
  - rewrite !Forall2_cons, (IH args'). cbn [Objects.key_item_eq].
    clear py_hash is_fasttype type_name str_hash mark_hash tuple_hash.
    naive_solver.
Qed.

Lemma make_key_fast args kw v :
  make_key args kw = KFast v
  ↔ args = [v] ∧ kw = [] ∧ is_fasttype v = true.
Proof.
  unfold _make_key. destruct args as [|a [|b args]], kw as [|x kw];
    cbn; try (split; [done | by intros (? & ? & ?)]).
  destruct (is_fasttype a) eqn:Hf.
  - split; [by intros [= ->] | by intros ([= ->] & _ & _)].
  - split; [done | intros ([= ->] & _ & ?); congruence].
Qed.

Lemma make_key_alike args kw args' kw' :
  key_eq (make_key args kw) (make_key args' kw') = true
  ↔ Objects.fast_key (make_key args kw) = Objects.fast_key (make_key args' kw')
    ∧ args_alike args args' ∧ kwargs_alike kw kw'.
Proof using Type.
  rewrite <- key_tuple_alike.
  clear py_hash type_name str_hash mark_hash tuple_hash.
  destruct (_make_key_tuple is_fasttype args kw) as [->|(v & -> & ->)],
    (_make_key_tuple is_fasttype args' kw') as [->|(v' & -> & ->)];
    cbn [Objects.fast_key].
  - rewrite key_eq_seq. naive_solver.
  - cbn [Objects.key_eq]. naive_solver.
  - cbn [Objects.key_eq]. naive_solver.
  - cbn [Objects.key_eq]. rewrite Forall2_cons. cbn [Objects.key_item_eq].
    split; [by intros ?; repeat split; [|constructor] | by intros (_ & ? & _)].
Qed.

(** *** Keys of calls that compare equal are interchangeable *)

Section Contract.
(** What Python expects of [==] and [hash] on hashable objects. *)
Hypothesis item_eq_sym :
  ∀ a b : V, item_eq a b = true → item_eq b a = true.
Hypothesis item_eq_trans :
  ∀ a b e : V, item_eq a b = true → item_eq b e = true → item_eq a e = true.
Hypothesis item_hash_eq :
  ∀ a b : V, item_eq a b = true → py_hash a = py_hash b.

Lemma key_item_eq_sym (a b : key_item V) :
  key_item_eq a b = true → key_item_eq b a = true.
Proof.
  destruct a, b; cbn; try done; [apply item_eq_sym|].
  by intros ->%bool_decide_eq_true; apply bool_decide_eq_true.
Qed.

Lemma key_item_eq_trans (a b c : key_item V) :
  key_item_eq a b = true → key_item_eq b c = true → key_item_eq a c = true.
Proof.
  destruct a, b, c; cbn; try done; [apply item_eq_trans|].
  by intros ->%bool_decide_eq_true.
Qed.

Lemma key_eq_sym k k' : key_eq k k' = true → key_eq k' k = true.
Proof.
  destruct k as [v|t], k' as [v'|t']; try done; [apply item_eq_sym|].
  rewrite !key_eq_seq. intros Hf. apply Forall2_flip.
  eapply Forall2_impl; [exact Hf|]. intros a b. apply key_item_eq_sym.
Qed.

Lemma key_eq_trans k1 k2 k3 :
  key_eq k1 k2 = true → key_eq k2 k3 = true → key_eq k1 k3 = true.
Proof.
  destruct k1 as [v1|t1], k2 as [v2|t2], k3 as [v3|t3]; try done;
    [apply item_eq_trans|].
  rewrite !key_eq_seq. intros H12 H23.
  eapply Forall2_trans; [|exact H12|exact H23].
  intros a b e. apply key_item_eq_trans.
Qed.

Lemma key_item_hash_eq (a b : key_item V) h h' :
  key_item_eq a b = true →
  Objects.key_item_hash py_hash str_hash mark_hash a = inr h →
  Objects.key_item_hash py_hash str_hash mark_hash b = inr h' →
  h = h'.
Proof.
  destruct a as [v| |n], b as [v'| |n']; cbn; try done.
  - intros Heq%item_hash_eq. rewrite Heq.
    destruct (py_hash v'); [|done]. congruence.
  - congruence.
  - intros ->%bool_decide_eq_true. congruence.
Qed.

Lemma items_hash_eq (t t' : list (key_item V)) hs hs' :
  items_alike t t' →
  Objects.items_hash py_hash str_hash mark_hash t = inr hs →
  Objects.items_hash py_hash str_hash mark_hash t' = inr hs' →
  hs = hs'.
Proof.
  intros Hf. revert hs hs'.
  induction Hf as [|a b t t' Hab _ IH]; intros hs hs'; cbn [Objects.items_hash].
  - congruence.
  - destruct (Objects.key_item_hash _ _ _ a) as [|h] eqn:Ha; [done|].
    destruct (Objects.key_item_hash _ _ _ b) as [|h'] eqn:Hb; [done|].
    destruct (Objects.items_hash _ _ _ t) as [|l]; [done|].
    destruct (Objects.items_hash _ _ _ t') as [|l']; [done|].
    intros [= <-] [= <-]. f_equal; [by eapply key_item_hash_eq|by apply IH].
Qed.

Lemma key_hash_eq k k' h h' :
  key_eq k k' = true → key_hash k = inr h → key_hash k' = inr h' → h = h'.
Proof.
  destruct k as [v|t], k' as [v'|t']; try done.
  - cbn [Objects.key_eq Objects.key_hash]. intros Heq.
    by apply (key_item_hash_eq (KVal v) (KVal v')).
  - rewrite key_eq_seq. cbn [Objects.key_hash]. intros Hf.
    destruct (Objects.items_hash _ _ _ t) as [|hs] eqn:Ht; [done|].
    destruct (Objects.items_hash _ _ _ t') as [|hs'] eqn:Ht'; [done|].
    intros [= <-] [= <-]. f_equal. by eapply items_hash_eq.
Qed.

(** Two hashable keys that compare equal find the same entries. *)
Lemma matches_alike key key' h h' k :
  key_eq key key' = true →
  key_hash key = inr h → key_hash key' = inr h' →
  matches k key = matches k key'.
Proof.
  intros Heq Hh Hh'. unfold Objects.matches. rewrite Hh, Hh'.
  destruct (key_hash k) as [|hk] eqn:Hk; [done|].
  rewrite (key_hash_eq _ _ _ _ Heq Hh Hh').
  destruct (bool_decide (hk = h')); [|done]. cbn [andb].
  destruct (key_eq k key) eqn:H1, (key_eq k key') eqn:H2; try done.
  - by rewrite (key_eq_trans _ _ _ H1 Heq) in H2.
  - by rewrite (key_eq_trans _ _ _ H2 (key_eq_sym _ _ Heq)) in H1.
Qed.

Lemma cache_find_alike key key' h h' d :
  key_eq key key' = true →
  key_hash key = inr h → key_hash key' = inr h' →
  cache_find key d = cache_find key' d ∧ cache_del key d = cache_del key' d.
Proof.
  intros Heq Hh Hh'. induction d as [|[k v] d [IHf IHd]]; [done|].
  cbn [Objects.cache_find Objects.cache_del].
  rewrite (matches_alike _ _ _ _ k Heq Hh Hh'), IHf, IHd. done.
Qed.

Lemma matches_refl key key' h :
  key_eq key key' = true → key_hash key = inr h → matches key key = true.
Proof.
  intros Heq Hh. unfold Objects.matches. rewrite Hh.
  rewrite bool_decide_eq_true_2 by done.
  exact (key_eq_trans _ _ _ Heq (key_eq_sym _ _ Heq)).
Qed.

(** A call that went through the cache and returned has left its value
    where its key finds it, unless the capacity is zero. *)
Lemma object_returned_is_stored c cfg args kw st w v st1 w1 key' h' :
  bypassed c cfg = false →
  maxsize c ≠ Some 0 →
  call_wrapper c cfg args kw st w = (Return v, st1, w1) →
  key_eq (key_of is_fasttype c cfg args kw) key' = true →
  key_hash key' = inr h' →
  ∃ k, cache_find key' (entries st1) = Some (k, v).
Proof.
  intros Hb Hm Hcall Heq Hh'.
  pose proof (object_call_step c cfg args kw st w) as Hs.
  rewrite Hcall in Hs.
  inversion Hs as [Hb' Heq'|v' Hb' Hm' Hk Heq'|h k v' Hb' Hm' Hk Hfind Heq'
                   |Hb' Hmiss Hbind Heq'|e Hb' Hmiss Hbind Hf Heq'
                   |v' Hb' Hm' Hbind Hf Heq'
                   |h v' Hb' Hm' Hk Hget Hbind Hf Heq']; try congruence.
  - subst.
    destruct (cache_find_alike (key_of is_fasttype c cfg args kw) key' h h'
                (entries st) Heq Hk Hh') as [Hfa Hda].
    apply cache_find_matches in Hfind as Hmk. destruct Hmk as [Hmk _].
    rewrite (matches_alike _ _ _ _ k Heq Hk Hh') in Hmk.
    destruct (maxsize c); cbn [entries].
    + exists k. rewrite Hda.
      assert (∀ d d', cache_get key' d = None →
                cache_find key' (d ++ d') = cache_find key' d') as Happ.
      { clear. intros d d'. induction d as [|[k v] d IH]; [done|].
        cbn [app Objects.cache_get Objects.cache_find].
        destruct (matches k key'); [done|]. apply IH. }
      rewrite Happ by apply cache_del_get.
      cbn [Objects.cache_find]. by rewrite Hmk.
    + exists k. by rewrite <- Hfa.
  - subst. exists (key_of is_fasttype c cfg args kw).
    pose proof (matches_refl _ _ _ Heq Hk) as Hrefl.
    rewrite (matches_alike _ _ _ _ (key_of is_fasttype c cfg args kw)
               Heq Hk Hh') in Hrefl.
    assert (∀ d,
      (∀ k v, (k, v) ∈ d →
         matches k (key_of is_fasttype c cfg args kw) = false) →
      cache_find key' (d ++ [(key_of is_fasttype c cfg args kw, v)])
      = Some (key_of is_fasttype c cfg args kw, v)) as Happ.
    { intros d Hd. induction d as [|[k v0] d IH].
      - cbn [app Objects.cache_find]. by rewrite Hrefl.
      - cbn [app Objects.cache_find].
        rewrite <- (matches_alike _ _ _ _ k Heq Hk Hh').
        rewrite (Hd k v0) by left. apply IH. intros k1 v1 Hin.
        apply (Hd k1 v1). by right. }
    cbn [entries]. apply Happ. intros k v0 Hin.
    rewrite cache_get_None in Hget. apply (Hget k v0).
    destruct (maxsize c); [|done]. destruct (full st); [|done].
    by apply tail_subseteq.
Qed.

(** In an unbounded cache an entry stays where its key finds it. *)
Lemma unbounded_keeps c cfg args kw st w key v :
  maxsize c = None →
  cache_get key (entries st) = Some v →
  cache_get key (entries (call_wrapper c cfg args kw st w).1.2) = Some v.
Proof.
  intros Hm Hget.
  pose proof (object_call_step c cfg args kw st w) as Hs.
  inversion Hs as [Hb' Heq'|v' Hb' Hm' Hk Heq'|h k v' Hb' Hm' Hk Hfind Heq'
                   |Hb' Hmiss Hbind Heq'|e Hb' Hmiss Hbind Hf Heq'
                   |v' Hb' Hm' Hbind Hf Heq'
                   |h v' Hb' Hm' Hk Hget' Hbind Hf Heq'];
    cbn [fst snd entries missed]; rewrite ?Hm; try done.
  by rewrite cache_get_app, Hget.
Qed.

Lemma unbounded_run_keeps c cs st w key v :
  maxsize c = None →
  cache_get key (entries st) = Some v →
  cache_get key (entries (run_calls c cs st w).1.2) = Some v.
Proof.
  intros Hm. revert st w. induction cs as [|x cs IH]; intros st w Hget; [done|].
  cbn [Objects.run].
  pose proof (unbounded_keeps c (call_cfg x) (call_args x) (call_kwargs x)
                st w key v Hm Hget) as Hget1.
  destruct (call_wrapper c (call_cfg x) (call_args x) (call_kwargs x) st w)
    as [[r st1] w1].
  specialize (IH st1 w1 Hget1).
  by destruct (run_calls c cs st1 w1) as [[rs st2] w2].
Qed.

(** C2 (amended).  The lookup key is the tuple of the trace-context value
    (when [trace_context_in_key] is set), the positional arguments, and,
    after a separator, the keyword arguments in the order in which the
    call passed them; a single object of exact type [int] or [str] is its
    own key.  Two keys are equal exactly when both or neither are such
    single objects and the trace contexts (if part of the key), the
    positional arguments and the keyword arguments, as ordered lists of
    names and values, agree item by item, values being compared with
    [==].  A call whose key equals the key of an earlier call is a hit
    and does not invoke the wrapped function, provided neither call is
    bypassed, the earlier one returned, the capacity is not zero, the key
    can be hashed and the entry is still there: it is when the call
    directly follows the earlier one, and after any calls in between when
    the cache is unbounded. *)
Theorem key_keeps_keyword_order c cfg args kw :
  let prefix :=
    if trace_context_in_key c then [trace_context cfg] else [] in
  let key := key_of is_fasttype c cfg args kw in
  (key = KHashedSeq ((KVal <$> prefix ++ args)
                     ++ match kw with
                        | [] => []
                        | _ :: _ => KMark :: kwd_items kw
                        end)
   ∨ ∃ v, key = KFast v)
  ∧ (∀ v, key = KFast v
          ↔ prefix ++ args = [v] ∧ kw = [] ∧ is_fasttype v = true)
  ∧ (∀ cfg' args' kw',
       key_eq key (key_of is_fasttype c cfg' args' kw') = true
       ↔ Objects.fast_key key
         = Objects.fast_key (key_of is_fasttype c cfg' args' kw')
         ∧ (trace_context_in_key c = true →
            item_eq (trace_context cfg) (trace_context cfg') = true)
         ∧ args_alike args args'
         ∧ kwargs_alike kw kw')
  ∧ (∀ cfg' args' kw' st w v st1 w1 h',
       bypassed c cfg = false →
       bypassed c cfg' = false →
       maxsize c ≠ Some 0 →
       call_wrapper c cfg args kw st w = (Return v, st1, w1) →
       key_eq key (key_of is_fasttype c cfg' args' kw') = true →
       key_hash (key_of is_fasttype c cfg' args' kw') = inr h' →
       (∃ st2,
          call_wrapper c cfg' args' kw' st1 w1 = (Return v, st2, w1)
          ∧ hits st2 = S (hits st1) ∧ misses st2 = misses st1)
       ∧ (maxsize c = None →
          ∀ cs, let '(_, st2, w2) := run_calls c cs st1 w1 in
                ∃ st3,
                  call_wrapper c cfg' args' kw' st2 w2 = (Return v, st3, w2)
                  ∧ hits st3 = S (hits st2) ∧ misses st3 = misses st2)).
Proof.
  intros prefix key.
  assert (prefix ++ args = lookup_args c cfg args) as Hpre.
  { unfold prefix, lookup_args. by destruct (trace_context_in_key c). }
  assert (key = make_key (lookup_args c cfg args) kw) as Hkey
    by apply key_of_lookup_args.
  split; [|split; [|split]].
  - rewrite Hpre, Hkey.
    destruct (_make_key_tuple is_fasttype (lookup_args c cfg args) kw)
      as [Hk|(v & Hk & Ht)]; [by left|right]. by exists v.
  - intros v. by rewrite Hpre, Hkey, make_key_fast.
  - intros cfg' args' kw'. rewrite Hkey.
    rewrite (key_of_lookup_args is_fasttype c cfg' args' kw'), make_key_alike.
    unfold lookup_args. destruct (trace_context_in_key c).
    + rewrite Forall2_cons. naive_solver.
    + naive_solver.
  - intros cfg' args' kw' st w v st1 w1 h' Hb Hb' Hm Hcall Heq Hh'.
    assert (∀ st2 w2,
      cache_get (key_of is_fasttype c cfg' args' kw') (entries st2) = Some v →
      ∃ st3, call_wrapper c cfg' args' kw' st2 w2 = (Return v, st3, w2)
             ∧ hits st3 = S (hits st2) ∧ misses st3 = misses st2) as Hhit.
    { intros st2 w2 Hget. rewrite cache_find_get in Hget.
      destruct (cache_find _ (entries st2)) as [[k v']|] eqn:Hfind; [|done].
      injection Hget as ->. rewrite object_call_lookup by done.
      rewrite (object_lru_hit _ _ _ _ _ _ h' k v);
        [by eexists | done | by rewrite <- key_of_lookup_args
        | by rewrite <- key_of_lookup_args]. }
    destruct (object_returned_is_stored c cfg args kw st w v st1 w1
                _ h' Hb Hm Hcall Heq Hh') as [k Hfind].
    assert (cache_get (key_of is_fasttype c cfg' args' kw') (entries st1)
            = Some v) as Hget by (by rewrite cache_find_get, Hfind).
    split; [by apply Hhit|]. intros Hnone cs.
    pose proof (unbounded_run_keeps c cs st1 w1 _ v Hnone Hget) as Hkeep.
    destruct (run_calls c cs st1 w1) as [[rs st2] w2]. by apply Hhit.
Qed.
End Contract.

(** *** The leak-check bypass *)

(** C1 (amended).  For a cache made with [trace_context_in_key=True], a
    call made while [config.check_tracer_leaks] is set invokes the wrapped
    function directly and leaves the cache as it was: same entries, same
    hit and miss counts.  A cache made with [trace_context_in_key=False]
    never reads the configuration: its calls are calls of [lru_cache]'s
    wrapper whatever the flag says.  So with the flag set: with capacity
    zero the call is a counted miss; otherwise a key that cannot be hashed
    raises, a key that is found is a hit, answered without the wrapped
    function, and a key that is not found is a counted miss, whose value
    is stored when the wrapped function returns one. *)
Theorem bypass_needs_trace_context c cfg args kw st w :
  check_tracer_leaks cfg = true →
  (trace_context_in_key c = true →
     call_wrapper c cfg args kw st w
     = (wrapped c args kw, st, w ++ [(args, kw)]))
  ∧ (trace_context_in_key c = false →
     (∀ cfg', call_wrapper c cfg args kw st w
              = call_wrapper c cfg' args kw st w)
     ∧ call_wrapper c cfg args kw st w
       = lru_wrapper (maxsize c) (invoke (wrapped c)) args kw st w
     ∧ (maxsize c = Some 0 →
        call_wrapper c cfg args kw st w
        = (wrapped c args kw, missed st, w ++ [(args, kw)]))
     ∧ (maxsize c ≠ Some 0 →
        (∀ v, key_hash (make_key args kw) = inl v →
           call_wrapper c cfg args kw st w
           = (Raise (Objects.unhashable type_name v), st, w))
        ∧ ∀ h, key_hash (make_key args kw) = inr h →
          (∀ v, cache_get (make_key args kw) (entries st) = Some v →
             ∃ st',
               call_wrapper c cfg args kw st w = (Return v, st', w)
               ∧ hits st' = S (hits st) ∧ misses st' = misses st)
          ∧ (cache_get (make_key args kw) (entries st) = None →
             (∀ v, wrapped c args kw = Return v →
                ∃ st',
                  call_wrapper c cfg args kw st w
                  = (Return v, st', w ++ [(args, kw)])
                  ∧ (make_key args kw, v) ∈ entries st'
                  ∧ hits st' = hits st ∧ misses st' = S (misses st))
             ∧ (∀ e, wrapped c args kw = Raise e →
                  call_wrapper c cfg args kw st w
                  = (Raise e, missed st, w ++ [(args, kw)]))))).
Proof.
  intros Hflag. split; intros Htc.
  - apply object_call_bypassed. unfold bypassed. by rewrite Htc, Hflag.
  - assert (call_wrapper c cfg args kw st w
            = lru_wrapper (maxsize c) (invoke (wrapped c)) args kw st w)
      as Hlru by (unfold Objects.wrapper; by rewrite Htc).
    split; [intros cfg'; unfold Objects.wrapper; by rewrite Htc|].
    split; [done|]. rewrite Hlru. split; [|intros Hm; split].
    + intros ->. by rewrite object_lru_uncached.
    + intros v Hk. by apply object_lru_unhashable.
    + intros h Hh. split; [|intros Hget; split].
      * intros v Hget. rewrite cache_find_get in Hget.
        destruct (cache_find _ (entries st)) as [[k v']|] eqn:Hfind; [|done].
        injection Hget as ->.
        rewrite (object_lru_hit _ _ _ _ _ _ h k v) by done.
        by eexists.
      * intros v Hf.
        rewrite (object_lru_store _ _ _ _ _ _ h v (w ++ [(args, kw)]))
          by (done || by unfold invoke; rewrite Hf).
        eexists. split; [done|]. cbn [entries hits misses].
        split; [|done]. apply elem_of_app. right. left.
      * intros e Hf. apply object_lru_raise; [right; eauto|].
        unfold invoke. by rewrite Hf.
Qed.

(** *** Invariants of a cached function *)

Lemma matches_key_eq k key : matches k key = true → key_eq k key = true.
Proof.
  unfold Objects.matches.
  destruct (key_hash k) as [|h]; [done|].
  destruct (key_hash key) as [|h']; [done|].
  by intros [_ ?]%andb_true_iff.
Qed.

(** Every stored value is what the wrapped function returned for a call
    that built the key it is stored under. *)
Local Abbreviation sourced c st :=
  (∀ k v, (k, v) ∈ entries st →
     ∃ cfg0 args0 kw0,
       k = key_of is_fasttype c cfg0 args0 kw0
       ∧ wrapped c args0 kw0 = Return v).

Lemma object_call_sourced c cfg args kw st w :
  sourced c st → sourced c (call_wrapper c cfg args kw st w).1.2.
Proof.
  intros Hst.
  pose proof (object_call_step c cfg args kw st w) as Hs.
  inversion Hs as [Hb' Heq'|v' Hb' Hm' Hk Heq'|h k v' Hb' Hm' Hk Hfind Heq'
                   |Hb' Hmiss Hbind Heq'|e Hb' Hmiss Hbind Hf Heq'
                   |v' Hb' Hm' Hbind Hf Heq'
                   |h v' Hb' Hm' Hk Hget' Hbind Hf Heq'];
    cbn [fst snd entries missed]; try done.
  - destruct (maxsize c); [|done]. intros k0 v0 [Hin|Hin]%elem_of_app.
    + by apply Hst, (cache_del_subseteq _ _ _ Hin).
    + apply list_elem_of_singleton in Hin as [= -> ->].
      apply cache_find_matches in Hfind as [_ Hin]. by apply Hst.
  - intros k0 v0 [Hin|Hin]%elem_of_app.
    + apply Hst. destruct (maxsize c); [|done].
      destruct (full st); [by apply (tail_subseteq _ _ Hin)|done].
    + apply list_elem_of_singleton in Hin as [= -> ->]. by exists cfg, args, kw.
Qed.

Lemma reachable_sourced c st : can_reach c st → sourced c st.
Proof.
  induction 1 as [|cfg args kw st w _ IH|st _ _].
  - by intros k v ?%elem_of_nil.
  - by apply object_call_sourced.
  - by intros k v ?%elem_of_nil.
Qed.

(** X26.  A cached function returns what the wrapped function returns,
    provided the wrapped function cannot tell apart arguments that compare
    equal: in any state the cache can be in, a call whose keywords can be
    bound and that is bypassed, or whose key can be hashed, or that goes
    to a cache of capacity zero, has the outcome of the wrapped function
    on the same arguments, and invokes the wrapped function at most once,
    on these arguments.  A call that is not bypassed, with a capacity
    other than zero and an argument that cannot be hashed, raises the
    [TypeError] of that argument instead: the wrapped function is not
    invoked and the cache stays as it was. *)
Theorem cached_call_is_transparent c cfg args kw st w :
  Objects.respects item_eq is_fasttype c →
  can_reach c st →
  binds c kw →
  (bypassed c cfg = true ∨ maxsize c = Some 0
   ∨ (∃ h, key_hash (key_of is_fasttype c cfg args kw) = inr h) →
   (call_wrapper c cfg args kw st w).1.1 = wrapped c args kw
   ∧ ((call_wrapper c cfg args kw st w).2 = w
      ∨ (call_wrapper c cfg args kw st w).2 = w ++ [(args, kw)]))
  ∧ (∀ v, bypassed c cfg = false →
          maxsize c ≠ Some 0 →
          key_hash (key_of is_fasttype c cfg args kw) = inl v →
          call_wrapper c cfg args kw st w
          = (Raise (Objects.unhashable type_name v), st, w)).
Proof.
  intros Hresp Hr Hbind. pose proof (reachable_sourced _ _ Hr) as Hst.
  pose proof (object_call_step c cfg args kw st w) as Hs. split.
  - intros Hcase.
    inversion Hs as [Hb' Heq'|v' Hb' Hm' Hk Heq'|h k v' Hb' Hm' Hk Hfind Heq'
                     |Hb' Hmiss Hbind' Heq'|e Hb' Hmiss Hbind' Hf Heq'
                     |v' Hb' Hm' Hbind' Hf Heq'
                     |h v' Hb' Hm' Hk Hget' Hbind' Hf Heq'];
      cbn [fst snd]; try done; auto.
    + destruct Hcase as [?|[?|[h Hh]]]; congruence.
    + apply cache_find_matches in Hfind as [Hmk Hin].
      apply matches_key_eq in Hmk.
      destruct (Hst _ _ Hin) as (cfg0 & args0 & kw0 & -> & Hf).
      split; [|by left]. by rewrite <- (Hresp _ _ _ _ _ _ Hmk).
  - intros v Hb Hm Hk.
    inversion Hs as [Hb' Heq'|v' Hb' Hm' Hk' Heq'|h k v' Hb' Hm' Hk' Hfind Heq'
                     |Hb' Hmiss Hbind' Heq'|e Hb' Hmiss Hbind' Hf Heq'
                     |v' Hb' Hm' Hbind' Hf Heq'
                     |h v' Hb' Hm' Hk' Hget' Hbind' Hf Heq'];
      try congruence.
    + destruct Hmiss as [?|[[h Hh] _]]; congruence.
Qed.

Local Abbreviation counted :=
  (Objects.counted py_hash is_fasttype str_hash mark_hash tuple_hash).

(** X28.  The two counters of a cache count the calls that reach it:
    after any sequence of calls, hits and misses together have grown by
    the number of calls that were not bypassed and whose key could be
    hashed, whether these returned or raised; with capacity zero no key
    is made, and every call that was not bypassed counts.  A call that
    fails to hash its key moves neither counter. *)
Theorem hits_and_misses_count_calls c cs st w :
  let st' := (run_calls c cs st w).1.2 in
  hits st' + misses st'
  = hits st + misses st + length (filter (λ x, counted c x = true) cs).
Proof.
  revert st w. induction cs as [|x cs IH]; intros st w; cbn [Objects.run].
  { cbn. lia. }
  pose proof (object_call_step c (call_cfg x) (call_args x)
                (call_kwargs x) st w) as Hs.
  destruct (call_wrapper c (call_cfg x) (call_args x) (call_kwargs x) st w)
    as [[r st1] w1].
  specialize (IH st1 w1). cbv zeta in IH.
  destruct (run_calls c cs st1 w1) as [[rs st2] w2].
  cbn [fst snd] in *. rewrite IH.
  assert (∀ b : bool,
    counted c x = b →
    length (filter (λ x, counted c x = true) (x :: cs))
    = (if b then 1 else 0)
      + length (filter (λ x, counted c x = true) cs)) as Hlen.
  { intros [] Hc.
    - by rewrite filter_cons_True.
    - rewrite filter_cons_False; [done|]. by rewrite Hc. }
  unfold Objects.counted in Hlen at 1. unfold call_key in Hlen.
  inversion Hs as [Hb' Heq'|v' Hb' Hm' Hk Heq'|h k v' Hb' Hm' Hk Hfind Heq'
                   |Hb' Hmiss Hbind Heq'|e Hb' Hmiss Hbind Hf Heq'
                   |v' Hb' Hm' Hbind Hf Heq'
                   |h v' Hb' Hm' Hk Hget' Hbind Hf Heq']; subst;
    cbn [hits misses missed].
  - rewrite (Hlen false); [lia|]. by rewrite Hb'.
  - rewrite (Hlen false); [lia|]. rewrite Hb', Hk.
    by rewrite bool_decide_eq_false_2.
  - rewrite (Hlen true); [lia|]. rewrite Hb', Hk. apply orb_true_r.
  - rewrite (Hlen true); [lia|]. rewrite Hb'.
    destruct Hmiss as [Hz|[[h ->] _]];
      [by rewrite bool_decide_eq_true_2 | apply orb_true_r].
  - rewrite (Hlen true); [lia|]. rewrite Hb'.
    destruct Hmiss as [Hz|[[h ->] _]];
      [by rewrite bool_decide_eq_true_2 | apply orb_true_r].
  - rewrite (Hlen true); [lia|]. rewrite Hb'.
    by rewrite bool_decide_eq_true_2.
  - rewrite (Hlen true); [lia|]. rewrite Hb', Hk. apply orb_true_r.
Qed.
End ObjectFacts.

(** *** Objects that are hashable and equal only to themselves

    With [==] the identity and a [hash] that never raises, a call on
    objects is the call of [Util.wrapper]. *)

Section IdentityObjects.
Context {V X : Type} `{EqDecision V}.
Variable hash_of : V → Z.
Variable is_fasttype : V → bool.
Variable type_name : V → string.
Variable str_hash : string → Z.
Variable mark_hash : Z.
Variable tuple_hash : list Z → Z.
Implicit Types (c : cache_fn (V:=V) (X:=X)) (cfg : config (V:=V)).
Implicit Types (st : lru_state V) (w : log V).
Implicit Types (args : list V) (kw : kwargs V).
Implicit Types (key k : cache_key V) (d : list (cache_key V * V)).

Local Abbreviation same := (λ a b : V, bool_decide (a = b)).
Local Abbreviation hashed := (λ a : V, Some (hash_of a)).

Lemma identity_key_item_eq (a b : key_item V) :
  Objects.key_item_eq same a b = bool_decide (a = b).
Proof.
  destruct a as [v| |n], b as [v'| |n']; cbn [Objects.key_item_eq];
    try (symmetry; by apply bool_decide_eq_false_2).
  - apply bool_decide_ext. split; [by intros ->|by intros [= ->]].
  - symmetry. by apply bool_decide_eq_true_2.
  - apply bool_decide_ext. split; [by intros ->|by intros [= ->]].
Qed.

Lemma identity_items_eq (t t' : list (key_item V)) :
  bool_decide (length t = length t')
  && forallb (λ ab, Objects.key_item_eq same ab.1 ab.2) (zip t t')
  = bool_decide (t = t').
Proof.
  revert t'. induction t as [|a t IH]; intros [|b t'];
    try (symmetry; by apply bool_decide_eq_false_2).
  - done.
  - cbn [zip zip_with forallb length fst snd].
    rewrite identity_key_item_eq.
    destruct (decide (a = b)) as [->|Hab].
    + rewrite (bool_decide_eq_true_2 (b = b)) by done. cbn [andb].
      transitivity (bool_decide (length t = length t')
                    && forallb (λ ab, Objects.key_item_eq same ab.1 ab.2)
                         (zip t t')).
      * f_equal. apply bool_decide_ext. lia.
      * rewrite IH. apply bool_decide_ext.
        split; [by intros ->|by intros [= ->]].
    + rewrite (bool_decide_eq_false_2 (a = b)) by done.
      rewrite andb_false_r. symmetry. apply bool_decide_eq_false_2. congruence.
Qed.

Lemma identity_key_eq k key :
  Objects.key_eq same k key = bool_decide (k = key).
Proof.
  destruct k as [v|t], key as [v'|t']; cbn [Objects.key_eq];
    try (symmetry; by apply bool_decide_eq_false_2).
  - apply bool_decide_ext. split; [by intros ->|by intros [= ->]].
  - rewrite identity_items_eq. apply bool_decide_ext.
    split; [by intros ->|by intros [= ->]].
Qed.

Lemma identity_key_hash key :
  ∃ h, Objects.key_hash hashed str_hash mark_hash tuple_hash key = inr h.
Proof.
  assert (∀ t, ∃ hs, Objects.items_hash hashed str_hash mark_hash t = inr hs)
    as Hitems.
  { induction t as [|a t [hs IH]]; [by eexists|].
    cbn [Objects.items_hash]. rewrite IH.
    destruct a; cbn [Objects.key_item_hash]; by eexists. }
  destruct key as [v|t]; cbn [Objects.key_hash Objects.key_item_hash].
  - by eexists.
  - destruct (Hitems t) as [hs ->]. by eexists.
Qed.

Lemma identity_matches k key :
  Objects.matches same hashed str_hash mark_hash tuple_hash k key
  = bool_decide (key = k).
Proof.
  unfold Objects.matches.
  destruct (identity_key_hash k) as [h Hh], (identity_key_hash key) as [h' Hh'].
  rewrite Hh, Hh', identity_key_eq.
  destruct (decide (k = key)) as [->|Hne].
  - rewrite Hh in Hh'. injection Hh' as ->.
    by rewrite !bool_decide_eq_true_2.
  - rewrite (bool_decide_eq_false_2 (k = key)) by done.
    rewrite andb_false_r. symmetry. apply bool_decide_eq_false_2. congruence.
Qed.

Lemma identity_cache_get key d :
  Objects.cache_get same hashed str_hash mark_hash tuple_hash key d
  = dict_get key d.
Proof.
  induction d as [|[k v] d IH]; [done|].
  cbn [Objects.cache_get dict_get]. rewrite identity_matches, IH.
  case_bool_decide; [rewrite decide_True by done|rewrite decide_False by done];
    done.
Qed.

Lemma identity_cache_find key d :
  Objects.cache_find same hashed str_hash mark_hash tuple_hash key d
  = (λ v, (key, v)) <$> dict_get key d.
Proof.
  induction d as [|[k v] d IH]; [done|].
  cbn [Objects.cache_find dict_get]. rewrite identity_matches, IH.
  case_bool_decide as Hk;
    [rewrite decide_True by done|rewrite decide_False by done];
    [by rewrite Hk|done].
Qed.

Lemma identity_cache_del key d :
  Objects.cache_del same hashed str_hash mark_hash tuple_hash key d
  = dict_del key d.
Proof.
  induction d as [|[k v] d IH]; [done|].
  cbn [Objects.cache_del dict_del]. rewrite identity_matches, IH.
  case_bool_decide; [rewrite decide_True by done|rewrite decide_False by done];
    done.
Qed.

Lemma identity_cache_set key v d :
  Objects.cache_set same hashed str_hash mark_hash tuple_hash key v d
  = dict_set key v d.
Proof.
  induction d as [|[k v'] d IH]; [done|].
  cbn [Objects.cache_set dict_set]. rewrite identity_matches, IH.
  case_bool_decide; [rewrite decide_True by done|rewrite decide_False by done];
    done.
Qed.

Lemma identity_lru_cache_wrapper (m : option nat) (u : ufun V X) args kw st w :
  Objects._lru_cache_wrapper same hashed is_fasttype type_name str_hash
    mark_hash tuple_hash m u args kw st w
  = _lru_cache_wrapper is_fasttype m u args kw st w.
Proof.
  destruct m as [[|n]|]; [done| |].
  - unfold Objects._lru_cache_wrapper, _lru_cache_wrapper,
      Objects.bounded_wrapper, bounded_wrapper. cbv zeta.
    destruct (identity_key_hash (_make_key is_fasttype args kw)) as [h ->].
    rewrite identity_cache_find, identity_cache_del.
    destruct (dict_get _ (entries st)) as [v|] eqn:Hget; [done|].
    cbn [fmap option_fmap option_map entries].
    destruct (u args kw w) as [[v|e] w']; [|done].
    by rewrite identity_cache_get, Hget.
  - unfold Objects._lru_cache_wrapper, _lru_cache_wrapper,
      Objects.unbounded_wrapper, unbounded_wrapper. cbv zeta.
    destruct (identity_key_hash (_make_key is_fasttype args kw)) as [h ->].
    rewrite identity_cache_get.
    destruct (dict_get _ (entries st)) as [v|]; [done|].
    cbn [entries]. destruct (u args kw w) as [[v|e] w']; [|done].
    by rewrite identity_cache_set.
Qed.

Lemma identity_wrapper c cfg args kw st w :
  Objects.wrapper same hashed is_fasttype type_name str_hash mark_hash
    tuple_hash c cfg args kw st w
  = wrapper is_fasttype c cfg args kw st w.
Proof.
  unfold Objects.wrapper, wrapper.
  by rewrite !identity_lru_cache_wrapper.
Qed.
End IdentityObjects.

(** *** The sample objects *)

Lemma obj_eq_number a b :
  Objects.obj_eq a b = true → Objects.number a = Objects.number b.
Proof.
  destruct a, b; cbn; try done; by intros ->%bool_decide_eq_true.
Qed.

Lemma obj_eq_sym a b : Objects.obj_eq a b = true → Objects.obj_eq b a = true.
Proof.
  destruct a, b; cbn; try done; rewrite !bool_decide_eq_true; congruence.
Qed.

Lemma obj_eq_trans a b e :
  Objects.obj_eq a b = true → Objects.obj_eq b e = true →
  Objects.obj_eq a e = true.
Proof.
  destruct a, b, e; cbn; try done; rewrite !bool_decide_eq_true; congruence.
Qed.

Lemma obj_hash_eq a b :
  Objects.obj_eq a b = true → Objects.obj_hash a = Objects.obj_hash b.
Proof.
  destruct a, b; cbn; try done; by intros ->%bool_decide_eq_true.
Qed.

Lemma numbers_alike (l l' : list Objects.obj) :
  Forall2 (λ a b, Objects.obj_eq a b = true) l l' →
  mapM Objects.number l = mapM Objects.number l'.
Proof.
  induction 1 as [|a b l l' Hab _ IH]; [done|].
  cbn [mapM]. by rewrite (obj_eq_number _ _ Hab), IH.
Qed.

(** [total] cannot tell apart arguments that compare equal. *)
Lemma total_respects m tc :
  Objects.respects Objects.obj_eq Objects.obj_is_fasttype
    (CacheFn m tc Objects.total).
Proof.
  intros cfg args kw cfg' args' kw'.
  rewrite !key_of_lookup_args, make_key_alike. intros (_ & Hargs & Hkw).
  assert (Forall2 (λ a b, Objects.obj_eq a b = true) args args') as Ha.
  { unfold lookup_args in Hargs. cbn [trace_context_in_key] in Hargs.
    destruct tc; [by apply Forall2_cons in Hargs as [_ ?]|done]. }
  cbn [wrapped]. unfold Objects.total.
  assert (mapM Objects.number (args ++ kw.*2)
          = mapM Objects.number (args' ++ kw'.*2)) as ->; [|done].
  apply numbers_alike, Forall2_app; [done|]. clear -Hkw.
  induction Hkw as [|[n v] [n' v'] kw kw' [_ Hv] _ IH]; [constructor|].
  rewrite !fmap_cons. by constructor.
Qed.

(** The keys of [g(1)] and [g(1.0)] are different, those of [g(1, 2)] and
    [g(1.0, 2.0)] are equal; behind a trace context the keys of [g(1)],
    [g(1.0)] and [g(True)] are equal, and the three calls give one miss
    and two hits. *)
Lemma equal_numbers_share_keys :
  let bare := CacheFn (Some 2) false Objects.total in
  let traced := CacheFn (Some 2) true Objects.total in
  let cfg := Objects.leaks_off (Objects.Int 0) in
  let key c args := key_of Objects.obj_is_fasttype c cfg args [] in
  Objects.obj_key_eq (key bare [Objects.Int 1]) (key bare [Objects.Float 1])
  = false
  ∧ Objects.obj_key_eq (key bare [Objects.Int 1; Objects.Int 2])
      (key bare [Objects.Float 1; Objects.Float 2]) = true
  ∧ Objects.obj_key_eq (key traced [Objects.Int 1])
      (key traced [Objects.Float 1]) = true
  ∧ Objects.obj_key_eq (key traced [Objects.Int 1])
      (key traced [Objects.Bool true]) = true
  ∧ ∃ st w,
      Objects.obj_run traced
        [Call cfg [Objects.Int 1] []; Call cfg [Objects.Float 1] [];
         Call cfg [Objects.Bool true] []] lru_new []
      = ([Return (Objects.Int 1); Return (Objects.Int 1);
          Return (Objects.Int 1)], st, w)
      ∧ w = [([Objects.Int 1], [])]
      ∧ hits st = 2 ∧ misses st = 1.
Proof.
  intros bare traced cfg key. repeat (split; [reflexivity|]).
  eexists _, _. split; [reflexivity|]. done.
Qed.

(** A cached function whose result depends on the type of its argument
    answers [g(1.0)] with the result stored for [g(1)]. *)
Lemma equal_numbers_share_results :
  let c := CacheFn (Some 2) true Objects.kind in
  let cfg := Objects.leaks_off (Objects.Int 0) in
  Objects.kind [Objects.Float 1] [] = Return (Objects.Str "float")
  ∧ ∃ st w,
      Objects.obj_run c
        [Call cfg [Objects.Int 1] []; Call cfg [Objects.Float 1] []]
        lru_new []
      = ([Return (Objects.Str "int"); Return (Objects.Str "int")], st, w).
Proof. intros c cfg. split; [reflexivity|]. by eexists _, _. Qed.

(** A call with a list among its arguments raises before the cache is
    looked at: no counter moves and the wrapped function is not invoked. *)
Lemma unhashable_argument_raises :
  let c := CacheFn (Some 2) true Objects.total in
  let cfg := Objects.leaks_off (Objects.Int 0) in
  Objects.obj_wrapper c cfg [Objects.List [1%Z]] [] lru_new []
  = (Raise (TypeError "unhashable type: 'list'"), lru_new, []).
Proof. reflexivity. Qed.

(** With capacity one, a call between two calls with the same keywords
    evicts the entry: [f(x=1, y=2)], [f(9)], [f(x=1, y=2)] are three
    misses. *)
Lemma evicted_entry_is_no_hit :
  let c := CacheFn (Some 1) true Objects.total in
  let cfg := Objects.leaks_off (Objects.Int 0) in
  let kw := [("x", Objects.Int 1); ("y", Objects.Int 2)] in
  ∃ rs st w,
    Objects.obj_run c
      [Call cfg [] kw; Call cfg [Objects.Int 9] []; Call cfg [] kw]
      lru_new []
    = (rs, st, w)
    ∧ hits st = 0 ∧ misses st = 3 ∧ length w = 3.
Proof. intros c cfg kw. by eexists _, _, _. Qed.

(** C1 at concrete calls: under the flag, a traced cache is left alone
    and an untraced one stores the value and counts a miss. *)
Lemma bypass_needs_trace_context_witness :
  let cfg := Objects.leaks_on (Objects.Int 0) in
  Objects.obj_wrapper (CacheFn (Some 2) true Objects.total) cfg
    [Objects.Int 1] [] lru_new []
  = (Return (Objects.Int 1), lru_new, [([Objects.Int 1], [])])
  ∧ ∃ st,
      Objects.obj_wrapper (CacheFn (Some 2) false Objects.total) cfg
        [Objects.Int 1] [] lru_new []
      = (Return (Objects.Int 1), st, [([Objects.Int 1], [])])
      ∧ (KFast (Objects.Int 1), Objects.Int 1) ∈ entries st
      ∧ hits st = 0 ∧ misses st = 1.
Proof.
  intros cfg. split.
  - destruct (bypass_needs_trace_context Objects.obj_eq Objects.obj_hash
                Objects.obj_is_fasttype Objects.obj_type_name
                Objects.obj_str_hash Objects.obj_mark_hash
                Objects.obj_tuple_hash
                (CacheFn (Some 2) true Objects.total) cfg
                [Objects.Int 1] [] lru_new [] eq_refl) as [Htraced _].
    exact (Htraced eq_refl).
  - destruct (bypass_needs_trace_context Objects.obj_eq Objects.obj_hash
                Objects.obj_is_fasttype Objects.obj_type_name
                Objects.obj_str_hash Objects.obj_mark_hash
                Objects.obj_tuple_hash
                (CacheFn (Some 2) false Objects.total) cfg
                [Objects.Int 1] [] lru_new [] eq_refl) as [_ Hbare].
    destruct (Hbare eq_refl) as (_ & _ & _ & Hcache).
    destruct (Hcache ltac:(discriminate)) as [_ Hkey].
    destruct (Hkey 1%Z eq_refl) as [_ Hmiss].
    destruct (Hmiss eq_refl) as [Hstore _].
    exact (Hstore (Objects.Int 1) eq_refl).
Defined.

(** C2 at concrete calls: [f(x=1, y=2)] then [f(x=1.0, y=2)] behind the
    same trace context: the second call is a hit. *)
Lemma key_keeps_keyword_order_witness :
  let c := CacheFn (Some 2) true Objects.total in
  let cfg := Objects.leaks_off (Objects.Int 0) in
  let kw := [("x", Objects.Int 1); ("y", Objects.Int 2)] in
  let kw' := [("x", Objects.Float 1); ("y", Objects.Int 2)] in
  ∃ st1 st2,
    Objects.obj_wrapper c cfg [] kw lru_new []
    = (Return (Objects.Int 3), st1, [([], kw)])
    ∧ Objects.obj_wrapper c cfg [] kw' st1 [([], kw)]
      = (Return (Objects.Int 3), st2, [([], kw)])
    ∧ hits st2 = S (hits st1) ∧ misses st2 = misses st1.
Proof.
  intros c cfg kw kw'.
  destruct (key_keeps_keyword_order Objects.obj_eq Objects.obj_hash
              Objects.obj_is_fasttype Objects.obj_type_name
              Objects.obj_str_hash Objects.obj_mark_hash
              Objects.obj_tuple_hash obj_eq_sym obj_eq_trans obj_hash_eq
              c cfg [] kw) as (_ & _ & _ & Hhit).
  destruct (Hhit cfg [] kw' lru_new [] (Objects.Int 3) _ _ _
              eq_refl eq_refl ltac:(discriminate) eq_refl eq_refl eq_refl)
    as [(st2 & Hcall & Hcount) _].
  eexists _, st2. split; [reflexivity|]. split; [exact Hcall|exact Hcount].
Defined.

(** X26 on a cache of capacity one, after calls with the arguments 1
    and 2: a call with 1.0 has the outcome of [total], and a call with a
    list raises. *)
Lemma cached_call_is_transparent_witness :
  let c := CacheFn (Some 1) true Objects.total in
  let cfg := Objects.leaks_off (Objects.Int 0) in
  let st := (Objects.obj_wrapper c cfg [Objects.Int 2] []
               (Objects.obj_wrapper c cfg [Objects.Int 1] []
                  lru_new []).1.2 [([Objects.Int 1], [])]).1.2 in
  (Objects.obj_wrapper c cfg [Objects.Float 1] [] st []).1.1
  = Objects.total [Objects.Float 1] []
  ∧ Objects.obj_wrapper c cfg [Objects.List [1%Z]] [] st []
    = (Raise (TypeError "unhashable type: 'list'"), st, []).
Proof.
  intros c cfg st.
  assert (Objects.reachable Objects.obj_eq Objects.obj_hash
            Objects.obj_is_fasttype Objects.obj_type_name
            Objects.obj_str_hash Objects.obj_mark_hash
            Objects.obj_tuple_hash c st) as Hst.
  { subst st.
    apply (Objects.reachable_call _ _ _ _ _ _ _ c cfg [Objects.Int 2] []
             _ [([Objects.Int 1], [])]).
    apply (Objects.reachable_call _ _ _ _ _ _ _ c cfg [Objects.Int 1] []
             _ []).
    apply Objects.reachable_new. }
  assert (binds c []) as Hbind.
  { intros _ Hin. cbn in Hin. by apply elem_of_nil in Hin. }
  split.
  - destruct (cached_call_is_transparent Objects.obj_eq Objects.obj_hash
                Objects.obj_is_fasttype Objects.obj_type_name
                Objects.obj_str_hash Objects.obj_mark_hash
                Objects.obj_tuple_hash c cfg [Objects.Float 1] [] st []
                (total_respects _ _) Hst Hbind) as [Hsame _].
    apply Hsame. right. right. by eexists.
  - destruct (cached_call_is_transparent Objects.obj_eq Objects.obj_hash
                Objects.obj_is_fasttype Objects.obj_type_name
                Objects.obj_str_hash Objects.obj_mark_hash
                Objects.obj_tuple_hash c cfg [Objects.List [1%Z]] [] st []
                (total_respects _ _) Hst Hbind) as [_ Hraise].
    apply (Hraise (Objects.List [1%Z])); [reflexivity|discriminate|reflexivity].
Defined.
